(** * sma_trafic: a shallow embedding of the multi-agent traffic runtime

    The Python sources embedded here are
    - [communication/fipa_message.py]  (module [Fipa]),
    - [agents/bdi_agent.py]            (module [Bdi]),
    - [algorithms/routing.py]          (module [Routing]),
    - [agents/intersection_agent.py]   (module [Intersection]),
    - [agents/vehicle_agent.py]        (module [Vehicle]),
    - [agents/crisis_manager_agent.py] (module [Crisis]).

    Conventions.  Python [float]s are rationals ([Q]) and their
    arithmetic is exact, except where a decision compares a computed
    value with a threshold that the exact value can be equal to for the
    integers the code feeds it (the pressures of Max-Pressure, the
    availability of a contract-net bid): there every operation is
    rounded to binary64 by [fl].  Infinities and NaN are not modelled.
    Python [int]s are [Z].  A [dict] with string keys that
    is only looked up is a [gmap]; a [dict] whose iteration order is
    observed is an association list in insertion order.  A method that
    mutates [self] is a function from the old object to the new one; a
    method that may raise returns a [Result]. *)

From Stdlib Require Import Ascii QArith Qround Qabs Qpower Lia Lqa.
From stdpp Require Import base option list gmap strings pretty fin_maps sorting.

Set Warnings "-register-all".

(** ** Python values, exceptions *)

Module Py.

Inductive PyExn : Type :=
| IndexError
| KeyError
| AttributeError
| TypeError
| ZeroDivisionError.

Inductive Result (A : Type) : Type :=
| Ok (a : A)
| Raise (e : PyExn).
Arguments Ok {A} a.
Arguments Raise {A} e.

Definition bind {A B : Type} (r : Result A) (k : A -> Result B) : Result B :=
  match r with
  | Ok a => k a
  | Raise e => Raise e
  end.

(** The values a message payload or a belief may hold. *)
Inductive PyVal : Type :=
| PNone
| PBool (b : bool)
| PNum (q : Q)
| PStr (s : string)
| PTuple (l : list PyVal)
| PDict (m : gmap string PyVal).

Abbreviation PyDict := (gmap string PyVal).

(** [d.get(key, default)] *)
Definition dict_get (d : PyDict) (key : string) (default : PyVal) : PyVal :=
  match d !! key with
  | Some v => v
  | None => default
  end.

(** [key in d] *)
Definition dict_has (d : PyDict) (key : string) : bool :=
  match d !! key with
  | Some _ => true
  | None => false
  end.

(** [v == s] for a string literal [s] *)
Definition py_eq_str (v : PyVal) (s : string) : bool :=
  match v with
  | PStr s' => bool_decide (s' = s)
  | _ => false
  end.

(** Truthiness of a value, as [if v:] reads it. *)
Definition truthy (v : PyVal) : bool :=
  match v with
  | PNone => false
  | PBool b => b
  | PNum q => negb (Qeq_bool q 0)
  | PStr s => negb (bool_decide (s = ""))
  | PTuple l => negb (bool_decide (length l = 0%nat))
  | PDict m => negb (bool_decide (size m = 0%nat))
  end.

(** A position [(x, y)] as a payload value. *)
Definition of_pos (p : Q * Q) : PyVal := PTuple [PNum (fst p); PNum (snd p)].

(** Strict and large comparisons on floats, as booleans. *)
Definition Qltb (a b : Q) : bool := negb (Qle_bool b a).
Definition Qleb (a b : Q) : bool := Qle_bool a b.
(** [max(a, b)] and [min(a, b)]: the first argument wins a tie. *)
Definition Qmax (a b : Q) : Q := if Qltb a b then b else a.
Definition Qmin (a b : Q) : Q := if Qltb b a then b else a.

(** [int(x)]: truncation toward zero. *)
Definition py_int (x : Q) : Z := Z.quot (Qnum x) (Zpos (Qden x)).

(** *** Rounding to binary64

    A float operation returns the exact result rounded to the nearest
    binary64 value, ties to the even significand.  The values are the
    multiples of [2^u], where for a magnitude in [[2^e, 2^(e+1))] the
    exponent [u] is [e - 52], and [-1074] for the subnormal ones.
    Overflow (a magnitude of [2^1024] and more) is not modelled. *)

(** The integer nearest to [x], the even one of two at equal distance. *)
Definition round_half_even (x : Q) : Z :=
  let f := Qfloor x in
  let r := (x - inject_Z f)%Q in
  if Qltb r (1 # 2) then f
  else if Qltb (1 # 2) r then (f + 1)%Z
  else if Z.even f then f else (f + 1)%Z.

Definition pow2 (k : Z) : Q := Qpower 2 k.

(** The exponent [e] with [2^e <= x < 2^(e+1)], for a positive [x]. *)
Definition Qlog2 (x : Q) : Z :=
  let k := (Z.log2 (Qnum x) - Z.log2 (Zpos (Qden x)))%Z in
  if Qleb (pow2 k) x then k else (k - 1)%Z.

Definition ulp_exponent (a : Q) : Z := Z.max (Qlog2 a - 52) (-1074).

Definition round_magnitude (a : Q) : Q :=
  (inject_Z (round_half_even (a / pow2 (ulp_exponent a))) * pow2 (ulp_exponent a))%Q.

(** The binary64 value of the exact result [x]. *)
Definition fl (x : Q) : Q :=
  if Qeq_bool x 0 then 0%Q
  else Qred (if Qltb x 0 then - round_magnitude (Qabs x) else round_magnitude (Qabs x)).

(** [str.lower()] on ASCII text. *)
Definition ascii_lower (c : ascii) : ascii :=
  let n := nat_of_ascii c in
  if (65 <=? n)%nat && (n <=? 90)%nat then ascii_of_nat (n + 32) else c.

Fixpoint lower (s : string) : string :=
  match s with
  | EmptyString => EmptyString
  | String c rest => String (ascii_lower c) (lower rest)
  end.

End Py.

Import Py.

#[global] Instance Result_bind : MBind Result := fun A B k r => Py.bind r k.
#[global] Instance Result_ret : MRet Result := @Ok.

(** ** communication/fipa_message.py *)

Module Fipa.

Inductive Performative : Type :=
| INFORM | QUERY_IF | QUERY_REF
| PROPOSE | ACCEPT_PROPOSAL | REJECT_PROPOSAL
| REQUEST | AGREE | REFUSE
| FAILURE | CONFIRM | DISCONFIRM
| NOT_UNDERSTOOD | CANCEL
| INFORM_CONGESTION | REQUEST_ROUTE | COORDINATE.

(** [Performative.X.value] *)
Definition value (p : Performative) : string :=
  match p with
  | INFORM => "inform"
  | QUERY_IF => "query-if"
  | QUERY_REF => "query-ref"
  | PROPOSE => "propose"
  | ACCEPT_PROPOSAL => "accept-proposal"
  | REJECT_PROPOSAL => "reject-proposal"
  | REQUEST => "request"
  | AGREE => "agree"
  | REFUSE => "refuse"
  | FAILURE => "failure"
  | CONFIRM => "confirm"
  | DISCONFIRM => "disconfirm"
  | NOT_UNDERSTOOD => "not-understood"
  | CANCEL => "cancel"
  | INFORM_CONGESTION => "inform-congestion"
  | REQUEST_ROUTE => "request-route"
  | COORDINATE => "coordinate"
  end.

Definition members : list Performative :=
  [INFORM; QUERY_IF; QUERY_REF; PROPOSE; ACCEPT_PROPOSAL; REJECT_PROPOSAL;
   REQUEST; AGREE; REFUSE; FAILURE; CONFIRM; DISCONFIRM; NOT_UNDERSTOOD;
   CANCEL; INFORM_CONGESTION; REQUEST_ROUTE; COORDINATE].

(** [Performative(s)]: the member whose value is [s]; [None] stands for the
    [ValueError] of an unknown value. *)
Definition Performative_of (s : string) : option Performative :=
  List.find (fun p => bool_decide (value p = s)) members.

Record FIPAMessage : Type := mkFIPAMessage {
  sender : string;
  receiver : string;
  performative : string;
  content : PyDict;
  language : string;
  ontology : option string;
  protocol : option string;
  conversation_id : option string;
  reply_to : option string;
  reply_by : option Q;
  timestamp : Q;
  message_id : string
}.

(** [__post_init__]: a performative string is replaced by the value of the
    enum member its lower-case form names; any other string is kept. *)
Definition post_init_performative (p : string) : string :=
  match Performative_of (lower p) with
  | Some e => value e
  | None => p
  end.

(** The dataclass constructor with its defaults, followed by
    [__post_init__].  [t_stamp] and [t_id] are the two readings of
    [time.time()] made by the default factories of [timestamp] and
    [message_id]. *)
Definition FIPAMessage_init (t_stamp t_id : Q)
    (sender receiver performative : string) (content : PyDict)
    (ontology protocol conversation_id reply_to : option string) : FIPAMessage :=
  {| sender := sender;
     receiver := receiver;
     performative := post_init_performative performative;
     content := content;
     language := "JSON";
     ontology := ontology;
     protocol := protocol;
     conversation_id := conversation_id;
     reply_to := reply_to;
     reply_by := None;
     timestamp := t_stamp;
     message_id := "msg_" +:+ pretty (py_int (t_id * 1000)) |}.

Definition is_broadcast (self : FIPAMessage) : bool :=
  bool_decide (receiver self = "broadcast").

Definition is_reply_to (self : FIPAMessage) (message_id : string) : bool :=
  bool_decide (reply_to self = Some message_id).

(** [create_reply]: reads [self], builds a new message. *)
Definition create_reply (t_stamp t_id : Q) (self : FIPAMessage)
    (performative : string) (content : PyDict) : FIPAMessage :=
  FIPAMessage_init t_stamp t_id
    (receiver self) (sender self) performative content
    (ontology self) (protocol self) (conversation_id self)
    (Some (message_id self)).

(** Messages are objects: a store maps a reference (an index) to the
    message it denotes.  Calling [m.create_reply(...)] on the object at
    reference [m] allocates the reply at a fresh reference. *)
Abbreviation ObjStore := (list FIPAMessage).

Definition create_reply_at (t_stamp t_id : Q) (st : ObjStore) (m : nat)
    (performative : string) (content : PyDict) : option (ObjStore * nat) :=
  match st !! m with
  | Some self =>
      Some (st ++ [create_reply t_stamp t_id self performative content],
            length st)
  | None => None
  end.

(** *** MessageQueue *)

Record MessageQueue : Type := mkMessageQueue {
  inbox : list FIPAMessage;
  outbox : list FIPAMessage;
  max_size : Z;
  message_count : Z
}.

Definition MessageQueue_init (max_size : Z) : MessageQueue :=
  {| inbox := []; outbox := []; max_size := max_size; message_count := 0 |}.

Definition set_inbox (self : MessageQueue) (l : list FIPAMessage) : MessageQueue :=
  {| inbox := l; outbox := outbox self; max_size := max_size self;
     message_count := message_count self |}.

(** [add_to_inbox]: append while there is room; otherwise [pop(0)] and
    append.  [pop(0)] on an empty list raises [IndexError]. *)
Definition add_to_inbox (self : MessageQueue) (message : FIPAMessage)
    : Result MessageQueue :=
  if (Z.of_nat (length (inbox self)) <? max_size self)%Z
  then Ok (set_inbox self (inbox self ++ [message]))
  else
    match inbox self with
    | [] => Raise IndexError
    | _ :: rest => Ok (set_inbox self (rest ++ [message]))
    end.

Definition add_to_outbox (self : MessageQueue) (message : FIPAMessage) : MessageQueue :=
  {| inbox := inbox self; outbox := outbox self ++ [message];
     max_size := max_size self; message_count := (message_count self + 1)%Z |}.

(** Removes the first element satisfying [p], returning it with the rest. *)
Fixpoint pop_first (p : FIPAMessage -> bool) (l : list FIPAMessage)
    : option (FIPAMessage * list FIPAMessage) :=
  match l with
  | [] => None
  | x :: rest =>
      if p x then Some (x, rest)
      else match pop_first p rest with
           | Some (y, rest') => Some (y, x :: rest')
           | None => None
           end
  end.

(** [get_from_inbox]: an empty-string filter is falsy, as [None] is. *)
Definition get_from_inbox (self : MessageQueue) (perf : option string)
    : option FIPAMessage * MessageQueue :=
  let wanted := match perf with Some "" => None | other => other end in
  match wanted with
  | Some p =>
      match pop_first (fun msg => bool_decide (performative msg = p)) (inbox self) with
      | Some (msg, rest) => (Some msg, set_inbox self rest)
      | None => (None, self)
      end
  | None =>
      match inbox self with
      | [] => (None, self)
      | msg :: rest => (Some msg, set_inbox self rest)
      end
  end.

Definition clear_inbox (self : MessageQueue) : MessageQueue := set_inbox self [].

Definition get_inbox_size (self : MessageQueue) : Z := Z.of_nat (length (inbox self)).

(** A run of [add_to_inbox] calls, stopping at the first exception. *)
Fixpoint add_all (self : MessageQueue) (messages : list FIPAMessage)
    : Result MessageQueue :=
  match messages with
  | [] => Ok self
  | m :: rest => q ← add_to_inbox self m; add_all q rest
  end.

(** The mailbox contract for a capacity: after any run of additions to a
    fresh queue the inbox is within the capacity, and one more addition
    is accepted, keeps the bound, puts the message last, and evicts the
    first entry exactly when the inbox was full. *)
Definition inbox_contract (capacity : Z) : Prop :=
  forall (ms : list FIPAMessage) (m : FIPAMessage),
  exists q q' : MessageQueue,
    add_all (MessageQueue_init capacity) ms = Ok q /\
    (Z.of_nat (length (inbox q)) <= capacity)%Z /\
    add_to_inbox q m = Ok q' /\
    (Z.of_nat (length (inbox q')) <= capacity)%Z /\
    last (inbox q') = Some m /\
    (Z.of_nat (length (inbox q)) = capacity -> inbox q' = tail (inbox q) ++ [m]) /\
    ((Z.of_nat (length (inbox q)) < capacity)%Z -> inbox q' = inbox q ++ [m]).

(** *** CommunicationProtocol *)

Definition contract_net_protocol (t_stamp t_id : Q) (manager_id : string)
    (content : PyDict) : FIPAMessage :=
  FIPAMessage_init t_stamp t_id manager_id "broadcast" (value REQUEST)
    (content ∪ {[ "type" := PStr "call_for_proposals" ]})
    None (Some "fipa-contract-net") None None.

Definition propose_in_cnp (t_stamp t_id : Q) (contractor_id manager_id : string)
    (proposal_content : PyDict) (cfp_message : FIPAMessage) : FIPAMessage :=
  FIPAMessage_init t_stamp t_id contractor_id manager_id (value PROPOSE)
    proposal_content None (Some "fipa-contract-net")
    (conversation_id cfp_message) (Some (message_id cfp_message)).

Definition request_protocol (t_stamp t_id : Q) (initiator_id participant_id : string)
    (request_content : PyDict) : FIPAMessage :=
  FIPAMessage_init t_stamp t_id initiator_id participant_id (value REQUEST)
    request_content None (Some "fipa-request") None None.

Definition query_protocol (t_stamp t_id : Q) (initiator_id participant_id : string)
    (query_content : PyDict) : FIPAMessage :=
  FIPAMessage_init t_stamp t_id initiator_id participant_id (value QUERY_REF)
    query_content None (Some "fipa-query") None None.

(** [inform_congestion]; [t_now] is the reading of [time.time()] stored in
    the content. *)
Definition inform_congestion (t_stamp t_id t_now : Q) (intersection_id : string)
    (congestion_level : Q) (location : Q * Q) : FIPAMessage :=
  FIPAMessage_init t_stamp t_id intersection_id "broadcast" (value INFORM)
    {[ "type" := PStr "congestion";
       "congestion_level" := PNum congestion_level;
       "location" := of_pos location;
       "timestamp" := PNum t_now ]}
    None (Some "traffic-management") None None.

Definition coordinate_green_wave (t_stamp t_id : Q) (intersection_id neighbor_id : string)
    (phase_info : PyDict) : FIPAMessage :=
  FIPAMessage_init t_stamp t_id intersection_id neighbor_id (value PROPOSE)
    (phase_info ∪ {[ "type" := PStr "green_wave_coordination" ]})
    None (Some "green-wave-coordination") None None.

(** *** FIPAMessage as a dictionary *)

Definition of_opt_str (o : option string) : PyVal :=
  match o with Some s => PStr s | None => PNone end.

Definition of_opt_num (o : option Q) : PyVal :=
  match o with Some q => PNum q | None => PNone end.

(** [to_dict] *)
Definition to_dict (self : FIPAMessage) : PyDict :=
  {[ "sender" := PStr (sender self);
     "receiver" := PStr (receiver self);
     "performative" := PStr (performative self);
     "content" := PDict (content self);
     "language" := PStr (language self);
     "ontology" := of_opt_str (ontology self);
     "protocol" := of_opt_str (protocol self);
     "conversation_id" := of_opt_str (conversation_id self);
     "reply_to" := of_opt_str (reply_to self);
     "reply_by" := of_opt_num (reply_by self);
     "timestamp" := PNum (timestamp self);
     "message_id" := PStr (message_id self) ]}.

(** The names the dataclass accepts as keywords, the first four without a
    default. *)
Definition field_names : list string :=
  ["sender"; "receiver"; "performative"; "content"; "language"; "ontology";
   "protocol"; "conversation_id"; "reply_to"; "reply_by"; "timestamp"; "message_id"].

Definition required_names : list string :=
  ["sender"; "receiver"; "performative"; "content"].

(** Reading a keyword at the type its field is annotated with; [None]
    marks a value of another type, which Python would store as it is and
    the record here cannot hold. *)
Definition read_str (v : PyVal) : option string :=
  match v with PStr s => Some s | _ => None end.

Definition read_dict (v : PyVal) : option PyDict :=
  match v with PDict d => Some d | _ => None end.

Definition read_num (v : PyVal) : option Q :=
  match v with PNum q => Some q | _ => None end.

Definition read_opt_str (v : PyVal) : option (option string) :=
  match v with PStr s => Some (Some s) | PNone => Some None | _ => None end.

Definition read_opt_num (v : PyVal) : option (option Q) :=
  match v with PNum q => Some (Some q) | PNone => Some None | _ => None end.

(** [from_dict], that is [cls] called with the entries of [data] as
    keywords: a keyword that is no field, or a
    missing field without default, raises [TypeError]; a missing field
    with a default takes it ([timestamp] and [message_id] from the two
    clock readings); [__post_init__] then normalises the performative.
    [Ok None] stands for a dictionary holding a value outside the typed
    record. *)
Definition from_dict (t_stamp t_id : Q) (data : PyDict) : Result (option FIPAMessage) :=
  if negb (forallb (fun k => bool_decide (k ∈ field_names)) (map_to_list data).*1)
  then Raise TypeError
  else if negb (forallb (fun k => dict_has data k) required_names)
  then Raise TypeError
  else
    Ok (sender ← read_str (dict_get data "sender" PNone);
        receiver ← read_str (dict_get data "receiver" PNone);
        performative ← read_str (dict_get data "performative" PNone);
        content ← read_dict (dict_get data "content" PNone);
        language ← read_str (dict_get data "language" (PStr "JSON"));
        ontology ← read_opt_str (dict_get data "ontology" PNone);
        protocol ← read_opt_str (dict_get data "protocol" PNone);
        conversation_id ← read_opt_str (dict_get data "conversation_id" PNone);
        reply_to ← read_opt_str (dict_get data "reply_to" PNone);
        reply_by ← read_opt_num (dict_get data "reply_by" PNone);
        timestamp ← read_num (dict_get data "timestamp" (PNum t_stamp));
        message_id ← read_str (dict_get data "message_id"
                                 (PStr ("msg_" +:+ pretty (py_int (t_id * 1000)))));
        Some {| sender := sender;
                receiver := receiver;
                performative := post_init_performative performative;
                content := content;
                language := language;
                ontology := ontology;
                protocol := protocol;
                conversation_id := conversation_id;
                reply_to := reply_to;
                reply_by := reply_by;
                timestamp := timestamp;
                message_id := message_id |}).

(** *** MessageQueue, continued *)

(** [peek_inbox] *)
Definition peek_inbox (self : MessageQueue) (perf : option string) : option FIPAMessage :=
  let wanted := match perf with Some "" => None | other => other end in
  match wanted with
  | Some p => List.find (fun msg => bool_decide (performative msg = p)) (inbox self)
  | None => head (inbox self)
  end.

Definition clear_outbox (self : MessageQueue) : MessageQueue :=
  {| inbox := inbox self; outbox := []; max_size := max_size self;
     message_count := message_count self |}.

Definition get_outbox_size (self : MessageQueue) : Z := Z.of_nat (length (outbox self)).

(** A run of inbox operations from one queue. *)
Inductive InboxOp : Type :=
| OpAdd (message : FIPAMessage)
| OpGet (perf : option string)
| OpPeek (perf : option string)
| OpClear.

Definition inbox_op (self : MessageQueue) (op : InboxOp) : Result MessageQueue :=
  match op with
  | OpAdd message => add_to_inbox self message
  | OpGet perf => Ok (snd (get_from_inbox self perf))
  | OpPeek _ => Ok self
  | OpClear => Ok (clear_inbox self)
  end.

Fixpoint inbox_ops (self : MessageQueue) (ops : list InboxOp) : Result MessageQueue :=
  match ops with
  | [] => Ok self
  | op :: rest => q ← inbox_op self op; inbox_ops q rest
  end.

(** *** MessageRouter *)

(** What the router reaches of an agent of the schedule: its identifier,
    its position when it has the attribute, and its [message_inbox]. *)
Record Mailbox : Type := mkMailbox {
  agent_id : string;
  agent_position : option (Q * Q);
  message_inbox : list FIPAMessage
}.

Definition receive_message (a : Mailbox) (message : FIPAMessage) : Mailbox :=
  {| agent_id := agent_id a; agent_position := agent_position a;
     message_inbox := message_inbox a ++ [message] |}.

Record MessageRouter : Type := mkMessageRouter {
  total_messages_routed : Z;
  messages_by_type : gmap string Z;
  broadcast_radius : Q
}.

Definition MessageRouter_init : MessageRouter :=
  {| total_messages_routed := 0; messages_by_type := ∅; broadcast_radius := 500 |}.

(** [model.get_agent_by_id]: the first agent of the schedule with that
    identifier. *)
Definition get_agent_by_id (agents : list Mailbox) (uid : string) : option Mailbox :=
  List.find (fun a => bool_decide (agent_id a = uid)) agents.

(** [receive_message] on the object [get_agent_by_id] returns: the first
    agent with the identifier gets the message. *)
Fixpoint deliver_to (agents : list Mailbox) (uid : string) (message : FIPAMessage)
    : list Mailbox :=
  match agents with
  | [] => []
  | a :: rest =>
      if bool_decide (agent_id a = uid) then receive_message a message :: rest
      else a :: deliver_to rest uid message
  end.

(** [_unicast_message] *)
Definition unicast_message (agents : list Mailbox) (message : FIPAMessage) : list Mailbox :=
  deliver_to agents (receiver message) message.

Section RouterWithSqrt.

Variable fsqrt : Q -> Q.

(** [MessageRouter._calculate_distance] *)
Definition router_distance (pos1 pos2 : Q * Q) : Q :=
  fsqrt ((fst pos1 - fst pos2) ^ 2 + (snd pos1 - snd pos2) ^ 2)%Q.

(** [_broadcast_message] *)
Definition broadcast_message (self : MessageRouter) (agents : list Mailbox)
    (message : FIPAMessage) : list Mailbox :=
  match get_agent_by_id agents (sender message) with
  | Some {| agent_position := Some sender_pos |} =>
      map (fun agent =>
             match agent_position agent with
             | Some pos =>
                 if negb (bool_decide (agent_id agent = sender message))
                    && Qleb (router_distance sender_pos pos) (broadcast_radius self)
                 then receive_message agent message
                 else agent
             | None => agent
             end)
          agents
  | _ => agents
  end.

(** [route_message] *)
Definition route_message (self : MessageRouter) (agents : list Mailbox)
    (message : FIPAMessage) : MessageRouter * list Mailbox :=
  let perf := performative message in
  let self' :=
    {| total_messages_routed := (total_messages_routed self + 1)%Z;
       messages_by_type :=
         <[perf := (default 0%Z (messages_by_type self !! perf) + 1)%Z]>
           (messages_by_type self);
       broadcast_radius := broadcast_radius self |} in
  (self',
   if is_broadcast message then broadcast_message self' agents message
   else unicast_message agents message).

(** A run of [route_message] calls. *)
Definition route_all (self : MessageRouter) (agents : list Mailbox)
    (messages : list FIPAMessage) : MessageRouter * list Mailbox :=
  foldl (fun st message => route_message (fst st) (snd st) message) (self, agents) messages.

End RouterWithSqrt.

End Fipa.

(** ** agents/bdi_agent.py *)

Module Bdi.

Inductive BeliefType : Type :=
| POSITION | TRAFFIC_STATE | ROUTE | NEIGHBORS | CONGESTION | SPEED | DESTINATION.

Inductive DesireType : Type :=
| REACH_DESTINATION | MINIMIZE_TRAVEL_TIME | OPTIMIZE_FLOW
| AVOID_CONGESTION | COORDINATE_WITH_NEIGHBORS | PRIORITIZE_EMERGENCY.

Inductive IntentionType : Type :=
| MOVE_FORWARD | CHANGE_ROUTE | STOP | CHANGE_LIGHT_TIMING
| BROADCAST_CONGESTION | NEGOTIATE_WITH_NEIGHBOR | ACCELERATE | DECELERATE.

#[global] Instance BeliefType_eq_dec : EqDecision BeliefType.
Proof. solve_decision. Defined.

#[global] Instance BeliefType_countable : Countable BeliefType.
Proof.
  refine (inj_countable'
    (fun b => match b with
              | POSITION => 0 | TRAFFIC_STATE => 1 | ROUTE => 2 | NEIGHBORS => 3
              | CONGESTION => 4 | SPEED => 5 | DESTINATION => 6
              end)%nat
    (fun n => match n with
              | 0 => POSITION | 1 => TRAFFIC_STATE | 2 => ROUTE | 3 => NEIGHBORS
              | 4 => CONGESTION | 5 => SPEED | _ => DESTINATION
              end)%nat _).
  by intros [].
Defined.

Record Belief : Type := mkBelief {
  b_type : BeliefType;
  b_value : PyVal;
  confidence : Q;
  b_timestamp : Q;
  source : string
}.

(** [Belief.is_valid] *)
Definition is_valid (self : Belief) (current_time validity_duration : Q) : bool :=
  Qltb (current_time - b_timestamp self)%Q validity_duration.

Record Intention : Type := mkIntention {
  i_type : IntentionType;
  parameters : PyDict;
  priority : Q;
  status : string;
  parent_desire : option DesireType
}.

Abbreviation Beliefs := (gmap BeliefType Belief).

(** [update_belief]: the belief of that type is replaced, stamped with the
    agent's clock. *)
Definition update_belief (beliefs : Beliefs) (current_time : Q)
    (belief_type : BeliefType) (v : PyVal) (confidence : Q) (source : string)
    : Beliefs :=
  <[belief_type := {| b_type := belief_type; b_value := v;
                      confidence := confidence; b_timestamp := current_time;
                      source := source |}]> beliefs.

(** [get_belief]: the stored value, or [None]. *)
Definition get_belief (beliefs : Beliefs) (belief_type : BeliefType) : PyVal :=
  match beliefs !! belief_type with
  | Some b => b_value b
  | None => PNone
  end.

(** [remove_outdated_beliefs] *)
Definition remove_outdated_beliefs (beliefs : Beliefs) (current_time : Q)
    (validity_duration : Q) : Beliefs :=
  filter (fun kb => is_valid (snd kb) current_time validity_duration = true) beliefs.

(** [IntentionType.X.value] *)
Definition intention_value (t : IntentionType) : string :=
  match t with
  | MOVE_FORWARD => "move_forward"
  | CHANGE_ROUTE => "change_route"
  | STOP => "stop"
  | CHANGE_LIGHT_TIMING => "change_light_timing"
  | BROADCAST_CONGESTION => "broadcast_congestion"
  | NEGOTIATE_WITH_NEIGHBOR => "negotiate_with_neighbor"
  | ACCELERATE => "accelerate"
  | DECELERATE => "decelerate"
  end.

Record Desire : Type := mkDesire {
  d_type : DesireType;
  d_priority : Q;
  conditions : PyDict;
  satisfied : bool
}.

(** [list.sort(key=lambda d: d.priority, reverse=True)].  The sort is
    stable, also when reversed, so its result is the one list that holds
    the same desires by decreasing priority with desires of equal
    priority in their former order; insertion from the right builds
    it. *)
Fixpoint insert_desire (d : Desire) (l : list Desire) : list Desire :=
  match l with
  | [] => [d]
  | y :: rest =>
      if Qltb (d_priority d) (d_priority y) then y :: insert_desire d rest
      else d :: y :: rest
  end.

Definition sort_desires (l : list Desire) : list Desire := foldr insert_desire [] l.

(** [filter_desires] *)
Definition filter_desires (desires : list Desire) : list Desire :=
  sort_desires (List.filter (fun d => negb (satisfied d)) desires).

(** One entry of [action_history]. *)
Record ActionRecord : Type := mkActionRecord {
  a_time : Q;
  a_intention : string;
  a_success : bool;
  a_parameters : PyDict
}.

Definition set_status (i : Intention) (status : string) : Intention :=
  {| i_type := i_type i; parameters := parameters i; priority := priority i;
     status := status; parent_desire := parent_desire i |}.

Section ExecuteIntentions.

(** The rest of the agent, and the agent's [execute_intention] on it; the
    agents of this repository do not touch [self.intentions] or
    [self.action_history] there. *)
Variable Agent : Type.
Variable execute_intention : Agent -> Intention -> Agent * bool.
Variable agent_time : Agent -> Q.

(** The loop of [execute_intentions]: the agent, the intentions with
    their new status, and the history. *)
Fixpoint execute_pending (self : Agent) (intentions : list Intention)
    (history : list ActionRecord) : Agent * list Intention * list ActionRecord :=
  match intentions with
  | [] => (self, [], history)
  | intention :: rest =>
      if bool_decide (status intention = "pending") then
        let '(self', success) := execute_intention self (set_status intention "executing") in
        let finished := set_status intention (if success then "completed" else "failed") in
        let entry :=
          {| a_time := agent_time self';
             a_intention := intention_value (i_type intention);
             a_success := success;
             a_parameters := parameters intention |} in
        let '(self'', rest', history') := execute_pending self' rest (history ++ [entry]) in
        (self'', finished :: rest', history')
      else
        let '(self'', rest', history') := execute_pending self rest history in
        (self'', intention :: rest', history')
  end.

(** [execute_intentions] *)
Definition execute_intentions (self : Agent) (intentions : list Intention)
    (history : list ActionRecord) : Agent * list Intention * list ActionRecord :=
  let '(self', intentions', history') := execute_pending self intentions history in
  (self',
   List.filter (fun i => negb (bool_decide (status i = "completed")
                               || bool_decide (status i = "failed")))
               intentions',
   history').

End ExecuteIntentions.

(** *** Vocabulary of the properties *)

(** The order [filter_desires] sorts by: [a] may stand before [b]. *)
Definition by_priority (a b : Desire) : Prop := (d_priority b <= d_priority a)%Q.

(** An intention that [execute_intentions] runs or removes: one that is
    pending, completed or failed. *)
Definition settled (i : Intention) : bool :=
  bool_decide (status i = "pending") || bool_decide (status i = "completed")
  || bool_decide (status i = "failed").

End Bdi.

(** ** algorithms/routing.py *)

Module Routing.

Definition Pos : Type := Q * Q.

Record Node : Type := mkNode {
  position : Pos;
  id : string;
  neighbors : gmap string Q
}.

(** [Node(position, node_id)] with an explicit identifier. *)
Definition Node_init (position : Pos) (node_id : string) : Node :=
  {| position := position; id := node_id; neighbors := ∅ |}.

(** [Node.add_neighbor] *)
Definition add_neighbor (self : Node) (neighbor_id : string) (distance : Q) : Node :=
  {| position := position self; id := id self;
     neighbors := <[neighbor_id := distance]> (neighbors self) |}.

Definition drop_neighbor (self : Node) (neighbor_id : string) : Node :=
  {| position := position self; id := id self;
     neighbors := delete neighbor_id (neighbors self) |}.

(** The part of [networkx.Graph] the class uses: the [pos] attribute of
    each node and the symmetric adjacency with its [weight] attribute. *)
Record Graph : Type := mkGraph {
  g_pos : gmap string Pos;
  g_adj : gmap string (gmap string Q)
}.

Definition nx_empty : Graph := {| g_pos := ∅; g_adj := ∅ |}.

Definition nx_add_node (g : Graph) (n : string) (pos : Pos) : Graph :=
  {| g_pos := <[n := pos]> (g_pos g);
     g_adj := match g_adj g !! n with
              | Some _ => g_adj g
              | None => <[n := ∅]> (g_adj g)
              end |}.

Definition adj_of (g : Graph) (n : string) : gmap string Q :=
  default ∅ (g_adj g !! n).

Definition nx_add_edge (g : Graph) (u v : string) (weight : Q) : Graph :=
  let a1 := <[u := <[v := weight]> (adj_of g u)]> (g_adj g) in
  let a2 := <[v := <[u := weight]> (default ∅ (a1 !! v))]> a1 in
  {| g_pos := g_pos g; g_adj := a2 |}.

Definition nx_has_edge (g : Graph) (u v : string) : bool :=
  bool_decide (is_Some (adj_of g u !! v)).

Definition nx_remove_edge (g : Graph) (u v : string) : Graph :=
  let a1 := <[u := delete v (adj_of g u)]> (g_adj g) in
  let a2 := <[v := delete u (default ∅ (a1 !! v))]> a1 in
  {| g_pos := g_pos g; g_adj := a2 |}.

Record RoadNetwork : Type := mkRoadNetwork {
  nodes : gmap string Node;
  graph : Graph;
  grid_size : Z;
  (** [None] while the attribute [_temporary_blockages] does not exist *)
  temporary_blockages : option (list (string * string * Q))
}.

Definition RoadNetwork_init : RoadNetwork :=
  {| nodes := ∅; graph := nx_empty; grid_size := 100; temporary_blockages := None |}.

Definition add_node (self : RoadNetwork) (node : Node) : RoadNetwork :=
  {| nodes := <[id node := node]> (nodes self);
     graph := nx_add_node (graph self) (id node) (position node);
     grid_size := grid_size self;
     temporary_blockages := temporary_blockages self |}.

(** [remove_edge] *)
Definition remove_edge (self : RoadNetwork) (node1_id node2_id : string) : RoadNetwork :=
  match nodes self !! node1_id, nodes self !! node2_id with
  | Some _, Some _ =>
      let ns1 := alter (fun n => drop_neighbor n node2_id) node1_id (nodes self) in
      let ns2 := alter (fun n => drop_neighbor n node1_id) node2_id ns1 in
      {| nodes := ns2;
         graph := if nx_has_edge (graph self) node1_id node2_id
                  then nx_remove_edge (graph self) node1_id node2_id
                  else graph self;
         grid_size := grid_size self;
         temporary_blockages := temporary_blockages self |}
  | _, _ => self
  end.

(** [add_temporary_blockage]: the third argument is stored as the expiry
    the restoring pass compares the clock with. *)
Definition add_temporary_blockage (self : RoadNetwork) (node1_id node2_id : string)
    (duration : Q) : RoadNetwork :=
  let blockages := default [] (temporary_blockages self) in
  let net := remove_edge self node1_id node2_id in
  {| nodes := nodes net; graph := graph net; grid_size := grid_size net;
     temporary_blockages := Some (blockages ++ [(node1_id, node2_id, duration)]) |}.

(** An executable square root for evaluating examples: the floor of the
    root on the grid of the argument's denominator, exact on squares. *)
Definition sqrt_floor (q : Q) : Q :=
  Z.sqrt (Qnum q * Zpos (Qden q)) # Qden q.

Section WithSqrt.

(** [math.sqrt]: the properties below hold whatever it returns. *)
Variable fsqrt : Q -> Q.

(** [RoadNetwork._euclidean_distance] *)
Definition euclidean_distance (pos1 pos2 : Pos) : Q :=
  fsqrt ((fst pos1 - fst pos2) ^ 2 + (snd pos1 - snd pos2) ^ 2)%Q.

(** [add_edge]: [weight = None] asks for the Euclidean distance. *)
Definition add_edge (self : RoadNetwork) (node1_id node2_id : string)
    (weight : option Q) : RoadNetwork * bool :=
  match nodes self !! node1_id, nodes self !! node2_id with
  | Some n1, Some n2 =>
      let weight :=
        match weight with
        | None => euclidean_distance (position n1) (position n2)
        | Some w => w
        end in
      let ns1 := alter (fun n => add_neighbor n node2_id weight) node1_id (nodes self) in
      let ns2 := alter (fun n => add_neighbor n node1_id weight) node2_id ns1 in
      ({| nodes := ns2;
          graph := nx_add_edge (graph self) node1_id node2_id weight;
          grid_size := grid_size self;
          temporary_blockages := temporary_blockages self |}, true)
  | _, _ => (self, false)
  end.

(** The loop of [restore_expired_blockages] over the recorded blockages:
    the network so far and the entries still blocked. *)
Fixpoint restore_loop (current_time : Q) (blockages : list (string * string * Q))
    (net : RoadNetwork) (still_blocked : list (string * string * Q))
    : RoadNetwork * list (string * string * Q) :=
  match blockages with
  | [] => (net, still_blocked)
  | (node1_id, node2_id, expiry) :: rest =>
      if Qleb expiry current_time
      then restore_loop current_time rest (fst (add_edge net node1_id node2_id None))
             still_blocked
      else restore_loop current_time rest net
             (still_blocked ++ [(node1_id, node2_id, expiry)])
  end.

(** [restore_expired_blockages] *)
Definition restore_expired_blockages (self : RoadNetwork) (current_time : Q)
    : RoadNetwork :=
  match temporary_blockages self with
  | None => self
  | Some blockages =>
      let '(net, still_blocked) := restore_loop current_time blockages self [] in
      {| nodes := nodes net; graph := graph net; grid_size := grid_size net;
         temporary_blockages := Some still_blocked |}
  end.

(** The final value of the local [osm_correction_factor] in
    [AStarRouter._a_star.heuristic]. *)
Definition osm_correction_factor (euclidean_dist : Q) : Q :=
  let osm_correction_factor := 13 # 10 in
  if Qltb 5000 euclidean_dist then 115 # 100
  else if Qltb 10000 euclidean_dist then 11 # 10
  else osm_correction_factor.

(** [AStarRouter._a_star.heuristic] for the goal [end_id]; a node missing
    from [network.nodes] raises [KeyError]. *)
Definition heuristic (network : RoadNetwork) (end_id node_id : string) : Result Q :=
  match nodes network !! node_id, nodes network !! end_id with
  | Some node, Some goal =>
      let euclidean_dist := euclidean_distance (position node) (position goal) in
      Ok (euclidean_dist * osm_correction_factor euclidean_dist)%Q
  | _, _ => Raise KeyError
  end.

End WithSqrt.

(** *** Routers *)

(** A dictionary whose insertion order is observed, as an association
    list: [d[k] = v] replaces the value of an existing key where it
    stands, and appends a new key. *)
Fixpoint alist_set {K V : Type} `{EqDecision K} (k : K) (v : V) (l : list (K * V))
    : list (K * V) :=
  match l with
  | [] => [(k, v)]
  | (k', v') :: rest =>
      if decide (k' = k) then (k', v) :: rest else (k', v') :: alist_set k v rest
  end.

Definition alist_get {K V : Type} `{EqDecision K} (l : list (K * V)) (k : K) : option V :=
  snd <$> List.find (fun kv => bool_decide (fst kv = k)) l.

(** The exceptions of the routers: those of the agents, and the
    [StopIteration] of [next(iter(...))] on an empty dictionary. *)
Inductive RouterExn : Type :=
| PyError (e : PyExn)
| StopIteration.

Inductive Outcome (A : Type) : Type :=
| Return (a : A)
| Throw (e : RouterExn).
Arguments Return {A} a.
Arguments Throw {A} e.

Definition of_result {A : Type} (r : Result A) : Outcome A :=
  match r with
  | Ok a => Return a
  | Raise e => Throw (PyError e)
  end.

(** [heapq] on tuples [(f, node_id)].  The heap is kept as the list of
    its items; [heappop] takes out the least item, by the first
    components and, when they are equal, by the identifiers.  The
    routers never hold two equal items, so the least item is unique. *)
#[global] Instance Q_eq_dec : EqDecision Q.
Proof. solve_decision. Defined.

Definition item_lt (a b : Q * string) : bool :=
  Qltb (fst a) (fst b) || (Qeq_bool (fst a) (fst b) && String.ltb (snd a) (snd b)).

Definition least_item (first : Q * string) (rest : list (Q * string)) : Q * string :=
  foldl (fun best x => if item_lt x best then x else best) first rest.

Fixpoint remove_item (x : Q * string) (l : list (Q * string)) : list (Q * string) :=
  match l with
  | [] => []
  | y :: rest => if decide (y = x) then rest else y :: remove_item x rest
  end.

Definition heappop (heap : list (Q * string)) : option ((Q * string) * list (Q * string)) :=
  match heap with
  | [] => None
  | first :: rest =>
      let least := least_item first rest in
      Some (least, remove_item least heap)
  end.

Definition heappush (heap : list (Q * string)) (item : Q * string) : list (Q * string) :=
  heap ++ [item].

(** [_reconstruct_path]: the [while] loop runs as long as the current
    node has a predecessor; [fuel] bounds the iterations, and [None]
    tells that it was used up. *)
Fixpoint reconstruct_loop (fuel : nat) (came_from : gmap string string)
    (current_id : string) (path : list string) : option (list string) :=
  match fuel with
  | O => None
  | S fuel' =>
      match came_from !! current_id with
      | Some previous => reconstruct_loop fuel' came_from previous (path ++ [previous])
      | None => Some (reverse path)
      end
  end.

Definition reconstruct_path (fuel : nat) (came_from : gmap string string)
    (current_id : string) : option (list string) :=
  reconstruct_loop fuel came_from current_id [current_id].

(** The local variables of [_a_star]. *)
Record AStarState : Type := mkAStarState {
  open_set : list (Q * string);
  came_from : gmap string string;
  g_score : gmap string Q;
  f_score : gmap string Q;
  closed_set : gset string
}.

(** A cache of routes: [route_cache] in insertion order. *)
Record AStarRouter : Type := mkAStarRouter {
  paths_calculated : Z;
  route_cache : list ((string * string) * list string);
  cache_size : Z;
  cache_hits : Z;
  cache_misses : Z
}.

Definition AStarRouter_init (cache_size : Z) : AStarRouter :=
  {| paths_calculated := 0; route_cache := []; cache_size := cache_size;
     cache_hits := 0; cache_misses := 0 |}.

(** [_add_to_cache] on the dictionary. *)
Definition add_to_cache (cache_size : Z) (cache : list ((string * string) * list string))
    (cache_key : string * string) (path : list string)
    : Outcome (list ((string * string) * list string)) :=
  if (cache_size <=? Z.of_nat (length cache))%Z then
    match cache with
    | [] => Throw StopIteration
    | _ :: rest => Return (alist_set cache_key path rest)
    end
  else Return (alist_set cache_key path cache).

(** [DynamicRouter.update_traffic_weight]: the key is
    [tuple(sorted([node1_id, node2_id]))]. *)
Definition edge_key (node1_id node2_id : string) : string * string :=
  if String.ltb node2_id node1_id then (node2_id, node1_id) else (node1_id, node2_id).

Definition update_traffic_weight (traffic_weights : list ((string * string) * Q))
    (node1_id node2_id : string) (congestion_factor : Q) : list ((string * string) * Q) :=
  alist_set (edge_key node1_id node2_id) congestion_factor traffic_weights.

(** One round of the loop of [_create_weighted_network].  The temporary
    network's [nodes] is a shallow copy: it holds the [Node] objects of
    the router's network, so the assignments to [neighbors] are made on
    the nodes both networks share. *)
Definition adjust_weight (nodes : gmap string Node) (entry : (string * string) * Q)
    : gmap string Node :=
  let '((node1_id, node2_id), congestion) := entry in
  match nodes !! node1_id, nodes !! node2_id with
  | Some n1, Some _ =>
      let base_weight := default 1%Q (neighbors n1 !! node2_id) in
      let adjusted_weight := (base_weight * congestion)%Q in
      let ns1 := alter (fun n => add_neighbor n node2_id adjusted_weight) node1_id nodes in
      alter (fun n => add_neighbor n node1_id adjusted_weight) node2_id ns1
  | _, _ => nodes
  end.

(** [_create_weighted_network]: the router's network afterwards and the
    temporary network returned. *)
Definition create_weighted_network (network : RoadNetwork)
    (traffic_weights : list ((string * string) * Q)) : RoadNetwork * RoadNetwork :=
  let shared := foldl adjust_weight (nodes network) traffic_weights in
  ({| nodes := shared; graph := graph network; grid_size := grid_size network;
      temporary_blockages := temporary_blockages network |},
   {| nodes := shared; graph := graph network; grid_size := 100;
      temporary_blockages := None |}).

Section Routers.

Variable fsqrt : Q -> Q.

(** [get_nearest_node]; [values] is [self.nodes.values()] in the order of
    the dictionary, and [None] as the distance so far is [float('inf')]. *)
Definition nearest_step (position : Pos) (best : option (Q * Node)) (node : Node)
    : option (Q * Node) :=
  let distance := euclidean_distance fsqrt position (Routing.position node) in
  match best with
  | None => Some (distance, node)
  | Some (min_distance, _) =>
      if Qltb distance min_distance then Some (distance, node) else best
  end.

Definition get_nearest_node (values : list Node) (position : Pos) : option Node :=
  snd <$> foldl (nearest_step position) None values.

(** [get_node_at_position] *)
Definition get_node_at_position (values : list Node) (position : Pos) (tolerance : Q)
    : option Node :=
  List.find (fun node =>
               Qltb (euclidean_distance fsqrt position (Routing.position node)) tolerance)
            values.

(** The body of the [for] loop of [_a_star] for one neighbour. *)
Definition relax_neighbor (network : RoadNetwork) (end_id current_id : string)
    (st : AStarState) (neighbor : string * Q) : Result AStarState :=
  let '(neighbor_id, edge_weight) := neighbor in
  if bool_decide (neighbor_id ∈ closed_set st) then Ok st
  else
    match g_score st !! current_id with
    | None => Raise KeyError
    | Some g_current =>
        let tentative_g := (g_current + edge_weight)%Q in
        let better :=
          match g_score st !! neighbor_id with
          | None => true
          | Some g => Qltb tentative_g g
          end in
        if better then
          h ← heuristic fsqrt network end_id neighbor_id;
          let f := (tentative_g + h)%Q in
          Ok {| open_set :=
                  if existsb (fun item => bool_decide (snd item = neighbor_id)) (open_set st)
                  then open_set st
                  else heappush (open_set st) (f, neighbor_id);
                came_from := <[neighbor_id := current_id]> (came_from st);
                g_score := <[neighbor_id := tentative_g]> (g_score st);
                f_score := <[neighbor_id := f]> (f_score st);
                closed_set := closed_set st |}
        else Ok st
    end.

Fixpoint relax_all (network : RoadNetwork) (end_id current_id : string)
    (st : AStarState) (neighbors : list (string * Q)) : Result AStarState :=
  match neighbors with
  | [] => Ok st
  | neighbor :: rest =>
      st' ← relax_neighbor network end_id current_id st neighbor;
      relax_all network end_id current_id st' rest
  end.

(** The [while] loop of [_a_star]; [None] tells that [fuel] was used up.
    The neighbours of a node are visited in the order of the map; the
    loop body treats distinct neighbours independently of each other, and
    [heappop] does not depend on the order of the pushes.  The chain of
    predecessors that [_reconstruct_path] follows runs through evaluated
    nodes, which bounds its loop. *)
Fixpoint a_star_loop (fuel : nat) (network : RoadNetwork) (end_id : string)
    (st : AStarState) : option (Result (option (list string))) :=
  match fuel with
  | O => None
  | S fuel' =>
      match heappop (open_set st) with
      | None => Some (Ok None)
      | Some ((_, current_id), rest) =>
          if bool_decide (current_id = end_id)
          then
            match reconstruct_path (S (size (closed_set st))) (came_from st) current_id with
            | Some path => Some (Ok (Some path))
            | None => None
            end
          else
            let st1 :=
              {| open_set := rest; came_from := came_from st; g_score := g_score st;
                 f_score := f_score st; closed_set := {[ current_id ]} ∪ closed_set st |} in
            match nodes network !! current_id with
            | None => Some (Raise KeyError)
            | Some current_node =>
                match relax_all network end_id current_id st1
                        (map_to_list (neighbors current_node)) with
                | Ok st2 => a_star_loop fuel' network end_id st2
                | Raise e => Some (Raise e)
                end
            end
      end
  end.

(** [_a_star] *)
Definition a_star (fuel : nat) (network : RoadNetwork) (start_id end_id : string)
    : option (Result (option (list string))) :=
  match heuristic fsqrt network end_id start_id with
  | Raise e => Some (Raise e)
  | Ok h =>
      a_star_loop fuel network end_id
        {| open_set := heappush [] (0%Q, start_id);
           came_from := ∅;
           g_score := {[ start_id := 0%Q ]};
           f_score := {[ start_id := h ]};
           closed_set := ∅ |}
  end.

(** [path[1:-1]] *)
Definition inner (path : list string) : list string :=
  match path with
  | [] => []
  | _ :: rest => removelast rest
  end.

(** The waypoints of a path of node identifiers:
    [self.network.nodes[node_id].position] raises [KeyError] on an
    identifier absent from the network. *)
Fixpoint positions_of (network : RoadNetwork) (ids : list string) : Result (list Pos) :=
  match ids with
  | [] => Ok []
  | node_id :: rest =>
      match nodes network !! node_id with
      | None => Raise KeyError
      | Some node => ps ← positions_of network rest; Ok (Routing.position node :: ps)
      end
  end.

(** [AStarRouter.find_path]; the outer [None] tells that the search ran
    out of [fuel]. *)
Definition find_path (fuel : nat) (values : list Node) (network : RoadNetwork)
    (self : AStarRouter) (start_pos end_pos : Pos)
    : option (Outcome (AStarRouter * option (list Pos))) :=
  match get_nearest_node values start_pos, get_nearest_node values end_pos with
  | Some start_node, Some end_node =>
      if bool_decide (id start_node = id end_node)
      then Some (Return (self, Some [start_pos; end_pos]))
      else
        let cache_key := (id start_node, id end_node) in
        let searched :=
          match alist_get (route_cache self) cache_key with
          | Some path =>
              Some (Return
                      ({| paths_calculated := paths_calculated self;
                          route_cache := route_cache self;
                          cache_size := cache_size self;
                          cache_hits := (cache_hits self + 1)%Z;
                          cache_misses := cache_misses self |}, path))
          | None =>
              match a_star fuel network (id start_node) (id end_node) with
              | None => None
              | Some (Raise e) => Some (Throw (PyError e))
              | Some (Ok found) =>
                  let path := default [] found in
                  let cache :=
                    match path with
                    | [] => Return (route_cache self)
                    | _ :: _ =>
                        add_to_cache (cache_size self) (route_cache self) cache_key path
                    end in
                  match cache with
                  | Throw e => Some (Throw e)
                  | Return cache' =>
                      Some (Return
                              ({| paths_calculated := paths_calculated self;
                                  route_cache := cache';
                                  cache_size := cache_size self;
                                  cache_hits := cache_hits self;
                                  cache_misses := (cache_misses self + 1)%Z |}, path))
                  end
              end
          end in
        match searched with
        | None => None
        | Some (Throw e) => Some (Throw e)
        | Some (Return (self', [])) => Some (Return (self', None))
        | Some (Return (self', path)) =>
            match positions_of network (inner path) with
            | Raise e => Some (Throw (PyError e))
            | Ok middle =>
                Some (Return
                        ({| paths_calculated := (paths_calculated self' + 1)%Z;
                            route_cache := route_cache self';
                            cache_size := cache_size self';
                            cache_hits := cache_hits self';
                            cache_misses := cache_misses self' |},
                         Some ([start_pos] ++ middle ++ [end_pos])))
            end
        end
  | _, _ => Some (Return (self, None))
  end.

End Routers.

(** *** Vocabulary of the properties *)

(** The weight the node [a] stores for its neighbour [b]. *)
Definition weight_of (network : RoadNetwork) (a b : string) : option Q :=
  n ← nodes network !! a; neighbors n !! b.

(** The node [a] lists [b] among its neighbours. *)
Definition linked (network : RoadNetwork) (a b : string) : Prop :=
  is_Some (weight_of network a b).

(** [traces ... n path]: following the predecessors from [n] leads
    through evaluated nodes to [start_id], along [path] read backwards,
    each step being a road of the network. *)
Inductive traces (network : RoadNetwork) (came_from : gmap string string)
    (closed : gset string) (start_id : string) : string -> list string -> Prop :=
| trace_start :
    came_from !! start_id = None ->
    traces network came_from closed start_id start_id [start_id]
| trace_step (n previous : string) (path : list string) :
    came_from !! n = Some previous ->
    previous ∈ closed ->
    linked network previous n ->
    traces network came_from closed start_id previous path ->
    traces network came_from closed start_id n (path ++ [n]).

(** A path of the network from [start_id] to [end_id]. *)
Definition is_route (network : RoadNetwork) (start_id end_id : string)
    (path : list string) : Prop :=
  head path = Some start_id /\
  last path = Some end_id /\
  forall (i : nat) (a b : string),
    path !! i = Some a -> path !! S i = Some b -> linked network a b.

(** What the loop of [_a_star] keeps true of its variables: the open
    set names each node once, its nodes are nodes of the network that are
    not evaluated, and the predecessors of every open or evaluated node
    lead back to [start_id] through evaluated nodes. *)
Definition search_inv (network : RoadNetwork) (start_id : string) (st : AStarState) : Prop :=
  NoDup (open_set st).*2 /\
  (forall m, m ∈ (open_set st).*2 ->
     (m ∉ closed_set st) /\ is_Some (nodes network !! m) /\
     exists p, traces network (came_from st) (closed_set st) start_id m p /\
               (length p <= S (size (closed_set st)))%nat) /\
  (forall c, c ∈ closed_set st ->
     is_Some (nodes network !! c) /\
     exists p, traces network (came_from st) (closed_set st) start_id c p /\
               (length p <= size (closed_set st))%nat) /\
  (start_id ∈ closed_set st \/ (closed_set st = ∅ /\ came_from st = ∅)).

(** The evaluated and the open nodes close the search off: the start is
    among them, the goal is not evaluated, and every neighbour of a node
    of [evaluated] is among them. *)
Definition frontier_inv (network : RoadNetwork) (start_id end_id : string)
    (st : AStarState) (evaluated : gset string) : Prop :=
  (start_id ∈ closed_set st \/ start_id ∈ (open_set st).*2) /\
  (end_id ∉ closed_set st) /\
  (forall n, is_Some (g_score st !! n) -> n ∈ closed_set st \/ n ∈ (open_set st).*2) /\
  (forall c n, c ∈ evaluated -> linked network c n ->
               n ∈ closed_set st \/ n ∈ (open_set st).*2).

End Routing.

(** ** agents/intersection_agent.py *)

Module Intersection.

Inductive TrafficLightState : Type := RED | YELLOW | GREEN.

Inductive Direction : Type := NORTH | SOUTH | EAST | WEST.

(** [Direction.X.value] *)
Definition dir_value (d : Direction) : string :=
  match d with
  | NORTH => "north" | SOUTH => "south" | EAST => "east" | WEST => "west"
  end.

#[global] Instance TrafficLightState_eq_dec : EqDecision TrafficLightState.
Proof. solve_decision. Defined.

#[global] Instance Direction_eq_dec : EqDecision Direction.
Proof. solve_decision. Defined.

#[global] Instance Direction_countable : Countable Direction.
Proof.
  refine (inj_countable'
    (fun d => match d with NORTH => 0 | SOUTH => 1 | EAST => 2 | WEST => 3 end)%nat
    (fun n => match n with 0 => NORTH | 1 => SOUTH | 2 => EAST | _ => WEST end)%nat
    _).
  by intros [].
Defined.

(** The two phase groups, as the literals [(NORTH, SOUTH)] and
    [(EAST, WEST)] of the source. *)
Definition ns_pair : list Direction := [NORTH; SOUTH].
Definition ew_pair : list Direction := [EAST; WEST].

Definition in_ns (d : Direction) : bool := bool_decide (d ∈ ns_pair).
Definition in_ew (d : Direction) : bool := bool_decide (d ∈ ew_pair).

(** The payload of a [neighbor_state] message as
    [_broadcast_state_to_neighbors] and [_handle_green_wave_proposal]
    build it; [neighbor_states] keeps one per sender, in arrival order. *)
Record NeighborState : Type := mkNeighborState {
  n_phase : option string;
  phase_timer_remaining : Q;
  n_queue_lengths : list (string * Z);
  outflow_estimate : Q;
  n_position : option (Q * Q);
  n_timestamp : Q
}.

(** One row of the Q-table: [{'change': _, 'keep': _}]. *)
Record QRow : Type := mkQRow { q_change : Q; q_keep : Q }.

Inductive Action : Type := change | keep.

Record IntersectionAgent : Type := mkIA {
  unique_id : string;
  (** [self.model.time_step] and [self.model.use_q_learning]; [None] when
      the model has no such attribute *)
  model_time_step : option Q;
  model_use_q_learning : option bool;
  current_time : Q;
  position : Q * Q;
  directions : list Direction;
  min_green_time : Q;
  max_green_time : Q;
  default_green_time : Q;
  yellow_time : Q;
  congestion_threshold : Z;
  traffic_lights : gmap Direction TrafficLightState;
  light_timers : gmap Direction Q;
  green_durations : gmap Direction Q;
  queue_lengths : gmap Direction Z;
  neighbor_states : list (string * NeighborState);
  green_wave_offset : Q;
  green_wave_phase : option string;
  green_wave_active : bool;
  green_wave_timer : Q;
  q_table : gmap string QRow;
  learning_rate : Q;
  discount_factor : Q;
  epsilon : Q;
  epsilon_decay : Q;
  epsilon_min : Q;
  previous_state : option string;
  previous_action : option Action;
  previous_total_waiting : Q;
  total_vehicles_processed : Z;
  phase_changes : Z;
  coordination_messages_sent : Z
}.

(** Attribute assignments: the agent with the attributes the methods
    below write replaced, every other attribute kept. *)
Definition rewrite_state (s : IntersectionAgent)
    (lights : gmap Direction TrafficLightState) (timers durations : gmap Direction Q)
    (queues : gmap Direction Z)
    (wave_offset : Q) (wave_phase : option string) (wave_active : bool) (wave_timer : Q)
    (table : gmap string QRow) (eps : Q)
    (prev_state : option string) (prev_action : option Action) (prev_waiting : Q)
    (changes : Z) : IntersectionAgent :=
  {| unique_id := unique_id s;
     model_time_step := model_time_step s;
     model_use_q_learning := model_use_q_learning s;
     current_time := current_time s;
     position := position s;
     directions := directions s;
     min_green_time := min_green_time s;
     max_green_time := max_green_time s;
     default_green_time := default_green_time s;
     yellow_time := yellow_time s;
     congestion_threshold := congestion_threshold s;
     traffic_lights := lights;
     light_timers := timers;
     green_durations := durations;
     queue_lengths := queues;
     neighbor_states := neighbor_states s;
     green_wave_offset := wave_offset;
     green_wave_phase := wave_phase;
     green_wave_active := wave_active;
     green_wave_timer := wave_timer;
     q_table := table;
     learning_rate := learning_rate s;
     discount_factor := discount_factor s;
     epsilon := eps;
     epsilon_decay := epsilon_decay s;
     epsilon_min := epsilon_min s;
     previous_state := prev_state;
     previous_action := prev_action;
     previous_total_waiting := prev_waiting;
     total_vehicles_processed := total_vehicles_processed s;
     phase_changes := changes;
     coordination_messages_sent := coordination_messages_sent s |}.

Definition set_traffic_lights (s : IntersectionAgent) (v : gmap Direction TrafficLightState) :=
  rewrite_state s v (light_timers s) (green_durations s) (queue_lengths s)
    (green_wave_offset s) (green_wave_phase s) (green_wave_active s) (green_wave_timer s)
    (q_table s) (epsilon s) (previous_state s) (previous_action s)
    (previous_total_waiting s) (phase_changes s).

Definition set_light_timers (s : IntersectionAgent) (v : gmap Direction Q) :=
  rewrite_state s (traffic_lights s) v (green_durations s) (queue_lengths s)
    (green_wave_offset s) (green_wave_phase s) (green_wave_active s) (green_wave_timer s)
    (q_table s) (epsilon s) (previous_state s) (previous_action s)
    (previous_total_waiting s) (phase_changes s).

Definition set_green_durations (s : IntersectionAgent) (v : gmap Direction Q) :=
  rewrite_state s (traffic_lights s) (light_timers s) v (queue_lengths s)
    (green_wave_offset s) (green_wave_phase s) (green_wave_active s) (green_wave_timer s)
    (q_table s) (epsilon s) (previous_state s) (previous_action s)
    (previous_total_waiting s) (phase_changes s).

Definition set_queue_lengths (s : IntersectionAgent) (v : gmap Direction Z) :=
  rewrite_state s (traffic_lights s) (light_timers s) (green_durations s) v
    (green_wave_offset s) (green_wave_phase s) (green_wave_active s) (green_wave_timer s)
    (q_table s) (epsilon s) (previous_state s) (previous_action s)
    (previous_total_waiting s) (phase_changes s).

Definition set_green_wave (s : IntersectionAgent)
    (offset : Q) (phase : option string) (active : bool) (timer : Q) :=
  rewrite_state s (traffic_lights s) (light_timers s) (green_durations s) (queue_lengths s)
    offset phase active timer
    (q_table s) (epsilon s) (previous_state s) (previous_action s)
    (previous_total_waiting s) (phase_changes s).

Definition set_q_table (s : IntersectionAgent) (v : gmap string QRow) :=
  rewrite_state s (traffic_lights s) (light_timers s) (green_durations s) (queue_lengths s)
    (green_wave_offset s) (green_wave_phase s) (green_wave_active s) (green_wave_timer s)
    v (epsilon s) (previous_state s) (previous_action s)
    (previous_total_waiting s) (phase_changes s).

Definition set_learning (s : IntersectionAgent) (eps : Q)
    (prev_state : option string) (prev_action : option Action) (prev_waiting : Q) :=
  rewrite_state s (traffic_lights s) (light_timers s) (green_durations s) (queue_lengths s)
    (green_wave_offset s) (green_wave_phase s) (green_wave_active s) (green_wave_timer s)
    (q_table s) eps prev_state prev_action prev_waiting (phase_changes s).

Definition set_phase_changes (s : IntersectionAgent) (v : Z) :=
  rewrite_state s (traffic_lights s) (light_timers s) (green_durations s) (queue_lengths s)
    (green_wave_offset s) (green_wave_phase s) (green_wave_active s) (green_wave_timer s)
    (q_table s) (epsilon s) (previous_state s) (previous_action s)
    (previous_total_waiting s) v.

(** [for d in ds: m[d] = f(d)] *)
Definition assign_all {A : Type} (ds : list Direction) (f : Direction -> A)
    (m : gmap Direction A) : gmap Direction A :=
  foldl (fun acc d => <[d := f d]> acc) m ds.

(** [_initialize_traffic_lights], one dictionary at a time. *)
Definition initial_lights (directions : list Direction) : gmap Direction TrafficLightState :=
  assign_all directions (fun d => if in_ns d then GREEN else RED) ∅.

Definition default_directions : list Direction := [NORTH; SOUTH; EAST; WEST].

(** [__init__]; [directions = None] selects the four directions.  The
    model's two attributes are read later through [self.model]. *)
Definition IntersectionAgent_init (unique_id : string)
    (model_time_step : option Q) (model_use_q_learning : option bool)
    (position : Q * Q) (directions : option (list Direction)) : IntersectionAgent :=
  let directions := default default_directions directions in
  {| unique_id := unique_id;
     model_time_step := model_time_step;
     model_use_q_learning := model_use_q_learning;
     current_time := 0;
     position := position;
     directions := directions;
     min_green_time := 15;
     max_green_time := 90;
     default_green_time := 30;
     yellow_time := 3;
     congestion_threshold := 10;
     traffic_lights := initial_lights directions;
     light_timers := assign_all directions (fun _ => 0%Q) ∅;
     green_durations := assign_all directions (fun _ => 30%Q) ∅;
     queue_lengths := assign_all directions (fun _ => 0%Z) ∅;
     neighbor_states := [];
     green_wave_offset := 0;
     green_wave_phase := None;
     green_wave_active := false;
     green_wave_timer := 0;
     q_table := ∅;
     learning_rate := 1 # 10;
     discount_factor := 9 # 10;
     epsilon := 1 # 10;
     epsilon_decay := 995 # 1000;
     epsilon_min := 1 # 100;
     previous_state := None;
     previous_action := None;
     previous_total_waiting := 0;
     total_vehicles_processed := 0;
     phase_changes := 0;
     coordination_messages_sent := 0 |}.

(** Reads of the three light dictionaries.  [__init__] gives them the keys
    of [directions] and no method removes a key, so the [KeyError] of a
    subscript on a direction of [self.directions] cannot occur; the reads
    below take the default in that case. *)
Definition is_green (s : IntersectionAgent) (d : Direction) : bool :=
  bool_decide (traffic_lights s !! d = Some GREEN).

Definition timer_of (s : IntersectionAgent) (d : Direction) : Q :=
  default 0%Q (light_timers s !! d).

Definition duration_of (s : IntersectionAgent) (d : Direction) : Q :=
  default 0%Q (green_durations s !! d).

(** [self.model.time_step if hasattr(self.model, 'time_step') else 1.0] *)
Definition time_step (s : IntersectionAgent) : Q := default 1%Q (model_time_step s).

(** [_get_current_phase] *)
Definition get_current_phase (s : IntersectionAgent) : string :=
  if is_green s NORTH then "NS" else "EW".

(** The loop shared by both decisions, [_schedule_green_wave]: the largest
    timer among the green directions, starting from [0.0]. *)
Definition current_green_timer (s : IntersectionAgent) : Q :=
  foldl (fun acc d => if is_green s d then Qmax acc (timer_of s d) else acc)
        0%Q (directions s).

(** [_get_phase_timer] *)
Definition get_phase_timer (s : IntersectionAgent) : Q :=
  match List.find (is_green s) (directions s) with
  | Some d => Qmax (duration_of s d - timer_of s d)%Q 0
  | None => 0%Q
  end.

(** [_get_approach_direction] *)
Definition Qabs_py (x : Q) : Q := if Qltb x 0 then (- x)%Q else x.

Definition get_approach_direction (s : IntersectionAgent) (vehicle_pos : Q * Q)
    : Direction :=
  let dx := (fst vehicle_pos - fst (position s))%Q in
  let dy := (snd vehicle_pos - snd (position s))%Q in
  if Qltb (Qabs_py dy) (Qabs_py dx)
  then (if Qltb 0 dx then EAST else WEST)
  else (if Qltb 0 dy then NORTH else SOUTH).

(** The timer update at the head of [deliberate]. *)
Definition advance_timers (s : IntersectionAgent) : IntersectionAgent :=
  set_light_timers s
    (foldl (fun acc d => <[d := (default 0%Q (acc !! d) + time_step s)%Q]> acc)
           (light_timers s) (directions s)).

(** [_estimate_downstream_queue] *)
Definition sum_Z (l : list Z) : Z := foldl Z.add 0%Z l.

Definition estimate_downstream_queue (s : IntersectionAgent) (direction : Direction) : Q :=
  match List.find (fun st => negb (bool_decide (n_queue_lengths (snd st) = [])))
                  (neighbor_states s) with
  | Some (_, st) =>
      let neighbor_queues := n_queue_lengths st in
      let avg_neighbor_queue :=
        fl (inject_Z (sum_Z (neighbor_queues.*2))
            / inject_Z (Z.of_nat (length neighbor_queues)))%Q in
      Qmin avg_neighbor_queue 10
  | None => if is_green s direction then 2%Q else 5%Q
  end.

(** The two direction lists [ns_directions] and [ew_directions]. *)
Definition ns_directions (s : IntersectionAgent) : list Direction :=
  List.filter in_ns (directions s).
Definition ew_directions (s : IntersectionAgent) : list Direction :=
  List.filter in_ew (directions s).

Definition phase_directions (s : IntersectionAgent) (phase_name : string) : list Direction :=
  if bool_decide (phase_name = "NS") then ns_directions s else ew_directions s.

(** [self.queue_lengths.get(direction, 0)] *)
Definition queue_in (s : IntersectionAgent) (d : Direction) : Z :=
  default 0%Z (queue_lengths s !! d).

(** The inner loop of [_max_pressure_decision]: the pressure of a phase.
    [queue_in] is an [int] and [queue_out] a [float]: the subtraction
    converts the first and rounds, and so does each addition to
    [total_pressure]. *)
Definition phase_pressure (s : IntersectionAgent) (phase_name : string) : Q :=
  foldl (fun total d =>
           fl (total + fl (fl (inject_Z (queue_in s d)) - estimate_downstream_queue s d)))
        0%Q (phase_directions s phase_name).

(** [_max_pressure_decision]; [IndexError] is the subscript [[0]] on an
    empty direction list. *)
Definition max_pressure_decision (s : IntersectionAgent) : Result bool :=
  let current_green_timer := current_green_timer s in
  if Qltb current_green_timer (min_green_time s) then Ok false
  else
    let current_phase := get_current_phase s in
    (* max over the keys 'NS', 'EW' in that order: the first maximum *)
    let max_pressure_phase :=
      if Qltb (phase_pressure s "NS") (phase_pressure s "EW") then "EW" else "NS" in
    let max_pressure_value := phase_pressure s max_pressure_phase in
    let current_pressure_value := phase_pressure s current_phase in
    let pressure_threshold := 5%Q in
    if negb (bool_decide (max_pressure_phase = current_phase))
       && Qltb pressure_threshold (fl (max_pressure_value - current_pressure_value))
    then Ok true
    else if Qltb (max_green_time s) current_green_timer then Ok true
    else
      match head (phase_directions s current_phase) with
      | None => Raise IndexError
      | Some first =>
          let planned := default (default_green_time s) (green_durations s !! first) in
          if Qltb planned current_green_timer && Qltb current_pressure_value 2
          then Ok true
          else Ok false
      end.

(** [sum(self.queue_lengths.values())] and [max(...)] of the same. *)
Definition total_queue (s : IntersectionAgent) : Z :=
  map_fold (fun _ v acc => (acc + v)%Z) 0%Z (queue_lengths s).

Definition max_queue (s : IntersectionAgent) : Z :=
  default 0%Z
    (map_fold (fun _ v acc => Some (match acc with
                                    | None => v
                                    | Some a => Z.max a v
                                    end))
              None (queue_lengths s)).

(** [_get_state_representation] *)
Definition get_state_representation (s : IntersectionAgent) : string :=
  let ns_queue := (queue_in s NORTH + queue_in s SOUTH)%Z in
  let ew_queue := (queue_in s EAST + queue_in s WEST)%Z in
  let current_phase := if is_green s NORTH then "NS" else "EW" in
  let ns_discrete := Z.min (ns_queue / 3) 5 in
  let ew_discrete := Z.min (ew_queue / 3) 5 in
  pretty ns_discrete +:+ "_" +:+ pretty ew_discrete +:+ "_" +:+ current_phase.

(** [_compute_reward] *)
Definition compute_reward (s : IntersectionAgent) : Q :=
  let current_total_waiting := inject_Z (total_queue s) in
  let waiting_diff := (previous_total_waiting s - current_total_waiting)%Q in
  let congestion_penalty :=
    (- (1 # 2) * inject_Z (Z.max 0 (max_queue s - congestion_threshold s)))%Q in
  let throughput_bonus := ((1 # 10) * inject_Z (total_vehicles_processed s))%Q in
  (waiting_diff + congestion_penalty + throughput_bonus)%Q.

Definition zero_row : QRow := {| q_change := 0; q_keep := 0 |}.

Definition row_get (r : QRow) (a : Action) : Q :=
  match a with change => q_change r | keep => q_keep r end.

Definition row_set (r : QRow) (a : Action) (v : Q) : QRow :=
  match a with
  | change => {| q_change := v; q_keep := q_keep r |}
  | keep => {| q_change := q_change r; q_keep := v |}
  end.

(** [if state not in self.q_table: self.q_table[state] = {...}] *)
Definition ensure_row (t : gmap string QRow) (state : string) : gmap string QRow :=
  match t !! state with
  | Some _ => t
  | None => <[state := zero_row]> t
  end.

(** [_update_q_table].  [state] is a previous state, entered in the table
    when it was the current one, so [self.q_table[state]] finds its row. *)
Definition update_q_table (s : IntersectionAgent) (state : string) (action : Action)
    (reward : Q) (next_state : string) : IntersectionAgent :=
  let t := ensure_row (q_table s) next_state in
  let row := default zero_row (t !! state) in
  let current_q := row_get row action in
  let next_row := default zero_row (t !! next_state) in
  let max_next_q := Qmax (q_change next_row) (q_keep next_row) in
  let new_q :=
    (current_q + learning_rate s * (reward + discount_factor s * max_next_q - current_q))%Q in
  set_q_table s (<[state := row_set row action new_q]> t).

(** [_q_learning_decision]; [rnd1] and [rnd2] are the values
    [np.random.random()] returns, the second read only when exploring. *)
Definition q_learning_decision (s : IntersectionAgent) (rnd1 rnd2 : Q)
    : IntersectionAgent * bool :=
  if Qltb (current_green_timer s) (min_green_time s) then (s, false)
  else
    let state := get_state_representation s in
    let s1 := set_q_table s (ensure_row (q_table s) state) in
    let s2 :=
      match previous_state s1, previous_action s1 with
      | Some ps, Some pa => update_q_table s1 ps pa (compute_reward s1) state
      | _, _ => s1
      end in
    let action :=
      if Qltb rnd1 (epsilon s2)
      then (if Qltb rnd2 (1 # 2) then change else keep)
      else
        let q_values := default zero_row (q_table s2 !! state) in
        if Qltb (q_keep q_values) (q_change q_values) then change else keep in
    let s3 :=
      set_learning s2 (Qmax (epsilon s2 * epsilon_decay s2)%Q (epsilon_min s2))
        (Some state) (Some action) (inject_Z (total_queue s2)) in
    (s3, match action with change => true | keep => false end).

(** The policy switch at the end of [_should_change_phase]. *)
Definition policy_decision (s : IntersectionAgent) (rnd1 rnd2 : Q)
    : Result (IntersectionAgent * bool) :=
  match model_use_q_learning s with
  | Some true => Ok (q_learning_decision s rnd1 rnd2)
  | _ => b ← max_pressure_decision s; Ok (s, b)
  end.

(** [_should_change_phase] *)
Definition should_change_phase (s : IntersectionAgent) (rnd1 rnd2 : Q)
    : Result (IntersectionAgent * bool) :=
  if green_wave_active s then
    let timer := (green_wave_timer s - time_step s)%Q in
    let s1 := set_green_wave s (green_wave_offset s) (green_wave_phase s) true timer in
    if Qltb 0 timer then Ok (s1, false)
    else policy_decision
           (set_green_wave s1 (green_wave_offset s1) (green_wave_phase s1) false timer)
           rnd1 rnd2
  else policy_decision s rnd1 rnd2.

(** Truthiness of [self._green_wave_phase]. *)
Definition phase_set (p : option string) : bool :=
  match p with
  | Some name => negb (bool_decide (name = ""))
  | None => false
  end.

(** [_change_traffic_light_phase] *)
Definition change_traffic_light_phase (s : IntersectionAgent) : IntersectionAgent * bool :=
  let current_green_directions := List.filter (is_green s) (directions s) in
  match current_green_directions with
  | [] => (s, false)
  | _ :: _ =>
      let current_phase := get_current_phase s in
      let flipped := if bool_decide (current_phase = "NS") then "EW" else "NS" in
      let use_wave := phase_set (green_wave_phase s) && negb (green_wave_active s) in
      let next_phase := if use_wave then default flipped (green_wave_phase s) else flipped in
      let s1 := if use_wave
                then set_green_wave s 0 None (green_wave_active s) (green_wave_timer s)
                else s in
      let ns_group := ns_directions s in
      let ew_group := ew_directions s in
      let new_green_group := if bool_decide (next_phase = "NS") then ns_group else ew_group in
      let new_red_group := if bool_decide (next_phase = "NS") then ew_group else ns_group in
      let neighbor_bonus :=
        match List.find (fun st => bool_decide (n_phase (snd st) = Some next_phase))
                        (neighbor_states s) with
        | Some (_, st) => Qmin (outflow_estimate st * 2)%Q 20
        | None => 0%Q
        end in
      let lights :=
        assign_all new_green_group (fun _ => GREEN)
          (assign_all new_red_group (fun _ => RED) (traffic_lights s)) in
      let timers :=
        assign_all new_green_group (fun _ => 0%Q)
          (assign_all new_red_group (fun _ => 0%Q) (light_timers s)) in
      let durations :=
        assign_all new_green_group
          (fun d => Qmin (min_green_time s + inject_Z (queue_in s d) * 2 + neighbor_bonus)%Q
                         (max_green_time s))
          (green_durations s) in
      let s2 := set_green_durations (set_light_timers (set_traffic_lights s1 lights) timers)
                  durations in
      (set_phase_changes s2 (phase_changes s2 + 1)%Z, true)
  end.

(** One of the two loops of [_force_green]: every direction of the group
    that is a key of [traffic_lights] gets the colour and a zero timer. *)
Definition force_group (colour : TrafficLightState) (group : list Direction)
    (lt : gmap Direction TrafficLightState * gmap Direction Q)
    : gmap Direction TrafficLightState * gmap Direction Q :=
  foldl (fun acc d =>
           if bool_decide (is_Some (fst acc !! d))
           then (<[d := colour]> (fst acc), <[d := 0%Q]> (snd acc))
           else acc)
        lt group.

(** [_force_green] *)
Definition force_green (s : IntersectionAgent) (target_direction : Direction)
    : IntersectionAgent :=
  if existsb (fun d => is_green s d && Qltb (timer_of s d) (min_green_time s))
             (directions s)
  then s
  else if is_green s target_direction then s
  else
    let green_group := if in_ns target_direction then ns_pair else ew_pair in
    let red_group := if in_ns target_direction then ew_pair else ns_pair in
    let lt := force_group RED red_group
                (force_group GREEN green_group (traffic_lights s, light_timers s)) in
    let s1 := set_light_timers (set_traffic_lights s (fst lt)) (snd lt) in
    set_phase_changes s1 (phase_changes s1 + 1)%Z.

(** [_schedule_green_wave] *)
Definition schedule_green_wave (s : IntersectionAgent) (target_phase : string)
    (offset expected_flow : Q) : IntersectionAgent :=
  let current_phase := get_current_phase s in
  if bool_decide (current_phase = target_phase) then
    let extra_time := Qmin (expected_flow * 2)%Q (max_green_time s) in
    set_green_durations s
      (foldl (fun acc d =>
                if is_green s d
                then <[d := Qmin (default 0%Q (acc !! d) + extra_time)%Q (max_green_time s)]> acc
                else acc)
             (green_durations s) (directions s))
  else if Qleb offset (min_green_time s) then
    if Qleb (min_green_time s) (current_green_timer s) then
      let target_dir := if bool_decide (target_phase = "NS") then NORTH else EAST in
      let s1 := force_green s target_dir in
      set_green_wave s1 (green_wave_offset s1) (Some target_phase) true
        (Qmin (expected_flow * 2)%Q (max_green_time s1))
    else s
  else set_green_wave s offset (Some target_phase) (green_wave_active s) (green_wave_timer s).

(** [_execute_cnp_task] on the content of an [accept-proposal]. *)
Definition execute_cnp_task (s : IntersectionAgent) (content : PyDict) : IntersectionAgent :=
  let task := dict_get content "task" (PStr "priority_delegation") in
  let direction_str := dict_get content "priority_direction" PNone in
  if py_eq_str task "priority_delegation" && truthy direction_str then
    match List.find (fun d => py_eq_str direction_str (dir_value d)) (directions s) with
    | Some d => force_green s d
    | None => s
    end
  else s.

(** [tuple(vehicle_position)] read at its subscripts [0] and [1] and
    subtracted from: the pair of numbers, or the exception the subscript
    or the subtraction raises. *)
Definition as_position (v : PyVal) : Result (Q * Q) :=
  match v with
  | PTuple (PNum x :: PNum y :: _) => Ok (x, y)
  | PTuple [PNum _] => Raise IndexError
  | PTuple [] => Raise IndexError
  | _ => Raise TypeError
  end.

(** [_handle_emergency_priority]: the new agent and the acknowledgement
    to hand to the sender. *)
Definition handle_emergency_priority (t_stamp t_id : Q) (s : IntersectionAgent)
    (message : Fipa.FIPAMessage) : Result (IntersectionAgent * option Fipa.FIPAMessage) :=
  let vehicle_position := dict_get (Fipa.content message) "vehicle_position" PNone in
  if truthy vehicle_position then
    vehicle_pos ← as_position vehicle_position;
    let approach_dir := get_approach_direction s vehicle_pos in
    let s1 := force_green s approach_dir in
    let response :=
      Fipa.FIPAMessage_init t_stamp t_id (unique_id s) (Fipa.sender message) "INFORM"
        ({[ "type" := PStr "emergency_acknowledged";
            "green_direction" := PStr (dir_value approach_dir);
            "intersection" := PStr (unique_id s) ]})
        None None None (Some (Fipa.message_id message)) in
    Ok (s1, Some response)
  else Ok (s, None).

(** The light-related part of one BDI step: [deliberate] advances the
    timers and asks [_should_change_phase]; a [CHANGE_LIGHT_TIMING]
    intention, when emitted, is executed by [_change_traffic_light_phase]. *)
Definition phase_step (s : IntersectionAgent) (rnd1 rnd2 : Q) : Result IntersectionAgent :=
  '(s1, decided) ← should_change_phase (advance_timers s) rnd1 rnd2;
  Ok (if decided : bool then fst (change_traffic_light_phase s1) else s1).

(** [_estimate_outflow] *)
Definition estimate_outflow (s : IntersectionAgent) : Q :=
  let saturation_flow := 1800%Q in
  let vehicles_per_step := (saturation_flow / 3600 * time_step s)%Q in
  foldl (fun outflow d =>
           if is_green s d
           then (outflow + Qmin (inject_Z (queue_in s d))
                                (vehicles_per_step * get_phase_timer s))%Q
           else outflow)
        0%Q (directions s).

Definition set_coordination_messages_sent (s : IntersectionAgent) (v : Z)
    : IntersectionAgent :=
  {| unique_id := unique_id s;
     model_time_step := model_time_step s;
     model_use_q_learning := model_use_q_learning s;
     current_time := current_time s;
     position := position s;
     directions := directions s;
     min_green_time := min_green_time s;
     max_green_time := max_green_time s;
     default_green_time := default_green_time s;
     yellow_time := yellow_time s;
     congestion_threshold := congestion_threshold s;
     traffic_lights := traffic_lights s;
     light_timers := light_timers s;
     green_durations := green_durations s;
     queue_lengths := queue_lengths s;
     neighbor_states := neighbor_states s;
     green_wave_offset := green_wave_offset s;
     green_wave_phase := green_wave_phase s;
     green_wave_active := green_wave_active s;
     green_wave_timer := green_wave_timer s;
     q_table := q_table s;
     learning_rate := learning_rate s;
     discount_factor := discount_factor s;
     epsilon := epsilon s;
     epsilon_decay := epsilon_decay s;
     epsilon_min := epsilon_min s;
     previous_state := previous_state s;
     previous_action := previous_action s;
     previous_total_waiting := previous_total_waiting s;
     total_vehicles_processed := total_vehicles_processed s;
     phase_changes := phase_changes s;
     coordination_messages_sent := v |}.

(** [self.neighbor_states = v] *)
Definition set_neighbor_states (s : IntersectionAgent) (v : list (string * NeighborState))
    : IntersectionAgent :=
  {| unique_id := unique_id s;
     model_time_step := model_time_step s;
     model_use_q_learning := model_use_q_learning s;
     current_time := current_time s;
     position := position s;
     directions := directions s;
     min_green_time := min_green_time s;
     max_green_time := max_green_time s;
     default_green_time := default_green_time s;
     yellow_time := yellow_time s;
     congestion_threshold := congestion_threshold s;
     traffic_lights := traffic_lights s;
     light_timers := light_timers s;
     green_durations := green_durations s;
     queue_lengths := queue_lengths s;
     neighbor_states := v;
     green_wave_offset := green_wave_offset s;
     green_wave_phase := green_wave_phase s;
     green_wave_active := green_wave_active s;
     green_wave_timer := green_wave_timer s;
     q_table := q_table s;
     learning_rate := learning_rate s;
     discount_factor := discount_factor s;
     epsilon := epsilon s;
     epsilon_decay := epsilon_decay s;
     epsilon_min := epsilon_min s;
     previous_state := previous_state s;
     previous_action := previous_action s;
     previous_total_waiting := previous_total_waiting s;
     total_vehicles_processed := total_vehicles_processed s;
     phase_changes := phase_changes s;
     coordination_messages_sent := coordination_messages_sent s |}.

(** [self.current_time = v] *)
Definition set_current_time (s : IntersectionAgent) (v : Q) : IntersectionAgent :=
  {| unique_id := unique_id s;
     model_time_step := model_time_step s;
     model_use_q_learning := model_use_q_learning s;
     current_time := v;
     position := position s;
     directions := directions s;
     min_green_time := min_green_time s;
     max_green_time := max_green_time s;
     default_green_time := default_green_time s;
     yellow_time := yellow_time s;
     congestion_threshold := congestion_threshold s;
     traffic_lights := traffic_lights s;
     light_timers := light_timers s;
     green_durations := green_durations s;
     queue_lengths := queue_lengths s;
     neighbor_states := neighbor_states s;
     green_wave_offset := green_wave_offset s;
     green_wave_phase := green_wave_phase s;
     green_wave_active := green_wave_active s;
     green_wave_timer := green_wave_timer s;
     q_table := q_table s;
     learning_rate := learning_rate s;
     discount_factor := discount_factor s;
     epsilon := epsilon s;
     epsilon_decay := epsilon_decay s;
     epsilon_min := epsilon_min s;
     previous_state := previous_state s;
     previous_action := previous_action s;
     previous_total_waiting := previous_total_waiting s;
     total_vehicles_processed := total_vehicles_processed s;
     phase_changes := phase_changes s;
     coordination_messages_sent := coordination_messages_sent s |}.

(** The availability [_handle_cfp] computes: the quotient of two [int]s
    rounded, and the difference rounded. *)
Definition cfp_availability (s : IntersectionAgent) : Q :=
  let current_load := total_queue s in
  let max_capacity := (congestion_threshold s * Z.of_nat (length (directions s)))%Z in
  fl (1 - fl (inject_Z current_load / inject_Z (Z.max max_capacity 1))).

(** [_handle_cfp]: the agent afterwards and the proposal handed to the
    sender; [sender_found] tells whether [get_agent_by_id] finds the
    sender of the call. *)
Definition handle_cfp (t_stamp t_id : Q) (s : IntersectionAgent)
    (message : Fipa.FIPAMessage) (sender_found : bool)
    : IntersectionAgent * option Fipa.FIPAMessage :=
  let task := dict_get (Fipa.content message) "task" (PStr "priority_delegation") in
  let availability := cfp_availability s in
  (* the literal [0.3] is the binary64 value nearest to 3/10 *)
  if Qltb (fl (3 # 10)) availability then
    let proposal :=
      Fipa.propose_in_cnp t_stamp t_id (unique_id s) (Fipa.sender message)
        {[ "task" := task;
           "availability" := PNum availability;
           "current_load" := PNum (inject_Z (total_queue s));
           "position" := of_pos (position s) ]}
        message in
    if sender_found
    then (set_coordination_messages_sent s (coordination_messages_sent s + 1)%Z,
          Some proposal)
    else (s, None)
  else (s, None).

Section Coordination.

(** [np.sqrt] *)
Variable fsqrt : Q -> Q.

(** [_calculate_distance] *)
Definition calculate_distance (pos1 pos2 : Q * Q) : Q :=
  fsqrt ((fst pos1 - fst pos2) ^ 2 + (snd pos1 - snd pos2) ^ 2)%Q.

(** One round of the loop of [_apply_neighbor_coordination] on
    [(best_incoming_flow, best_phase_to_match, best_offset)]. *)
Definition coordination_step (s : IntersectionAgent) (best : Q * option string * Q)
    (entry : string * NeighborState) : Q * option string * Q :=
  let state := snd entry in
  let age := (current_time s - n_timestamp state)%Q in
  if Qltb 30 age then best
  else
    match n_position state with
    | None => best
    | Some neighbor_pos =>
        if Qleb (outflow_estimate state) 0 then best
        else
          let distance := calculate_distance (position s) neighbor_pos in
          let avg_speed := (833 # 100)%Q in
          let travel_time := (distance / avg_speed)%Q in
          let arrival_in := (phase_timer_remaining state + travel_time)%Q in
          if Qltb (fst (fst best)) (outflow_estimate state)
          then (outflow_estimate state, n_phase state, arrival_in)
          else best
    end.

(** [_apply_neighbor_coordination] *)
Definition apply_neighbor_coordination (s : IntersectionAgent) : IntersectionAgent :=
  let '(best_incoming_flow, best_phase_to_match, best_offset) :=
    foldl (coordination_step s) (0%Q, None, 0%Q) (neighbor_states s) in
  match best_phase_to_match with
  | Some phase =>
      if negb (bool_decide (phase = "")) && Qleb 2 best_incoming_flow
      then schedule_green_wave s phase best_offset best_incoming_flow
      else s
  | None => s
  end.

(** [_broadcast_state_to_neighbors] on the agent itself: it hands one
    message to each neighbour, counts them, and applies the coordination.
    The messages go to the neighbours' inboxes, which are no part of
    this agent's state. *)
Definition broadcast_state_to_neighbors (s : IntersectionAgent) (neighbors : nat)
    : IntersectionAgent * bool :=
  (apply_neighbor_coordination
     (set_coordination_messages_sent s
        (coordination_messages_sent s + Z.of_nat neighbors)%Z),
   true).

(** [execute_intention]; [neighbors] is [len(self.neighbors)].
    [_broadcast_congestion_info] hands messages to vehicles and leaves
    the agent as it is.  The three methods raise nothing here, so the
    [except] clause is never entered. *)
Definition execute_intention (neighbors : nat) (s : IntersectionAgent)
    (intention : Bdi.Intention) : IntersectionAgent * bool :=
  match Bdi.i_type intention with
  | Bdi.CHANGE_LIGHT_TIMING => change_traffic_light_phase s
  | Bdi.BROADCAST_CONGESTION => (s, true)
  | Bdi.NEGOTIATE_WITH_NEIGHBOR => broadcast_state_to_neighbors s neighbors
  | _ => (s, false)
  end.

(** What one round reads from outside the agent: the two random draws of
    the learning policy, the [CONGESTION] belief, [len(self.neighbors)]
    and [self.model.current_step]. *)
Record RoundInput : Type := mkRoundInput {
  draw1 : Q;
  draw2 : Q;
  congestion_info : PyVal;
  neighbors : nat;
  current_step : Z
}.

(** [congestion_info and congestion_info['level'] == "fort"] *)
Definition strong_congestion (congestion_info : PyVal) : Result bool :=
  if truthy congestion_info then
    match congestion_info with
    | PDict info =>
        match info !! "level" with
        | Some level => Ok (py_eq_str level "fort")
        | None => Raise KeyError
        end
    | _ => Raise TypeError
    end
  else Ok false.

(** [deliberate]: the agent afterwards and the new intentions.  The
    quotient [self._neighbor_sync_interval / time_step] is a float
    division, rounded, of the constant 10.0; a time step of zero raises
    [ZeroDivisionError]. *)
Definition deliberate (s : IntersectionAgent) (input : RoundInput)
    : Result (IntersectionAgent * list Bdi.Intention) :=
  '(s1, decided) ← should_change_phase (advance_timers s) (draw1 input) (draw2 input);
  let change :=
    if decided : bool
    then [{| Bdi.i_type := Bdi.CHANGE_LIGHT_TIMING; Bdi.parameters := ∅;
             Bdi.priority := 1; Bdi.status := "pending";
             Bdi.parent_desire := Some Bdi.OPTIMIZE_FLOW |}]
    else [] in
  strong ← strong_congestion (congestion_info input);
  let broadcast :=
    if strong : bool
    then [{| Bdi.i_type := Bdi.BROADCAST_CONGESTION;
             Bdi.parameters := {[ "congestion_level" := PNum (8 # 10);
                                  "location" := of_pos (position s1) ]};
             Bdi.priority := 8 # 10; Bdi.status := "pending";
             Bdi.parent_desire := None |}]
    else [] in
  if Qeq_bool (time_step s1) 0 then Raise ZeroDivisionError
  else
    let sync_steps := Z.max 1 (py_int (fl (10 / time_step s1))) in
    let negotiate :=
      if negb (bool_decide (neighbors input = 0%nat))
         && bool_decide ((current_step input) `mod` sync_steps = 0)%Z
      then [{| Bdi.i_type := Bdi.NEGOTIATE_WITH_NEIGHBOR; Bdi.parameters := ∅;
               Bdi.priority := 75 # 100; Bdi.status := "pending";
               Bdi.parent_desire := Some Bdi.COORDINATE_WITH_NEIGHBORS |}]
      else [] in
    Ok (s1, change ++ broadcast ++ negotiate).

(** [BDIAgent.step] for an intersection from step 3 on: the intentions
    of [deliberate] are added to [self.intentions], [execute_intentions]
    runs, and the clock of the agent advances by the time step. *)
Definition deliberate_and_execute
    (st : IntersectionAgent * list Bdi.Intention * list Bdi.ActionRecord)
    (input : RoundInput)
    : Result (IntersectionAgent * list Bdi.Intention * list Bdi.ActionRecord) :=
  let '(s, intentions, history) := st in
  '(s1, new_intentions) ← deliberate s input;
  let '(s2, remaining, history') :=
    Bdi.execute_intentions IntersectionAgent (execute_intention (neighbors input))
      current_time s1 (intentions ++ new_intentions) history in
  Ok (set_current_time s2 (current_time s2 + time_step s2), remaining, history').

(** A run of such rounds. *)
Fixpoint run_rounds
    (st : IntersectionAgent * list Bdi.Intention * list Bdi.ActionRecord)
    (inputs : list RoundInput)
    : Result (IntersectionAgent * list Bdi.Intention * list Bdi.ActionRecord) :=
  match inputs with
  | [] => Ok st
  | input :: rest => st' ← deliberate_and_execute st input; run_rounds st' rest
  end.

End Coordination.

(** *** Vocabulary of the properties *)

(** A [CONGESTION] belief that [deliberate] can read: a falsy value, or
    a dictionary with the key [level]. *)
Definition readable_congestion (v : PyVal) : bool :=
  negb (truthy v)
  || match v with PDict info => dict_has info "level" | _ => false end.

(** The lights as a phase change left them, with every timer within
    [bound]. *)
Definition settled_since (s sc : IntersectionAgent) (bound : Q) (s1 : IntersectionAgent)
    : Prop :=
  directions s1 = directions s /\
  traffic_lights s1 = traffic_lights sc /\
  min_green_time s1 = min_green_time s /\
  model_time_step s1 = model_time_step s /\
  forall d, d ∈ directions s -> (timer_of s1 d <= bound)%Q.

(** A neighbour state the loop of [_apply_neighbor_coordination] takes
    into account: at most 30 s old, with a position and a positive
    outflow. *)
Definition counted (s : IntersectionAgent) (entry : string * NeighborState) : bool :=
  negb (Qltb 30 (current_time s - n_timestamp (snd entry))%Q)
  && bool_decide (is_Some (n_position (snd entry)))
  && Qltb 0 (outflow_estimate (snd entry)).

(** The states an agent goes through: a phase change by either of the two
    methods that write [traffic_lights], or any other update, which
    leaves [traffic_lights] and [directions] as they are (timers, queues,
    neighbour snapshots, green-wave memory, learning state, counters). *)
Inductive reachable (s0 : IntersectionAgent) : IntersectionAgent -> Prop :=
| reach_init : reachable s0 s0
| reach_change (s : IntersectionAgent) :
    reachable s0 s -> reachable s0 (fst (change_traffic_light_phase s))
| reach_force (s : IntersectionAgent) (target : Direction) :
    reachable s0 s -> reachable s0 (force_green s target)
| reach_other (s s' : IntersectionAgent) :
    reachable s0 s ->
    directions s' = directions s ->
    traffic_lights s' = traffic_lights s ->
    reachable s0 s'.

(** Every light of the group shows the colour; some light of the group is
    green. *)
Definition all_lit (s : IntersectionAgent) (group : list Direction)
    (colour : TrafficLightState) : bool :=
  forallb (fun d => bool_decide (traffic_lights s !! d = Some colour)) group.

Definition any_green (s : IntersectionAgent) (group : list Direction) : bool :=
  existsb (is_green s) group.

(** One group is all green and the other all red. *)
Definition one_group_green (s : IntersectionAgent) : bool :=
  (all_lit s (ns_directions s) GREEN && all_lit s (ew_directions s) RED)
  || (all_lit s (ew_directions s) GREEN && all_lit s (ns_directions s) RED).

(** Every direction of the intersection has a light, green for the
    directions of one axis ([green_ns] tells which) and red for the
    others. *)
Definition split_by_group (s : IntersectionAgent) (green_ns : bool) : Prop :=
  forall d, d ∈ directions s ->
    traffic_lights s !! d = Some (if bool_decide (in_ns d = green_ns) then GREEN else RED).

(** What exclusivity rests on along a run from [s0]. *)
Definition lights_inv (s0 s : IntersectionAgent) : Prop :=
  directions s = directions s0 /\ exists green_ns, split_by_group s green_ns.

(** The intersection has a north-south and an east-west approach. *)
Definition both_axes (ds : list Direction) : bool :=
  existsb in_ns ds && existsb in_ew ds.

(** The phase that is not [phase_name]. *)
Definition other_phase (phase_name : string) : string :=
  if bool_decide (phase_name = "NS") then "EW" else "NS".

(** The green duration planned for the current phase: the entry of
    [green_durations] for the first direction of the phase, or
    [default_green_time] when it has no entry; [None] when the phase has
    no direction at this intersection. *)
Definition planned_green_duration (s : IntersectionAgent) : option Q :=
  match head (phase_directions s (get_current_phase s)) with
  | Some first => Some (default (default_green_time s) (green_durations s !! first))
  | None => None
  end.

End Intersection.

(** ** agents/vehicle_agent.py *)

Module Vehicle.

Import Bdi.

Definition Pos : Type := Q * Q.

(** One entry of [reroute_history]. *)
Record RerouteRecord : Type := mkReroute {
  r_time : Q;
  r_reason : string;
  r_congestion_level : Q;
  old_route_length : Z;
  new_route_length : Z;
  r_position : Pos;
  r_vehicle_type : string
}.

Record VehicleAgent : Type := mkVA {
  unique_id : string;
  vehicle_type : string;
  beliefs : Beliefs;
  active : bool;
  current_time : Q;
  position : Pos;
  origin : Pos;
  destination : Pos;
  speed : Q;
  max_speed : Q;
  acceleration : Q;
  deceleration : Q;
  current_route : list Pos;
  current_waypoint_index : Z;
  route_recalculation_timer : Q;
  route_recalculation_interval : Q;
  is_stopped : bool;
  waiting_at_intersection : bool;
  stuck_timer : Q;
  distance_traveled : Q;
  travel_time : Q;
  route_changes : Z;
  stops_count : Z;
  (** [None] while the attribute does not exist ([hasattr] is false) *)
  last_message_type : option PyVal;
  reroute_history : option (list RerouteRecord)
}.

(** What a vehicle reads of [self.model]: [time_step] and the router
    behind [calculate_route], each absent when the model lacks the
    attribute.  The router answers [None] when it finds no path. *)
Record Model : Type := mkModel {
  m_time_step : option Q;
  calculate_route : option (Pos -> Pos -> option (list Pos))
}.

Definition time_step (m : Model) : Q := default 1%Q (m_time_step m).

Definition set_beliefs (v : VehicleAgent) (b : Beliefs) : VehicleAgent :=
  let '(mkVA a1 a2 _ a4 a5 a6 a7 a8 a9 a10 a11 a12 a13 a14 a15 a16 a17 a18 a19 a20
             a21 a22 a23 a24 a25) := v in
  mkVA a1 a2 b a4 a5 a6 a7 a8 a9 a10 a11 a12 a13 a14 a15 a16 a17 a18 a19 a20
       a21 a22 a23 a24 a25.

Definition set_motion (v : VehicleAgent) (position : Pos) (speed distance_traveled : Q)
    (current_waypoint_index : Z) : VehicleAgent :=
  let '(mkVA a1 a2 a3 a4 a5 _ a7 a8 _ a10 a11 a12 a13 _ a15 a16 a17 a18 a19 _
             a21 a22 a23 a24 a25) := v in
  mkVA a1 a2 a3 a4 a5 position a7 a8 speed a10 a11 a12 a13 current_waypoint_index
       a15 a16 a17 a18 a19 distance_traveled a21 a22 a23 a24 a25.

Definition set_speed (v : VehicleAgent) (speed : Q) : VehicleAgent :=
  set_motion v (position v) speed (distance_traveled v) (current_waypoint_index v).

Definition set_stopped (v : VehicleAgent) (stops_count : Z) : VehicleAgent :=
  let '(mkVA a1 a2 a3 a4 a5 a6 a7 a8 a9 a10 a11 a12 a13 a14 a15 a16 _ a18 a19 a20
             a21 a22 _ a24 a25) := v in
  mkVA a1 a2 a3 a4 a5 a6 a7 a8 a9 a10 a11 a12 a13 a14 a15 a16 true a18 a19 a20
       a21 a22 stops_count a24 a25.

Definition set_route (v : VehicleAgent) (route : list Pos) (index changes : Z)
    (history : option (list RerouteRecord)) : VehicleAgent :=
  let '(mkVA a1 a2 a3 a4 a5 a6 a7 a8 a9 a10 a11 a12 _ _ a15 a16 a17 a18 a19 a20
             a21 _ a23 a24 _) := v in
  mkVA a1 a2 a3 a4 a5 a6 a7 a8 a9 a10 a11 a12 route index a15 a16 a17 a18 a19 a20
       a21 changes a23 a24 history.

Definition set_recalculation_timer (v : VehicleAgent) (t : Q) : VehicleAgent :=
  let '(mkVA a1 a2 a3 a4 a5 a6 a7 a8 a9 a10 a11 a12 a13 a14 _ a16 a17 a18 a19 a20
             a21 a22 a23 a24 a25) := v in
  mkVA a1 a2 a3 a4 a5 a6 a7 a8 a9 a10 a11 a12 a13 a14 t a16 a17 a18 a19 a20
       a21 a22 a23 a24 a25.

Definition set_last_message_type (v : VehicleAgent) (t : PyVal) : VehicleAgent :=
  let '(mkVA a1 a2 a3 a4 a5 a6 a7 a8 a9 a10 a11 a12 a13 a14 a15 a16 a17 a18 a19 a20
             a21 a22 a23 _ a25) := v in
  mkVA a1 a2 a3 a4 a5 a6 a7 a8 a9 a10 a11 a12 a13 a14 a15 a16 a17 a18 a19 a20
       a21 a22 a23 (Some t) a25.

(** A value that must be a number where the source formats or compares it. *)
Definition as_number (v : PyVal) : Result Q :=
  match v with
  | PNum q => Ok q
  | PBool b => Ok (if b then 1%Q else 0%Q)
  | _ => Raise TypeError
  end.

(** [_recalculate_route] *)
Definition recalculate_route (m : Model) (self : VehicleAgent)
    : Result (VehicleAgent * bool) :=
  let traffic_state := get_belief (beliefs self) TRAFFIC_STATE in
  congestion_level ←
    match traffic_state with
    | PDict d => as_number (dict_get d "congestion_level" (PNum 0))
    | _ => Ok 0%Q
    end;
  let reason :=
    if Qltb (7 # 10) congestion_level then "high_congestion"
    else match last_message_type self with
         | Some t =>
             if py_eq_str t "congestion" then "congestion_alert"
             else if py_eq_str t "incident" then "incident_alert"
             else "periodic_check"
         | None => "periodic_check"
         end in
  let old_route_length :=
    match current_route self with
    | [] => 0%Z
    | _ :: _ => (Z.of_nat (length (current_route self)) - current_waypoint_index self)%Z
    end in
  match calculate_route m with
  | Some router =>
      match router (position self) (destination self) with
      | Some (wp :: rest) =>
          let new_route := wp :: rest in
          let new_route_length := Z.of_nat (length new_route) in
          let entry :=
            {| r_time := current_time self; r_reason := reason;
               r_congestion_level := congestion_level;
               old_route_length := old_route_length;
               new_route_length := new_route_length;
               r_position := position self;
               r_vehicle_type := vehicle_type self |} in
          let v1 := set_route self new_route 0 (route_changes self + 1)%Z
                      (Some (default [] (reroute_history self) ++ [entry])) in
          let v2 := set_beliefs v1
                      (update_belief (beliefs v1) (current_time v1) ROUTE
                         (PTuple (of_pos <$> new_route)) 1 "self") in
          Ok (v2, true)
      | _ => Ok (self, false)
      end
  | None => Ok (self, false)
  end.

(** [_stop] *)
Definition stop (self : VehicleAgent) : VehicleAgent * bool :=
  (set_stopped (set_speed self 0) (stops_count self + 1)%Z, true).

(** [_accelerate] *)
Definition accelerate (m : Model) (self : VehicleAgent) (target_speed : Q)
    : VehicleAgent * bool :=
  (set_speed self (Qmin (speed self + acceleration self * time_step m)%Q
                        (Qmin target_speed (max_speed self))), true).

(** [_decelerate] *)
Definition decelerate (m : Model) (self : VehicleAgent) (target_speed : Q)
    : VehicleAgent * bool :=
  (set_speed self (Qmax (speed self - deceleration self * time_step m)%Q
                        (Qmax target_speed 0)), true).

(** [handle_message].  The attribute [self.route] is defined nowhere in
    the class or its base: reading it raises [AttributeError], which the
    [and] reaches whenever [self.active] holds. *)
Definition handle_message (m : Model) (self : VehicleAgent)
    (message : Fipa.FIPAMessage) : Result VehicleAgent :=
  if bool_decide (Fipa.performative message = "INFORM") then
    if dict_has (Fipa.content message) "congestion" then
      let content := Fipa.content message in
      let location := dict_get content "location" PNone in
      let reason := dict_get content "reason" (PStr "") in
      let msg_type := dict_get content "type" (PStr "congestion") in
      (* the debug line formats the level with [:.2f] *)
      congestion_level ← as_number (dict_get content "congestion_level" (PNum 0));
      let v1 := set_last_message_type self msg_type in
      let v2 := set_beliefs v1
                  (update_belief (beliefs v1) (current_time v1) CONGESTION
                     (PDict {[ "level" := PNum congestion_level;
                               "location" := location;
                               "reason" := reason ]})
                     1 (Fipa.sender message)) in
      if Qltb (7 # 10) congestion_level || py_eq_str reason "incident" then
        if active v2 then Raise AttributeError
        else Ok (set_recalculation_timer v2 (route_recalculation_interval v2))
      else Ok v2
    else Ok self
  else Ok self.

(** [process_messages] over an inbox, stopping at the first exception. *)
Fixpoint process_messages (m : Model) (self : VehicleAgent)
    (inbox : list Fipa.FIPAMessage) : Result VehicleAgent :=
  match inbox with
  | [] => Ok self
  | msg :: rest => v ← handle_message m self msg; process_messages m v rest
  end.

Section WithSqrt.

Variable fsqrt : Q -> Q.

(** [_calculate_distance] *)
Definition calculate_distance (pos1 pos2 : Pos) : Q :=
  fsqrt ((fst pos1 - fst pos2) ^ 2 + (snd pos1 - snd pos2) ^ 2)%Q.

(** [_get_direction_to] *)
Definition get_direction_to (self : VehicleAgent) (target : Pos) : Q * Q :=
  let dx := (fst target - fst (position self))%Q in
  let dy := (snd target - snd (position self))%Q in
  let distance := fsqrt (dx ^ 2 + dy ^ 2)%Q in
  if Qeq_bool distance 0 then (0%Q, 0%Q) else ((dx / distance)%Q, (dy / distance)%Q).

(** [_move_forward]; the waypoint index is never negative. *)
Definition move_forward (m : Model) (self : VehicleAgent) : VehicleAgent * bool :=
  match current_route self !! Z.to_nat (current_waypoint_index self) with
  | None => (self, false)
  | Some target =>
      let direction := get_direction_to self target in
      let speed' :=
        if Qltb (speed self) (max_speed self)
        then Qmin (speed self + acceleration self * time_step m)%Q (max_speed self)
        else speed self in
      let displacement := (speed' * time_step m)%Q in
      let new_position :=
        ((fst (position self) + fst direction * displacement)%Q,
         (snd (position self) + snd direction * displacement)%Q) in
      let travelled :=
        (distance_traveled self + calculate_distance (position self) new_position)%Q in
      let index' :=
        if Qltb (calculate_distance new_position target) 5
        then (current_waypoint_index self + 1)%Z
        else current_waypoint_index self in
      (set_motion self new_position speed' travelled index', true)
  end.

(** [execute_intention]: the [try] turns any exception into [False]; the
    handlers above raise before they assign. *)
Definition execute_intention (m : Model) (self : VehicleAgent) (intention : Intention)
    : VehicleAgent * bool :=
  match i_type intention with
  | MOVE_FORWARD => move_forward m self
  | CHANGE_ROUTE =>
      match recalculate_route m self with
      | Ok r => r
      | Raise _ => (self, false)
      end
  | STOP => stop self
  | ACCELERATE =>
      match as_number (dict_get (parameters intention) "target_speed" (PNum (max_speed self))) with
      | Ok target_speed => accelerate m self target_speed
      | Raise _ => (self, false)
      end
  | DECELERATE =>
      match as_number (dict_get (parameters intention) "target_speed" (PNum 0)) with
      | Ok target_speed => decelerate m self target_speed
      | Raise _ => (self, false)
      end
  | _ => (self, false)
  end.

(** [_is_at_destination] *)
Definition is_at_destination (self : VehicleAgent) : bool :=
  Qltb (calculate_distance (position self) (destination self)) 10.

(** [_vehicle_ahead].  The [NEIGHBORS] belief lists vehicle objects;
    [nearby] gives, for each in turn, the position and the speed it has
    when the method reads them. *)
Definition vehicle_ahead (self : VehicleAgent) (nearby : list (Pos * Q)) : bool :=
  existsb (fun vehicle =>
             Qltb (calculate_distance (position self) (fst vehicle)) 20
             && Qltb (snd vehicle) (speed self))
          nearby.

Definition set_active (v : VehicleAgent) (active : bool) : VehicleAgent :=
  let '(mkVA a1 a2 a3 _ a5 a6 a7 a8 a9 a10 a11 a12 a13 a14 a15 a16 a17 a18 a19 a20
             a21 a22 a23 a24 a25) := v in
  mkVA a1 a2 a3 active a5 a6 a7 a8 a9 a10 a11 a12 a13 a14 a15 a16 a17 a18 a19 a20
       a21 a22 a23 a24 a25.

Definition new_intention (t : IntentionType) (parameters : PyDict) (priority : Q)
    (parent_desire : option DesireType) : Intention :=
  {| i_type := t; parameters := parameters; priority := priority;
     status := "pending"; parent_desire := parent_desire |}.

(** [deliberate]; [nearby] is the [NEIGHBORS] belief, [None] when there
    is none. *)
Definition deliberate (self : VehicleAgent) (nearby : option (list (Pos * Q)))
    : VehicleAgent * list Intention :=
  match current_route self with
  | [] => (self, [new_intention CHANGE_ROUTE ∅ 1 (Some REACH_DESTINATION)])
  | _ :: _ =>
      if is_at_destination self
      then (set_active self false, [new_intention STOP ∅ 1 (Some REACH_DESTINATION)])
      else
        let traffic_state := get_belief (beliefs self) TRAFFIC_STATE in
        let reroute :=
          py_eq_str traffic_state "congestionné"
          && Qleb (route_recalculation_interval self) (route_recalculation_timer self) in
        let self1 := if reroute then set_recalculation_timer self 0 else self in
        let first :=
          if reroute
          then [new_intention CHANGE_ROUTE ∅ (7 # 10) (Some AVOID_CONGESTION)]
          else [] in
        if waiting_at_intersection self1 then (self1, first)
        else
          let ahead :=
            match nearby with
            | Some (vehicle :: rest) => vehicle_ahead self1 (vehicle :: rest)
            | _ => false
            end in
          if ahead
          then (self1,
                first ++ [new_intention DECELERATE
                            {[ "target_speed" := PNum (speed self1 * (1 # 2))%Q ]}
                            (9 # 10) None])
          else (self1, first ++ [new_intention MOVE_FORWARD ∅ (8 # 10)
                                   (Some REACH_DESTINATION)])
  end.

(** Steps 3 and 4 of [BDIAgent.step] for a vehicle: the intentions of
    [deliberate] are added to [self.intentions], then
    [execute_intentions] runs. *)
Definition deliberate_and_execute (m : Model) (self : VehicleAgent)
    (nearby : option (list (Pos * Q))) (intentions : list Intention)
    (history : list ActionRecord)
    : VehicleAgent * list Intention * list ActionRecord :=
  let '(self1, new_intentions) := deliberate self nearby in
  execute_intentions VehicleAgent (execute_intention m) current_time
    self1 (intentions ++ new_intentions) history.

End WithSqrt.

(** *** Vocabulary of the properties *)

(** The speed is between 0 and [max_speed], and the two rates are not
    negative. *)
Definition speed_bounded (v : VehicleAgent) : Prop :=
  (0 <= acceleration v)%Q /\ (0 <= deceleration v)%Q /\
  (0 <= speed v)%Q /\ (speed v <= max_speed v)%Q.

(** The waypoint index points into the route or just past its end, and
    [route_changes] counts the entries of [reroute_history]. *)
Definition route_consistent (v : VehicleAgent) : Prop :=
  (0 <= current_waypoint_index v <= Z.of_nat (length (current_route v)))%Z /\
  route_changes v = Z.of_nat (length (default [] (reroute_history v))).

(** A target speed given to an intention lies between 0 and [bound]. *)
Definition target_within (bound : Q) (i : Intention) : Prop :=
  forall (t : PyVal) (q : Q),
    parameters i !! "target_speed" = Some t -> as_number t = Ok q ->
    (0 <= q)%Q /\ (q <= bound)%Q.

End Vehicle.

(** ** agents/crisis_manager_agent.py *)

Module Crisis.

Import Fipa.

(** One collected bid: [{'sender', 'availability', 'current_load',
    'message'}]. *)
Record Proposal : Type := mkProposal {
  p_sender : string;
  availability : Q;
  current_load : Q;
  p_message : FIPAMessage
}.

Record Incident : Type := mkIncident {
  location : PyVal;
  incident_type : PyVal;
  severity : PyVal;
  reported_by : string;
  i_timestamp : Q
}.

Record CrisisManagerAgent : Type := mkCM {
  unique_id : string;
  current_time : Q;
  position : Q * Q;
  active_incidents : list Incident;
  interventions_count : Z;
  green_waves_created : Z;
  cnp_proposals : gmap string (list Proposal)
}.

Definition CrisisManagerAgent_init (unique_id : string) : CrisisManagerAgent :=
  {| unique_id := unique_id; current_time := 0; position := (0%Q, 0%Q);
     active_incidents := []; interventions_count := 0; green_waves_created := 0;
     cnp_proposals := ∅ |}.

Definition set_cnp_proposals (self : CrisisManagerAgent)
    (p : gmap string (list Proposal)) : CrisisManagerAgent :=
  {| unique_id := unique_id self; current_time := current_time self;
     position := position self; active_incidents := active_incidents self;
     interventions_count := interventions_count self;
     green_waves_created := green_waves_created self; cnp_proposals := p |}.

(** The scheduled agents as the manager reaches them: the identifier and
    the [message_inbox] of each, in schedule order. *)
Definition Schedule : Type := list (string * list FIPAMessage).

(** [model.get_agent_by_id(id)] followed, when an agent is found, by
    [receive_message(message)] on it. *)
Fixpoint deliver (w : Schedule) (agent_id : string) (message : FIPAMessage) : Schedule :=
  match w with
  | [] => []
  | (uid, inbox) :: rest =>
      if bool_decide (uid = agent_id) then (uid, inbox ++ [message]) :: rest
      else (uid, inbox) :: deliver rest agent_id message
  end.

(** A numeric payload entry, as [_handle_cfp] writes it; an absent entry
    reads as the default. *)
Definition get_number (d : PyDict) (key : string) (default : Q) : Q :=
  match d !! key with
  | Some (PNum q) => q
  | _ => default
  end.

(** [max(proposals, key=lambda p: p['availability'])]: the first of the
    largest. *)
Definition best_of (first : Proposal) (rest : list Proposal) : Proposal :=
  foldl (fun best p => if Qltb (availability best) (availability p) then p else best)
        first rest.

(** The message the loop of [_evaluate_cnp_proposal] builds for one
    proposal. *)
Definition cnp_reply (t_stamp t_id : Q) (self : CrisisManagerAgent)
    (conversation_id : string) (best proposal : Proposal) : FIPAMessage :=
  if bool_decide (p_sender proposal = p_sender best) then
    FIPAMessage_init t_stamp t_id (unique_id self) (p_sender proposal) "accept-proposal"
      {[ "task" := PStr "priority_delegation"; "priority_direction" := PStr "north" ]}
      None None (Some conversation_id) None
  else
    FIPAMessage_init t_stamp t_id (unique_id self) (p_sender proposal) "reject-proposal"
      {[ "reason" := PStr "better_proposal_received" ]}
      None None (Some conversation_id) None.

(** [message.conversation_id or "default"] *)
Definition conversation_key (message : FIPAMessage) : string :=
  match conversation_id message with
  | Some c => if bool_decide (c = "") then "default" else c
  | None => "default"
  end.

(** [_evaluate_cnp_proposal]: the manager and the inboxes afterwards. *)
Definition evaluate_cnp_proposal (t_stamp t_id : Q) (self : CrisisManagerAgent)
    (w : Schedule) (message : FIPAMessage) : CrisisManagerAgent * Schedule :=
  let conversation_id := conversation_key message in
  let entry :=
    {| p_sender := sender message;
       availability := get_number (content message) "availability" 0;
       current_load := get_number (content message) "current_load" 0;
       p_message := message |} in
  let proposals := default [] (cnp_proposals self !! conversation_id) ++ [entry] in
  match proposals with
  | first :: (_ :: _) as rest =>
      let best := best_of first rest in
      let w' :=
        foldl (fun acc proposal =>
                 deliver acc (p_sender proposal)
                   (cnp_reply t_stamp t_id self conversation_id best proposal))
              w proposals in
      (set_cnp_proposals self (delete conversation_id (cnp_proposals self)), w')
  | _ =>
      (set_cnp_proposals self (<[conversation_id := proposals]> (cnp_proposals self)), w)
  end.

(** [_handle_incident_report] *)
Definition handle_incident_report (self : CrisisManagerAgent) (message : FIPAMessage)
    : CrisisManagerAgent :=
  let incident :=
    {| location := dict_get (content message) "location" PNone;
       incident_type := dict_get (content message) "incident_type" (PStr "unknown");
       severity := dict_get (content message) "severity" (PStr "medium");
       reported_by := sender message;
       i_timestamp := current_time self |} in
  {| unique_id := unique_id self; current_time := current_time self;
     position := position self;
     active_incidents := active_incidents self ++ [incident];
     interventions_count := interventions_count self;
     green_waves_created := green_waves_created self;
     cnp_proposals := cnp_proposals self |}.

(** [handle_message] *)
Definition handle_message (t_stamp t_id : Q) (self : CrisisManagerAgent)
    (w : Schedule) (message : FIPAMessage) : CrisisManagerAgent * Schedule :=
  if bool_decide (performative message = "propose") then
    evaluate_cnp_proposal t_stamp t_id self w message
  else if bool_decide (performative message = "inform") then
    if py_eq_str (dict_get (content message) "type" PNone) "incident_report"
    then (handle_incident_report self message, w)
    else (self, w)
  else (self, w).

(** [FIPAMessageCopy] *)
Definition FIPAMessageCopy (t_stamp t_id : Q) (original_message : FIPAMessage)
    (new_receiver : string) : FIPAMessage :=
  FIPAMessage_init t_stamp t_id (sender original_message) new_receiver
    (performative original_message) (content original_message)
    None (protocol original_message) (conversation_id original_message) None.

(** [max(queue_lengths, key=queue_lengths.get)]: the keys come in the
    order [__init__] inserted them, the order of [directions]. *)
Definition worst_direction (agent : Intersection.IntersectionAgent)
    : option Intersection.Direction :=
  match List.filter (fun d => bool_decide (is_Some (Intersection.queue_lengths agent !! d)))
                    (Intersection.directions agent) with
  | [] => None
  | d :: rest =>
      Some (foldl (fun best x =>
                     if (Intersection.queue_in agent best <? Intersection.queue_in agent x)%Z
                     then x else best)
                  d rest)
  end.

(** The call for proposals [_delegate_priority_via_cnp] builds for one
    congested intersection; [congested_agent] is what
    [get_agent_by_id] found. *)
Definition call_for_proposals (t_stamp t_id : Q) (self : CrisisManagerAgent)
    (congested_id : string) (queue_total : Z)
    (congested_agent : option Intersection.IntersectionAgent) : FIPAMessage :=
  let priority_direction :=
    match congested_agent with
    | Some agent =>
        match worst_direction agent with
        | Some d => Intersection.dir_value d
        | None => "unknown"
        end
    | None => "unknown"
    end in
  contract_net_protocol t_stamp t_id (unique_id self)
    {[ "task" := PStr "priority_delegation";
       "congested_intersection" := PStr congested_id;
       "congestion_level" := PNum (inject_Z queue_total);
       "direction" := PStr priority_direction ]}.

End Crisis.

(** ** Concrete inputs used by the examples below *)

Module Examples.

(** Two nodes 5 m apart joined by an edge of weight 7. *)
Definition detour_net : Routing.RoadNetwork :=
  fst (Routing.add_edge Routing.sqrt_floor
         (Routing.add_node
            (Routing.add_node Routing.RoadNetwork_init (Routing.Node_init (0%Q, 0%Q) "a"))
            (Routing.Node_init (3%Q, 4%Q) "b"))
         "a" "b" (Some 7%Q)).

(** A node 12 km west of the goal. *)
Definition far_net : Routing.RoadNetwork :=
  Routing.add_node
    (Routing.add_node Routing.RoadNetwork_init (Routing.Node_init (0%Q, 0%Q) "far"))
    (Routing.Node_init (12000%Q, 0%Q) "goal").

(** A vehicle on a two-waypoint route, and a model whose router finds no
    path. *)
Definition car : Vehicle.VehicleAgent :=
  {| Vehicle.unique_id := "vehicle_0";
     Vehicle.vehicle_type := "standard";
     Vehicle.beliefs := ∅;
     Vehicle.active := true;
     Vehicle.current_time := 12;
     Vehicle.position := (10%Q, 0%Q);
     Vehicle.origin := (0%Q, 0%Q);
     Vehicle.destination := (200%Q, 0%Q);
     Vehicle.speed := 5;
     Vehicle.max_speed := 1389 # 100;
     Vehicle.acceleration := 2;
     Vehicle.deceleration := 4;
     Vehicle.current_route := [(100%Q, 0%Q); (200%Q, 0%Q)];
     Vehicle.current_waypoint_index := 0;
     Vehicle.route_recalculation_timer := 0;
     Vehicle.route_recalculation_interval := 30;
     Vehicle.is_stopped := false;
     Vehicle.waiting_at_intersection := false;
     Vehicle.stuck_timer := 0;
     Vehicle.distance_traveled := 10;
     Vehicle.travel_time := 12;
     Vehicle.route_changes := 0;
     Vehicle.stops_count := 0;
     Vehicle.last_message_type := None;
     Vehicle.reroute_history := None |}.

Definition no_path_model : Vehicle.Model :=
  {| Vehicle.m_time_step := Some 1%Q;
     Vehicle.calculate_route := Some (fun _ _ => None) |}.

Definition change_route : Bdi.Intention :=
  {| Bdi.i_type := Bdi.CHANGE_ROUTE; Bdi.parameters := ∅; Bdi.priority := 1;
     Bdi.status := "pending"; Bdi.parent_desire := Some Bdi.REACH_DESTINATION |}.

(** The notice [IncidentScenario._broadcast_incident_info] sends to a
    vehicle. *)
Definition incident_notice : Fipa.FIPAMessage :=
  Fipa.FIPAMessage_init 30 30 "scenario_manager" "vehicle_0" "inform"
    {[ "type" := PStr "congestion";
       "congestion_level" := PNum 1;
       "location" := of_pos (50%Q, 0%Q);
       "reason" := PStr "incident";
       "blocked_road" := PStr "Boulevard" ]}
    None None None None.

(** The same payload on a message object whose performative reads
    ["INFORM"] and whose payload has the key ["congestion"]: the only
    shape the vehicle's handler reacts to. *)
Definition raw_notice : Fipa.FIPAMessage :=
  {| Fipa.sender := "scenario_manager"; Fipa.receiver := "vehicle_0";
     Fipa.performative := "INFORM";
     Fipa.content := {[ "congestion" := PBool true;
                        "congestion_level" := PNum 1;
                        "reason" := PStr "incident" ]};
     Fipa.language := "JSON"; Fipa.ontology := None; Fipa.protocol := None;
     Fipa.conversation_id := None; Fipa.reply_to := None; Fipa.reply_by := None;
     Fipa.timestamp := 30; Fipa.message_id := "msg_30000" |}.

(** A congested intersection whose longest queue is the eastern one. *)
Definition jammed : Intersection.IntersectionAgent :=
  Intersection.set_queue_lengths
    (Intersection.IntersectionAgent_init "intersection_0" (Some 1%Q) None (0%Q, 0%Q) None)
    {[ Intersection.NORTH := 8%Z; Intersection.SOUTH := 9%Z;
       Intersection.EAST := 20%Z; Intersection.WEST := 7%Z ]}.

(** A freshly built four-way intersection; the same after 20 s of
    north-south green with 17 vehicles queued on the east; and an
    intersection built with the north-south axis only. *)
Definition fresh : Intersection.IntersectionAgent :=
  Intersection.IntersectionAgent_init "intersection_0" (Some 1%Q) None (0%Q, 0%Q) None.

Definition ripe : Intersection.IntersectionAgent :=
  Intersection.set_queue_lengths
    (Intersection.set_light_timers fresh
       (Intersection.assign_all Intersection.default_directions (fun _ => 20%Q) ∅))
    {[ Intersection.NORTH := 0%Z; Intersection.SOUTH := 0%Z;
       Intersection.EAST := 17%Z; Intersection.WEST := 0%Z ]}.

(** After 20 s of north-south green, 5 vehicles queued on the east and a
    neighbour that reports one vehicle on one of its three approaches:
    the downstream estimate is 1/3, and the two pressures, (5 - 1/3) +
    (0 - 1/3) and (0 - 1/3) + (0 - 1/3), differ by exactly 5 before
    rounding. *)
Definition tight : Intersection.IntersectionAgent :=
  Intersection.set_neighbor_states
    (Intersection.set_queue_lengths
       (Intersection.set_light_timers fresh
          (Intersection.assign_all Intersection.default_directions (fun _ => 20%Q) ∅))
       {[ Intersection.NORTH := 0%Z; Intersection.SOUTH := 0%Z;
          Intersection.EAST := 5%Z; Intersection.WEST := 0%Z ]})
    [("intersection_1",
      {| Intersection.n_phase := Some "NS";
         Intersection.phase_timer_remaining := 10;
         Intersection.n_queue_lengths := [("north", 1%Z); ("south", 0%Z); ("east", 0%Z)];
         Intersection.outflow_estimate := 0;
         Intersection.n_position := Some (100%Q, 0%Q);
         Intersection.n_timestamp := 0 |})].

(** The fresh intersection with an upstream neighbour on the other
    phase that reports an outflow, and two rounds of its life: one with a
    strong congestion at a step where the neighbours are synchronised,
    one with no congestion belief. *)
Definition downstream : Intersection.IntersectionAgent :=
  Intersection.set_neighbor_states fresh
    [("intersection_1",
      {| Intersection.n_phase := Some "EW";
         Intersection.phase_timer_remaining := 10;
         Intersection.n_queue_lengths := [("east", 4%Z)];
         Intersection.outflow_estimate := 2;
         Intersection.n_position := Some (300%Q, 0%Q);
         Intersection.n_timestamp := 0 |})].

Definition spacing_round_1 : Intersection.RoundInput :=
  {| Intersection.draw1 := 0; Intersection.draw2 := 0;
     Intersection.congestion_info := PDict {[ "level" := PStr "fort" ]};
     Intersection.neighbors := 2; Intersection.current_step := 0 |}.

Definition spacing_round_2 : Intersection.RoundInput :=
  {| Intersection.draw1 := 0; Intersection.draw2 := 0;
     Intersection.congestion_info := PNone;
     Intersection.neighbors := 2; Intersection.current_step := 1 |}.

(** A four-way intersection with 28 vehicles queued, 70 % of its
    capacity of 40, and one with 29. *)
Definition laden (queued_west : Z) : Intersection.IntersectionAgent :=
  Intersection.set_queue_lengths fresh
    {[ Intersection.NORTH := 7%Z; Intersection.SOUTH := 7%Z;
       Intersection.EAST := 7%Z; Intersection.WEST := queued_west ]}.

Definition north_south_only : Intersection.IntersectionAgent :=
  Intersection.IntersectionAgent_init "intersection_1" (Some 1%Q) None (0%Q, 0%Q)
    (Some [Intersection.NORTH; Intersection.SOUTH]).

Definition manager : Crisis.CrisisManagerAgent := Crisis.CrisisManagerAgent_init "crisis_manager".

(** The call for proposals about [jammed], the copies its two
    neighbours receive and the bids they answer with. *)
Definition cfp : Fipa.FIPAMessage :=
  Crisis.call_for_proposals 40 40 manager "intersection_0" 44 (Some jammed).

Definition bid (contractor : string) (avail : Q) : Fipa.FIPAMessage :=
  Fipa.propose_in_cnp 41 41 contractor "crisis_manager"
    {[ "task" := PStr "priority_delegation";
       "availability" := PNum avail;
       "current_load" := PNum 4;
       "position" := of_pos (100%Q, 0%Q) ]}
    (Crisis.FIPAMessageCopy 40 40 cfp contractor).

Definition contractors : Crisis.Schedule :=
  [("intersection_1", []); ("intersection_2", [])].

(** The manager after both bids, and the contractors' inboxes. *)
Definition arbitration : Crisis.CrisisManagerAgent * Crisis.Schedule :=
  let '(m1, w1) := Crisis.handle_message 42 42 manager contractors
                     (bid "intersection_1" (1 # 2)) in
  Crisis.handle_message 43 43 m1 w1 (bid "intersection_2" (9 # 10)).

(** The nodes of [detour_net] in the order of its dictionary, and a
    router that has already routed from the one to the other. *)
Definition town : list Routing.Node :=
  [Routing.Node_init (0%Q, 0%Q) "a"; Routing.Node_init (3%Q, 4%Q) "b"].

Definition warm_router : Routing.AStarRouter :=
  {| Routing.paths_calculated := 1;
     Routing.route_cache := [(("a", "b"), ["a"; "b"])];
     Routing.cache_size := 200;
     Routing.cache_hits := 0;
     Routing.cache_misses := 1 |}.

End Examples.

(** * Properties *)

Section Comparisons.

Lemma Qltb_lt (a b : Q) : Qltb a b = true <-> (a < b)%Q.
Proof.
  unfold Qltb. rewrite negb_true_iff. split.
  - intros H. destruct (Qlt_le_dec a b) as [Hlt | Hle]; [done |].
    apply Qle_bool_iff in Hle. congruence.
  - intros H. destruct (Qle_bool b a) eqn:Hb; [| done].
    apply Qle_bool_iff in Hb. lra.
Qed.

Lemma Qltb_ge (a b : Q) : Qltb a b = false <-> (b <= a)%Q.
Proof.
  unfold Qltb. rewrite negb_false_iff. apply Qle_bool_iff.
Qed.

Lemma Qmax_ge_l (a b : Q) : (a <= Qmax a b)%Q.
Proof.
  unfold Qmax. destruct (Qltb a b) eqn:H; [apply Qltb_lt in H; lra | lra].
Qed.

Lemma Qmax_ge_r (a b : Q) : (b <= Qmax a b)%Q.
Proof.
  unfold Qmax. destruct (Qltb a b) eqn:H; [lra | apply Qltb_ge in H; lra].
Qed.

End Comparisons.

Section RoundingProps.

Lemma pow2_pos (k : Z) : (0 < pow2 k)%Q.
Proof. apply Qpower_0_lt. reflexivity. Qed.

Lemma pow2_add (a b : Z) : (pow2 (a + b) == pow2 a * pow2 b)%Q.
Proof. apply Qpower_plus. discriminate. Qed.

Lemma pow2_le (a b : Z) : (a <= b)%Z -> (pow2 a <= pow2 b)%Q.
Proof. intros H. apply Qpower_le_compat_l; [done | discriminate]. Qed.

Lemma pow2_lt_inv (a b : Z) : (pow2 a < pow2 b)%Q -> (a < b)%Z.
Proof. intros H. apply (Qpower_lt_compat_l_inv 2); [done | reflexivity]. Qed.

Lemma pow2_Z (k : Z) : (0 <= k)%Z -> (inject_Z (2 ^ k) == pow2 k)%Q.
Proof. intros H. by apply Zpower_Qpower. Qed.

Lemma Qlog2_spec (x : Q) :
  (0 < x)%Q -> (pow2 (Qlog2 x) <= x)%Q /\ (x < pow2 (Qlog2 x + 1))%Q.
Proof.
  intros Hx. destruct x as [n d].
  assert (Hn : (0 < n)%Z) by (unfold Qlt in Hx; simpl in Hx; lia).
  unfold Qlog2. cbn [Qnum Qden].
  set (a := Z.log2 n). set (b := Z.log2 (Z.pos d)).
  assert (Ha : (0 <= a)%Z) by apply Z.log2_nonneg.
  assert (Hb : (0 <= b)%Z) by apply Z.log2_nonneg.
  destruct (Z.log2_spec n Hn) as [Ha1 Ha2]. fold a in Ha1, Ha2.
  destruct (Z.log2_spec (Z.pos d) eq_refl) as [Hb1 Hb2]. fold b in Hb1, Hb2.
  assert (Hq : (n # d == inject_Z n / inject_Z (Z.pos d))%Q) by apply Qmake_Qdiv.
  assert (Hd : (0 < inject_Z (Z.pos d))%Q) by (unfold Qlt; simpl; lia).
  assert (Ea : (pow2 a == inject_Z (2 ^ a))%Q) by (symmetry; by apply pow2_Z).
  assert (Eb : (pow2 b == inject_Z (2 ^ b))%Q) by (symmetry; by apply pow2_Z).
  assert (Ea1 : (pow2 (a + 1) == inject_Z (2 ^ (a + 1)))%Q) by (symmetry; apply pow2_Z; lia).
  assert (Eb1 : (pow2 (b + 1) == inject_Z (2 ^ (b + 1)))%Q) by (symmetry; apply pow2_Z; lia).
  (* the four bounds in Q *)
  assert (Ba1 : (pow2 a <= inject_Z n)%Q) by (rewrite Ea, <- Zle_Qle; lia).
  assert (Ba2 : (inject_Z n < pow2 (a + 1))%Q)
    by (rewrite Ea1, <- Zlt_Qlt; replace (a + 1)%Z with (Z.succ a) by lia; lia).
  assert (Bb1 : (pow2 b <= inject_Z (Z.pos d))%Q) by (rewrite Eb, <- Zle_Qle; lia).
  assert (Bb2 : (inject_Z (Z.pos d) < pow2 (b + 1))%Q)
    by (rewrite Eb1, <- Zlt_Qlt; replace (b + 1)%Z with (Z.succ b) by lia; lia).
  pose proof (pow2_pos a) as Pa. pose proof (pow2_pos b) as Pb.
  pose proof (pow2_pos (a - b)) as Pab. pose proof (pow2_pos (a - b - 1)) as Pab1.
  assert (E1 : (pow2 a == pow2 (a - b) * pow2 b)%Q)
    by (rewrite <- pow2_add; by replace (a - b + b)%Z with a by lia).
  assert (E2 : (pow2 (a + 1) == pow2 (a - b + 1) * pow2 b)%Q)
    by (rewrite <- pow2_add; by replace (a - b + 1 + b)%Z with (a + 1)%Z by lia).
  assert (E3 : (pow2 a == pow2 (a - b - 1) * pow2 (b + 1))%Q)
    by (rewrite <- pow2_add; by replace (a - b - 1 + (b + 1))%Z with a by lia).
  set (x := (inject_Z n / inject_Z (Z.pos d))%Q) in *.
  assert (Hxd : (x * inject_Z (Z.pos d) == inject_Z n)%Q) by (unfold x; field; lra).
  (* x < pow2 (a - b + 1) *)
  assert (Hup : (n # d < pow2 (a - b + 1))%Q).
  { rewrite Hq. apply Qnot_le_lt. intros Hle.
    assert ((pow2 (a - b + 1) * pow2 b <= x * inject_Z (Z.pos d))%Q).
    { apply Qle_trans with (pow2 (a - b + 1) * inject_Z (Z.pos d))%Q.
      - apply Qmult_le_l; [apply pow2_pos | done].
      - apply Qmult_le_r; done. }
    lra. }
  (* pow2 (a - b - 1) <= x *)
  assert (Hlow : (pow2 (a - b - 1) <= n # d)%Q).
  { rewrite Hq. apply Qnot_lt_le. intros Hlt.
    assert ((x * inject_Z (Z.pos d) < pow2 (a - b - 1) * pow2 (b + 1))%Q).
    { apply Qle_lt_trans with (x * pow2 (b + 1))%Q.
      - assert (Hxpos : (0 <= x)%Q) by (rewrite <- Hq; lra).
        rewrite !(Qmult_comm x). apply Qmult_le_compat_r; lra.
      - apply Qmult_lt_r; [apply pow2_pos | done]. }
    lra. }
  destruct (Qleb (pow2 (a - b)) (n # d)) eqn:E.
  - apply Qle_bool_iff in E. split; [done |]. done.
  - split; [done |].
    replace (a - b - 1 + 1)%Z with (a - b)%Z by lia.
    apply Qnot_le_lt. intros Hle. apply Qle_bool_iff in Hle. unfold Qleb in E. congruence.
Qed.

Lemma Qlog2_unique (x : Q) (e : Z) :
  (pow2 e <= x)%Q -> (x < pow2 (e + 1))%Q -> Qlog2 x = e.
Proof.
  intros H1 H2.
  assert (Hx : (0 < x)%Q) by (pose proof (pow2_pos e); lra).
  destruct (Qlog2_spec x Hx) as [S1 S2].
  assert (Qlog2 x < e + 1)%Z by (apply pow2_lt_inv; lra).
  assert (e < Qlog2 x + 1)%Z by (apply pow2_lt_inv; lra).
  lia.
Qed.

Lemma Qlog2_mono (x y : Q) : (0 < x)%Q -> (x <= y)%Q -> (Qlog2 x <= Qlog2 y)%Z.
Proof.
  intros Hx Hxy.
  destruct (Qlog2_spec x Hx) as [S1 _].
  destruct (Qlog2_spec y ltac:(lra)) as [_ T2].
  assert (Qlog2 x < Qlog2 y + 1)%Z by (apply pow2_lt_inv; lra).
  lia.
Qed.

Lemma rhe_bounds (x : Q) :
  (Qfloor x <= round_half_even x <= Qfloor x + 1)%Z.
Proof.
  unfold round_half_even.
  destruct (Qltb _ (1 # 2)); [lia |].
  destruct (Qltb (1 # 2) _); [lia |].
  destruct (Z.even _); lia.
Qed.

Lemma rhe_mono (x y : Q) : (x <= y)%Q -> (round_half_even x <= round_half_even y)%Z.
Proof.
  intros Hxy.
  pose proof (Qfloor_resp_le x y Hxy) as Hf.
  pose proof (rhe_bounds x) as Bx. pose proof (rhe_bounds y) as By.
  destruct (Z.eq_dec (Qfloor x) (Qfloor y)) as [E | NE]; [| lia].
  unfold round_half_even. rewrite <- E.
  destruct (Qltb (x - inject_Z (Qfloor x)) (1 # 2)) eqn:X1.
  { destruct (Qltb (y - _) (1 # 2)); [lia |].
    destruct (Qltb (1 # 2) _); [lia |]. destruct (Z.even _); lia. }
  apply Qltb_ge in X1.
  assert (Y1 : Qltb (y - inject_Z (Qfloor x)) (1 # 2) = false) by (apply Qltb_ge; lra).
  rewrite Y1.
  destruct (Qltb (1 # 2) (x - inject_Z (Qfloor x))) eqn:X2.
  { apply Qltb_lt in X2.
    assert (Y2 : Qltb (1 # 2) (y - inject_Z (Qfloor x)) = true) by (apply Qltb_lt; lra).
    rewrite Y2. lia. }
  destruct (Qltb (1 # 2) (y - inject_Z (Qfloor x))); [destruct (Z.even _); lia | lia].
Qed.

Lemma rhe_le_int (x : Q) (n : Z) : (x <= inject_Z n)%Q -> (round_half_even x <= n)%Z.
Proof.
  intros H. pose proof (rhe_bounds x) as B.
  pose proof (Qfloor_resp_le x (inject_Z n) H) as Hf. rewrite Qfloor_Z in Hf.
  destruct (Z.eq_dec (Qfloor x) n) as [E | NE]; [| lia].
  pose proof (Qfloor_le x) as Hl. rewrite E in Hl.
  unfold round_half_even. rewrite E.
  assert (Hr : Qltb (x - inject_Z n) (1 # 2) = true) by (apply Qltb_lt; lra).
  rewrite Hr. lia.
Qed.

Lemma rhe_ge_int (x : Q) (n : Z) : (inject_Z n <= x)%Q -> (n <= round_half_even x)%Z.
Proof.
  intros H. pose proof (rhe_bounds x) as B.
  pose proof (Qfloor_resp_le (inject_Z n) x H) as Hf. rewrite Qfloor_Z in Hf. lia.
Qed.

(** A power of two that the grid of spacing [pow2 u] holds bounds the
    rounding on that grid. *)
Lemma grid_le (a : Q) (u k : Z) :
  (u <= k)%Z -> (a <= pow2 k)%Q ->
  (inject_Z (round_half_even (a / pow2 u)) * pow2 u <= pow2 k)%Q.
Proof.
  intros Huk Ha. pose proof (pow2_pos u) as Pu.
  assert (E : (pow2 k == inject_Z (2 ^ (k - u)) * pow2 u)%Q).
  { rewrite pow2_Z by lia. rewrite <- pow2_add. by replace (k - u + u)%Z with k by lia. }
  rewrite E. apply Qmult_le_compat_r; [| lra].
  rewrite <- Zle_Qle. apply rhe_le_int.
  apply Qle_shift_div_r; [done |]. by rewrite <- E.
Qed.

Lemma grid_ge (a : Q) (u k : Z) :
  (u <= k)%Z -> (pow2 k <= a)%Q ->
  (pow2 k <= inject_Z (round_half_even (a / pow2 u)) * pow2 u)%Q.
Proof.
  intros Huk Ha. pose proof (pow2_pos u) as Pu.
  assert (E : (pow2 k == inject_Z (2 ^ (k - u)) * pow2 u)%Q).
  { rewrite pow2_Z by lia. rewrite <- pow2_add. by replace (k - u + u)%Z with k by lia. }
  rewrite E. apply Qmult_le_compat_r; [| lra].
  rewrite <- Zle_Qle. apply rhe_ge_int.
  apply Qle_shift_div_l; [done |]. by rewrite <- E.
Qed.

Lemma round_magnitude_nonneg (a : Q) : (0 <= a)%Q -> (0 <= round_magnitude a)%Q.
Proof.
  intros Ha. unfold round_magnitude. pose proof (pow2_pos (ulp_exponent a)) as Pu.
  apply Qmult_le_0_compat; [| lra].
  change 0%Q with (inject_Z 0). rewrite <- Zle_Qle. apply rhe_ge_int.
  apply Qle_shift_div_l; [done |]. change (inject_Z 0) with 0%Q. lra.
Qed.

Lemma round_magnitude_mono (x y : Q) :
  (0 < x)%Q -> (x <= y)%Q -> (round_magnitude x <= round_magnitude y)%Q.
Proof.
  intros Hx Hxy. unfold round_magnitude.
  pose proof (Qlog2_mono x y Hx Hxy) as He.
  destruct (Qlog2_spec x Hx) as [X1 X2].
  destruct (Qlog2_spec y ltac:(lra)) as [Y1 Y2].
  unfold ulp_exponent.
  set (ex := Qlog2 x) in *. set (ey := Qlog2 y) in *.
  set (ux := Z.max (ex - 52) (-1074)). set (uy := Z.max (ey - 52) (-1074)).
  assert (Hu : (ux <= uy)%Z) by (unfold ux, uy; lia).
  destruct (Z.eq_dec ux uy) as [E | NE].
  - rewrite <- E. pose proof (pow2_pos ux) as Pu.
    apply Qmult_le_compat_r; [| lra].
    rewrite <- Zle_Qle. apply rhe_mono.
    apply Qmult_le_compat_r; [done |]. apply Qinv_le_0_compat. lra.
  - assert (Hlt : (ux < uy)%Z) by lia.
    assert (Huy : uy = (ey - 52)%Z) by (unfold ux, uy in *; lia).
    assert (Hexy : (ex < ey)%Z) by (unfold ux, uy in *; lia).
    set (g := Z.max (ex + 1) ux).
    apply Qle_trans with (pow2 g).
    + apply grid_le; [unfold g; lia |].
      apply Qle_trans with (pow2 (ex + 1)); [lra |]. apply pow2_le. unfold g. lia.
    + apply Qle_trans with (pow2 ey).
      * apply pow2_le. unfold g. lia.
      * apply grid_ge; [lia | done].
Qed.

Lemma round_magnitude_comp (x y : Q) :
  (0 < x)%Q -> (x == y)%Q -> (round_magnitude x == round_magnitude y)%Q.
Proof.
  intros Hx Hxy. apply Qle_antisym; apply round_magnitude_mono; lra.
Qed.

Lemma fl_spec (x : Q) :
  (fl x == if Qeq_bool x 0 then 0
           else if Qltb x 0 then - round_magnitude (- x) else round_magnitude x)%Q.
Proof.
  unfold fl. destruct (Qeq_bool x 0) eqn:E0; [reflexivity |].
  assert (Hne : ~ (x == 0)%Q) by (intros H; apply Qeq_bool_iff in H; congruence).
  rewrite Qred_correct.
  destruct (Qltb x 0) eqn:E.
  - apply Qltb_lt in E. apply Qopp_comp.
    apply round_magnitude_comp; [| by apply Qabs_neg; lra].
    rewrite Qabs_neg by lra. lra.
  - apply Qltb_ge in E.
    apply round_magnitude_comp; [| by apply Qabs_pos].
    rewrite Qabs_pos by lra. lra.
Qed.

(** The rounding keeps the sign, and the order. *)
Lemma fl_nonneg (x : Q) : (0 <= x)%Q -> (0 <= fl x)%Q.
Proof.
  intros Hx. rewrite fl_spec.
  destruct (Qeq_bool x 0); [lra |].
  assert (E : Qltb x 0 = false) by (by apply Qltb_ge). rewrite E.
  by apply round_magnitude_nonneg.
Qed.

Lemma fl_nonpos (x : Q) : (x <= 0)%Q -> (fl x <= 0)%Q.
Proof.
  intros Hx. rewrite fl_spec.
  destruct (Qeq_bool x 0) eqn:E0; [lra |].
  assert (Hne : ~ (x == 0)%Q) by (intros H; apply Qeq_bool_iff in H; congruence).
  assert (E : Qltb x 0 = true) by (apply Qltb_lt; lra). rewrite E.
  pose proof (round_magnitude_nonneg (- x) ltac:(lra)). lra.
Qed.

Lemma fl_mono (x y : Q) : (x <= y)%Q -> (fl x <= fl y)%Q.
Proof.
  intros Hxy. rewrite (fl_spec x), (fl_spec y).
  destruct (Qeq_bool x 0) eqn:Ex0.
  - apply Qeq_bool_iff in Ex0.
    destruct (Qeq_bool y 0); [lra |].
    assert (E : Qltb y 0 = false) by (apply Qltb_ge; lra). rewrite E.
    apply round_magnitude_nonneg. lra.
  - assert (Hx : ~ (x == 0)%Q) by (intros H; apply Qeq_bool_iff in H; congruence).
    destruct (Qltb x 0) eqn:Ex.
    + apply Qltb_lt in Ex.
      destruct (Qeq_bool y 0) eqn:Ey0.
      * pose proof (round_magnitude_nonneg (- x) ltac:(lra)). lra.
      * assert (Hy : ~ (y == 0)%Q) by (intros H; apply Qeq_bool_iff in H; congruence).
        destruct (Qltb y 0) eqn:Ey.
        -- apply Qltb_lt in Ey.
           pose proof (round_magnitude_mono (- y) (- x) ltac:(lra) ltac:(lra)). lra.
        -- apply Qltb_ge in Ey.
           pose proof (round_magnitude_nonneg (- x) ltac:(lra)).
           pose proof (round_magnitude_nonneg y ltac:(lra)). lra.
    + apply Qltb_ge in Ex.
      assert (Hxp : (0 < x)%Q) by lra.
      assert (Ey0 : Qeq_bool y 0 = false).
      { apply not_true_is_false. intros H. apply Qeq_bool_iff in H. lra. }
      rewrite Ey0.
      assert (Ey : Qltb y 0 = false) by (apply Qltb_ge; lra). rewrite Ey.
      by apply round_magnitude_mono.
Qed.

End RoundingProps.

Section MailboxProps.
Import Fipa.

Lemma add_to_inbox_room (q : MessageQueue) (m : FIPAMessage) :
  (Z.of_nat (length (inbox q)) < max_size q)%Z ->
  add_to_inbox q m = Ok (set_inbox q (inbox q ++ [m])).
Proof.
  intros H. unfold add_to_inbox.
  destruct (Z.ltb_spec (Z.of_nat (length (inbox q))) (max_size q)); [done | lia].
Qed.

Lemma add_to_inbox_full (q : MessageQueue) (m : FIPAMessage) :
  (1 <= max_size q)%Z ->
  Z.of_nat (length (inbox q)) = max_size q ->
  add_to_inbox q m = Ok (set_inbox q (tail (inbox q) ++ [m])).
Proof.
  intros Hpos Hfull. unfold add_to_inbox.
  destruct (Z.ltb_spec (Z.of_nat (length (inbox q))) (max_size q)); [lia |].
  destruct (inbox q) as [| x rest]; simpl in *; [lia | done].
Qed.

(** One addition to a queue within a positive capacity succeeds and
    keeps the capacity and the bound. *)
Lemma add_to_inbox_bounded (q : MessageQueue) (m : FIPAMessage) :
  (1 <= max_size q)%Z ->
  (Z.of_nat (length (inbox q)) <= max_size q)%Z ->
  exists q', add_to_inbox q m = Ok q' /\
             max_size q' = max_size q /\
             (Z.of_nat (length (inbox q')) <= max_size q)%Z /\
             last (inbox q') = Some m.
Proof.
  intros Hpos Hle.
  destruct (Z.eq_dec (Z.of_nat (length (inbox q))) (max_size q)) as [Hfull | Hroom].
  - eexists. split; [by apply add_to_inbox_full |].
    simpl. split; [done |]. rewrite last_snoc. split; [| done].
    rewrite length_app. simpl.
    destruct (inbox q); simpl in *; lia.
  - eexists. split; [apply add_to_inbox_room; lia |].
    simpl. split; [done |]. rewrite last_snoc. split; [| done].
    rewrite length_app. simpl. lia.
Qed.

Lemma add_all_bounded (ms : list FIPAMessage) : forall q : MessageQueue,
  (1 <= max_size q)%Z ->
  (Z.of_nat (length (inbox q)) <= max_size q)%Z ->
  exists q', add_all q ms = Ok q' /\
             max_size q' = max_size q /\
             (Z.of_nat (length (inbox q')) <= max_size q)%Z.
Proof.
  induction ms as [| m ms IH]; intros q Hpos Hle.
  - exists q. by simpl.
  - destruct (add_to_inbox_bounded q m Hpos Hle) as (q1 & Hadd & Hcap & Hlen & _).
    destruct (IH q1) as (q2 & Hall & Hcap2 & Hlen2); [lia | lia |].
    exists q2. simpl. rewrite Hadd. simpl. rewrite Hall.
    split; [done |]. split; lia.
Qed.

(** C6 (as stated, for every capacity) fails: a queue of capacity 0 is
    "full" while empty, and the eviction [pop(0)] raises [IndexError], so
    the message is not taken in. *)
Lemma C6_capacity_zero_refuses : ~ inbox_contract 0.
Proof.
  intros H.
  destruct (H [] (FIPAMessage_init 0 0 "a" "b" "inform" ∅ None None None None))
    as (q & q' & Hq & _ & Hadd & _).
  simpl in Hq. injection Hq as <-. discriminate Hadd.
Qed.

(** C6 (amended): for every mailbox of capacity [max_size >= 1] and every
    sequence of [add_to_inbox] calls on it, the inbox never holds more
    than [max_size] messages; an addition always succeeds and leaves the
    new message last; on a full inbox it drops the first (oldest) entry,
    otherwise it only appends. *)
Theorem C6_inbox_bounded_evicts_oldest (capacity : Z) :
  (1 <= capacity)%Z -> inbox_contract capacity.
Proof.
  intros Hpos ms m.
  destruct (add_all_bounded ms (MessageQueue_init capacity)) as (q & Hall & Hcap & Hlen);
    [done | simpl; lia |].
  simpl in Hcap, Hlen.
  destruct (add_to_inbox_bounded q m) as (q' & Hadd & _ & Hlen' & Hlast); [lia | lia |].
  exists q, q'. rewrite Hcap in Hlen'.
  repeat split; try done.
  - intros Hfull. rewrite add_to_inbox_full in Hadd; [| lia | lia].
    by injection Hadd as <-.
  - intros Hroom. rewrite add_to_inbox_room in Hadd; [| lia].
    by injection Hadd as <-.
Qed.

Lemma C6_inbox_witness : inbox_contract 2.
Proof. apply (C6_inbox_bounded_evicts_oldest 2). lia. Defined.

End MailboxProps.

Section ReplyProps.
Import Fipa.

(** C7: for the message [M] at reference [m] and the reply [R] that
    [M.create_reply(performative, content)] returns, [R.sender] is
    [M.receiver], [R.receiver] is [M.sender], [R.reply_to] is
    [M.message_id], [R] carries [M]'s [conversation_id] and [protocol],
    and the object at [m] is still [M]; the reply is a new object. *)
Theorem C7_reply_identity (t_stamp t_id : Q) (st : ObjStore) (m : nat)
    (M : FIPAMessage) (perf : string) (body : PyDict) :
  st !! m = Some M ->
  exists (st' : ObjStore) (r : nat) (R : FIPAMessage),
    create_reply_at t_stamp t_id st m perf body = Some (st', r) /\
    st' !! r = Some R /\
    R = create_reply t_stamp t_id M perf body /\
    sender R = receiver M /\
    receiver R = sender M /\
    reply_to R = Some (message_id M) /\
    conversation_id R = conversation_id M /\
    protocol R = protocol M /\
    st' !! m = Some M /\
    r <> m.
Proof.
  intros Hm.
  exists (st ++ [create_reply t_stamp t_id M perf body]), (length st),
         (create_reply t_stamp t_id M perf body).
  unfold create_reply_at. rewrite Hm.
  pose proof (lookup_lt_Some _ _ _ Hm) as Hlt.
  repeat split; try done.
  - rewrite lookup_app_r; [| lia]. by rewrite Nat.sub_diag.
  - by rewrite lookup_app_l.
  - lia.
Qed.

Lemma C7_reply_witness :
  exists (st' : ObjStore) (r : nat) (R : FIPAMessage),
    create_reply_at 2 2 [FIPAMessage_init 1 1 "agent_1" "agent_2" "request" ∅ None None None None]
      0 "agree" ∅ = Some (st', r) /\
    st' !! r = Some R /\
    R = create_reply 2 2
          (FIPAMessage_init 1 1 "agent_1" "agent_2" "request" ∅ None None None None)
          "agree" ∅ /\
    sender R = "agent_2" /\
    receiver R = "agent_1" /\
    reply_to R = Some "msg_1000" /\
    conversation_id R = None /\
    protocol R = None /\
    st' !! 0%nat = Some (FIPAMessage_init 1 1 "agent_1" "agent_2" "request" ∅ None None None None) /\
    r <> 0%nat.
Proof.
  exact (C7_reply_identity 2 2
           [FIPAMessage_init 1 1 "agent_1" "agent_2" "request" ∅ None None None None]
           0 (FIPAMessage_init 1 1 "agent_1" "agent_2" "request" ∅ None None None None)
           "agree" ∅ eq_refl).
Defined.

End ReplyProps.

Section RoutingProps.
Import Routing.

Variable fsqrt : Q -> Q.

(** The position stored for a node identifier, if any. *)
Lemma alter_keeps_position (f : Node -> Node) (a k : string) (ns : gmap string Node) :
  (forall n, position (f n) = position n) ->
  position <$> (alter f a ns !! k) = position <$> (ns !! k).
Proof.
  intros Hf. rewrite lookup_alter. case_decide as Hak; [| done].
  subst k. destruct (ns !! a) as [n |]; simpl; [| done]. by rewrite Hf.
Qed.

Lemma add_edge_keeps_positions (net : RoadNetwork) (a b k : string) (w : option Q) :
  position <$> (nodes (fst (add_edge fsqrt net a b w)) !! k) = position <$> (nodes net !! k).
Proof.
  unfold add_edge.
  destruct (nodes net !! a) as [na |] eqn:Ha; [| done].
  destruct (nodes net !! b) as [nb |] eqn:Hb; [| done].
  simpl. by rewrite !alter_keeps_position.
Qed.

Lemma remove_edge_keeps_positions (net : RoadNetwork) (a b k : string) :
  position <$> (nodes (remove_edge net a b) !! k) = position <$> (nodes net !! k).
Proof.
  unfold remove_edge.
  destruct (nodes net !! a) as [na |] eqn:Ha; [| done].
  destruct (nodes net !! b) as [nb |] eqn:Hb; [| done].
  simpl. by rewrite !alter_keeps_position.
Qed.

Lemma restore_loop_keeps_positions (now : Q) (l : list (string * string * Q)) :
  forall (net : RoadNetwork) (sb : list (string * string * Q)) (k : string),
  position <$> (nodes (fst (restore_loop fsqrt now l net sb)) !! k)
  = position <$> (nodes net !! k).
Proof.
  induction l as [| [[a b] e] l IH]; intros net sb k; simpl; [done |].
  destruct (Qleb e now).
  - rewrite IH. apply add_edge_keeps_positions.
  - apply IH.
Qed.

Lemma restore_loop_app (now : Q) (l1 l2 : list (string * string * Q)) :
  forall (net : RoadNetwork) (sb : list (string * string * Q)),
  restore_loop fsqrt now (l1 ++ l2) net sb
  = restore_loop fsqrt now l2 (fst (restore_loop fsqrt now l1 net sb))
                               (snd (restore_loop fsqrt now l1 net sb)).
Proof.
  induction l1 as [| [[a b] e] l1 IH]; intros net sb; simpl; [done |].
  destruct (Qleb e now); apply IH.
Qed.

(** [add_edge] without a weight writes the Euclidean distance on both
    endpoints and in the graph. *)
Lemma add_edge_default_weight (net : RoadNetwork) (a b : string) (na nb : Node) :
  nodes net !! a = Some na ->
  nodes net !! b = Some nb ->
  let e := euclidean_distance fsqrt (position na) (position nb) in
  let net' := fst (add_edge fsqrt net a b None) in
  (exists na', nodes net' !! a = Some na' /\ neighbors na' !! b = Some e) /\
  (exists nb', nodes net' !! b = Some nb' /\ neighbors nb' !! a = Some e) /\
  adj_of (graph net') a !! b = Some e.
Proof.
  intros Ha Hb e net'. subst net'. unfold add_edge. rewrite Ha, Hb. simpl.
  fold e. split; [| split].
  - rewrite lookup_alter. case_decide as Hba.
    + subst b. rewrite lookup_alter_eq, Ha. simpl.
      eexists. split; [done |]. simpl. by rewrite lookup_insert_eq.
    + rewrite lookup_alter_eq, Ha. simpl.
      eexists. split; [done |]. simpl. by rewrite lookup_insert_eq.
  - rewrite lookup_alter_eq. rewrite lookup_alter. case_decide as Hab.
    + subst b. rewrite Ha. simpl.
      eexists. split; [done |]. simpl. by rewrite lookup_insert_eq.
    + rewrite Hb. simpl.
      eexists. split; [done |]. simpl. by rewrite lookup_insert_eq.
  - unfold adj_of, nx_add_edge. simpl.
    rewrite lookup_insert. case_decide as Hba.
    + subst b. simpl. by rewrite lookup_insert_eq.
    + rewrite lookup_insert_eq. simpl. by rewrite lookup_insert_eq.
Qed.

(** A blockage takes the entry out of the neighbour table. *)
Lemma blockage_removes_edge (net : RoadNetwork) (u v : string) (nu nv : Node) (expiry : Q) :
  nodes net !! u = Some nu ->
  nodes net !! v = Some nv ->
  exists n, nodes (add_temporary_blockage net u v expiry) !! u = Some n /\
            neighbors n !! v = None.
Proof.
  intros Hu Hv. unfold add_temporary_blockage, remove_edge. rewrite Hu, Hv. simpl.
  rewrite lookup_alter. case_decide as Hvu.
  - subst v. rewrite lookup_alter_eq, Hu. simpl.
    eexists. split; [done |]. simpl. by rewrite lookup_delete_eq.
  - rewrite lookup_alter_eq, Hu. simpl.
    eexists. split; [done |]. simpl. by rewrite lookup_delete_eq.
Qed.

(** C10: in a network where [u] and [v] are joined by an edge of weight
    [w], [add_temporary_blockage(u, v, expiry)] removes the edge, and a
    later [restore_expired_blockages(now)] with [now >= expiry] puts it
    back, on both endpoints and in the graph, with the Euclidean distance
    between the two positions as its weight: the square root of the sum
    of the squares of the two coordinate differences.  The weight is [w]
    again only if [w] was that distance. *)
Theorem C10_restore_resets_weight (net : RoadNetwork) (u v : string)
    (nu nv : Node) (w expiry now : Q) :
  nodes net !! u = Some nu ->
  nodes net !! v = Some nv ->
  neighbors nu !! v = Some w ->
  (expiry <= now)%Q ->
  let blocked := add_temporary_blockage net u v expiry in
  let restored := restore_expired_blockages fsqrt blocked now in
  let e := fsqrt ((fst (position nu) - fst (position nv)) ^ 2
                  + (snd (position nu) - snd (position nv)) ^ 2)%Q in
  (exists n, nodes blocked !! u = Some n /\ neighbors n !! v = None) /\
  (exists nu', nodes restored !! u = Some nu' /\ neighbors nu' !! v = Some e) /\
  (exists nv', nodes restored !! v = Some nv' /\ neighbors nv' !! u = Some e) /\
  adj_of (graph restored) u !! v = Some e /\
  (~ (w == e)%Q ->
   forall nu', nodes restored !! u = Some nu' -> neighbors nu' !! v <> Some w).
Proof.
  intros Hu Hv Hw Hexp blocked restored e.
  assert (Hgone : exists n, nodes blocked !! u = Some n /\ neighbors n !! v = None)
    by (by eapply blockage_removes_edge).
  set (old := default [] (temporary_blockages net)).
  set (net0 := remove_edge net u v).
  set (mid := restore_loop fsqrt now old
                {| nodes := nodes net0; graph := graph net0;
                   grid_size := grid_size net0;
                   temporary_blockages := Some (old ++ [(u, v, expiry)]) |} []).
  assert (Hpos : forall k, position <$> (nodes (fst mid) !! k) = position <$> (nodes net !! k)).
  { intros k. unfold mid. rewrite restore_loop_keeps_positions. simpl.
    apply remove_edge_keeps_positions. }
  assert (Hres : nodes restored = nodes (fst (add_edge fsqrt (fst mid) u v None))
                 /\ graph restored = graph (fst (add_edge fsqrt (fst mid) u v None))).
  { unfold restored, restore_expired_blockages, blocked, add_temporary_blockage.
    simpl. fold old net0. rewrite restore_loop_app. fold mid. simpl.
    assert (Hq : Qleb expiry now = true) by (by apply Qle_bool_iff).
    rewrite Hq.
    destruct (add_edge fsqrt (fst mid) u v None) as [net2 ok]. by simpl. }
  destruct Hres as [Hnodes Hgraph].
  pose proof (Hpos u) as Hpu. rewrite Hu in Hpu.
  pose proof (Hpos v) as Hpv. rewrite Hv in Hpv.
  destruct (nodes (fst mid) !! u) as [mu |] eqn:Hmu; [| done].
  destruct (nodes (fst mid) !! v) as [mv |] eqn:Hmv; [| done].
  simpl in Hpu, Hpv. injection Hpu as Hpu. injection Hpv as Hpv.
  destruct (add_edge_default_weight (fst mid) u v mu mv Hmu Hmv) as (Hnu & Hnv & Hg).
  rewrite Hpu, Hpv in Hnu, Hnv, Hg.
  change (euclidean_distance fsqrt (position nu) (position nv)) with e in Hnu, Hnv, Hg.
  rewrite <- Hnodes in Hnu, Hnv. rewrite <- Hgraph in Hg.
  split; [done |]. split; [done |]. split; [done |]. split; [done |].
  intros Hne nu' Hnu'. destruct Hnu as (n & Hn & Hedge).
  rewrite Hnu' in Hn. injection Hn as <-. rewrite Hedge.
  intros Heq. injection Heq as Heq. apply Hne. by rewrite Heq.
Qed.

End RoutingProps.

Section RoutingExamples.
Import Routing Examples.

(** On the example the edge of weight 7 between two nodes 5 m apart is
    blocked until 30 and restored at 45: it comes back with the distance
    as its weight, not with 7. *)
Lemma C10_detour_witness :
  (exists nu', nodes (restore_expired_blockages sqrt_floor
                        (add_temporary_blockage detour_net "a" "b" 30) 45) !! "a" = Some nu' /\
               neighbors nu' !! "b" = Some (sqrt_floor ((0 - 3) ^ 2 + (0 - 4) ^ 2))) /\
  (forall nu', nodes (restore_expired_blockages sqrt_floor
                        (add_temporary_blockage detour_net "a" "b" 30) 45) !! "a" = Some nu' ->
               neighbors nu' !! "b" <> Some 7%Q).
Proof.
  destruct (C10_restore_resets_weight sqrt_floor detour_net "a" "b"
              {| position := (0%Q, 0%Q); id := "a"; neighbors := {[ "b" := 7%Q ]} |}
              {| position := (3%Q, 4%Q); id := "b"; neighbors := {[ "a" := 7%Q ]} |}
              7 30 45)
    as (_ & Hback & _ & _ & Hnot).
  - reflexivity.
  - reflexivity.
  - reflexivity.
  - vm_compute. discriminate.
  - split; [exact Hback |].
    apply Hnot. intros H. vm_compute in H. discriminate H.
Defined.

(** On the example the edge of weight 7 comes back with weight 5. *)
Example detour_restored_weight :
  exists n, nodes (restore_expired_blockages sqrt_floor
                     (add_temporary_blockage detour_net "a" "b" 30) 45) !! "a" = Some n /\
            neighbors n !! "b" = Some 5%Q.
Proof. eexists. split; [vm_compute; reflexivity | vm_compute; reflexivity]. Qed.

End RoutingExamples.

Section HeuristicProps.
Import Routing Examples.

(** Beyond 5 km the first test already succeeds, so the branch for
    distances beyond 10 km is never taken: the factor is 1.30 up to 5 km
    and 1.15 above. *)
Lemma osm_factor_two_values (d : Q) :
  osm_correction_factor d = if Qltb 5000 d then 115 # 100 else 13 # 10.
Proof.
  unfold osm_correction_factor.
  destruct (Qltb 5000 d) eqn:H5; [done |].
  destruct (Qltb 10000 d) eqn:H10; [| done].
  unfold Qltb in *. apply negb_false_iff, Qle_bool_iff in H5.
  apply negb_true_iff in H10.
  assert (Hle : (d <= 10000)%Q) by lra.
  apply Qle_bool_iff in Hle. congruence.
Qed.

Lemma osm_factor_beyond_10km (d : Q) :
  (10000 < d)%Q -> osm_correction_factor d = 115 # 100.
Proof.
  intros Hd. rewrite osm_factor_two_values.
  destruct (Qltb 5000 d) eqn:H5; [done |].
  unfold Qltb in H5. apply negb_false_iff, Qle_bool_iff in H5. lra.
Qed.

(** The heuristic of a node is its Euclidean distance to the goal times
    1.30 up to 5 km and times 1.15 beyond, whatever the square root. *)
Lemma heuristic_value (fsqrt : Q -> Q) (net : RoadNetwork) (goal_id node_id : string)
    (node goal : Node) :
  nodes net !! node_id = Some node ->
  nodes net !! goal_id = Some goal ->
  let d := euclidean_distance fsqrt (position node) (position goal) in
  heuristic fsqrt net goal_id node_id
  = Ok (d * (if Qltb 5000 d then 115 # 100 else 13 # 10))%Q.
Proof.
  intros Hn Hg d. unfold heuristic. rewrite Hn, Hg.
  fold d. by rewrite osm_factor_two_values.
Qed.

(** The far node of the example network. *)
Lemma far_heuristic_value :
  heuristic sqrt_floor far_net "goal" "far"
  = Ok (euclidean_distance sqrt_floor (0, 0) (12000, 0)
        * (if Qltb 5000 (euclidean_distance sqrt_floor (0, 0) (12000, 0))
           then 115 # 100 else 13 # 10))%Q.
Proof.
  apply (heuristic_value sqrt_floor far_net "goal" "far"
           (Node_init (0%Q, 0%Q) "far") (Node_init (12000%Q, 0%Q) "goal"));
    reflexivity.
Defined.

(** C4 (code defect): for a node 12 km from the goal the heuristic is the
    distance times 1.15, not times 1.10. *)
Theorem C4_far_node_heuristic :
  exists h : Q,
    heuristic sqrt_floor far_net "goal" "far" = Ok h /\
    euclidean_distance sqrt_floor (0%Q, 0%Q) (12000%Q, 0%Q) = 12000%Q /\
    (h == 12000 * (115 # 100))%Q /\
    ~ (h == 12000 * (110 # 100))%Q.
Proof.
  eexists. split; [vm_compute; reflexivity |].
  split; [vm_compute; reflexivity |].
  split; [reflexivity | intros H; vm_compute in H; discriminate H].
Qed.

End HeuristicProps.

Section VehicleProps.
Import Fipa Bdi Vehicle Examples.

Variable fsqrt : Q -> Q.

(** C9: when the router returns no route for a [ChangeRoute] intention,
    the intention fails and the vehicle is left as it was: same
    [current_route], same [current_waypoint_index], same
    [route_changes]. *)
Theorem C9_no_route_keeps_previous (m : Model) (v : VehicleAgent) (intention : Intention)
    (router : Pos -> Pos -> option (list Pos)) :
  i_type intention = CHANGE_ROUTE ->
  calculate_route m = Some router ->
  router (position v) (destination v) = None ->
  exists v' : VehicleAgent,
    execute_intention fsqrt m v intention = (v', false) /\
    v' = v /\
    current_route v' = current_route v /\
    current_waypoint_index v' = current_waypoint_index v /\
    route_changes v' = route_changes v.
Proof.
  intros Hty Hrouter Hnone. exists v.
  split; [| done].
  unfold execute_intention. rewrite Hty.
  unfold recalculate_route. rewrite Hrouter, Hnone.
  destruct (get_belief (beliefs v) TRAFFIC_STATE) as [| | | | | d]; simpl; try done.
  by destruct (as_number (dict_get d "congestion_level" (PNum 0))).
Qed.

(** An empty route is as good as none. *)
Lemma empty_route_keeps_previous (m : Model) (v : VehicleAgent) (intention : Intention)
    (router : Pos -> Pos -> option (list Pos)) :
  i_type intention = CHANGE_ROUTE ->
  calculate_route m = Some router ->
  router (position v) (destination v) = Some [] ->
  execute_intention fsqrt m v intention = (v, false).
Proof.
  intros Hty Hrouter Hnone.
  unfold execute_intention. rewrite Hty.
  unfold recalculate_route. rewrite Hrouter, Hnone.
  destruct (get_belief (beliefs v) TRAFFIC_STATE) as [| | | | | d]; simpl; try done.
  by destruct (as_number (dict_get d "congestion_level" (PNum 0))).
Qed.

(** No message built by the constructor carries the performative
    ["INFORM"]: [__post_init__] has replaced it by ["inform"]. *)
Lemma post_init_never_upper (p : string) : post_init_performative p <> "INFORM".
Proof.
  unfold post_init_performative.
  destruct (Performative_of (lower p)) as [e |] eqn:He.
  - by destruct e.
  - intros ->. vm_compute in He. discriminate He.
Qed.

(** Whatever message the constructor builds, and so every [inform]
    about congestion or an incident, the vehicle's handler returns the
    vehicle as it was. *)
Lemma constructed_message_ignored (m : Model) (v : VehicleAgent) (t_stamp t_id : Q)
    (from to perf : string) (body : PyDict)
    (onto proto conv reply : option string) :
  handle_message m v
    (FIPAMessage_init t_stamp t_id from to perf body onto proto conv reply) = Ok v.
Proof.
  unfold handle_message. simpl.
  rewrite bool_decide_eq_false_2; [done | apply post_init_never_upper].
Qed.

(** C3 (code defect): the incident notice of the scenario is an [inform]
    that reports congestion level 1.0 with reason [incident]; the vehicle
    that handles it, and processes an inbox holding it, is left as it
    was: no congestion belief is stored and no route is recalculated. *)
Theorem C3_incident_notice_ignored :
  performative incident_notice = "inform" /\
  content incident_notice !! "congestion_level" = Some (PNum 1) /\
  content incident_notice !! "reason" = Some (PStr "incident") /\
  handle_message no_path_model car incident_notice = Ok car /\
  process_messages no_path_model car [incident_notice] = Ok car /\
  get_belief (beliefs car) CONGESTION = PNone /\
  route_changes car = 0%Z.
Proof.
  assert (H : handle_message no_path_model car incident_notice = Ok car)
    by apply constructed_message_ignored.
  repeat split; try reflexivity; try exact H.
Qed.

(** Were the performative test passed, an active vehicle told of an
    incident would stop on the missing attribute [route] before any
    recalculation. *)
Lemma active_vehicle_raises (m : Model) (v : VehicleAgent) (msg : FIPAMessage) (level : Q) :
  performative msg = "INFORM" ->
  dict_has (content msg) "congestion" = true ->
  content msg !! "congestion_level" = Some (PNum level) ->
  content msg !! "reason" = Some (PStr "incident") ->
  active v = true ->
  handle_message m v msg = Raise AttributeError.
Proof.
  intros Hp Hk Hl Hr Ha. unfold handle_message.
  rewrite Hp, Hk. simpl. unfold dict_get. rewrite Hl, Hr. simpl.
  rewrite orb_true_r.
  destruct v. simpl in *. by rewrite Ha.
Qed.

Example raw_notice_raises :
  handle_message no_path_model car raw_notice = Raise AttributeError.
Proof. by apply (active_vehicle_raises _ _ _ 1). Qed.

End VehicleProps.

Section VehicleExamples.
Import Bdi Vehicle Examples.

Lemma C9_no_route_witness :
  exists v' : VehicleAgent,
    execute_intention Routing.sqrt_floor no_path_model car change_route = (v', false) /\
    v' = car /\
    current_route v' = current_route car /\
    current_waypoint_index v' = current_waypoint_index car /\
    route_changes v' = route_changes car.
Proof.
  exact (C9_no_route_keeps_previous Routing.sqrt_floor no_path_model car change_route
           (fun _ _ => None) eq_refl eq_refl eq_refl).
Defined.

End VehicleExamples.

Section CnpProps.
Import Fipa Crisis Examples.

(** [max] with a key returns a member that no member exceeds. *)
Lemma best_of_spec (rest : list Proposal) : forall first : Proposal,
  best_of first rest ∈ first :: rest /\
  forall p, p ∈ first :: rest -> (availability p <= availability (best_of first rest))%Q.
Proof.
  unfold best_of.
  induction rest as [| x rest IH]; intros first; cbn [foldl].
  - split; [by left |]. intros p ->%list_elem_of_singleton. lra.
  - destruct (IH (if Qltb (availability first) (availability x) then x else first))
      as [Hin Hmax].
    split.
    + apply elem_of_cons in Hin as [-> | Hin].
      * destruct (Qltb _ _); [right; by left | by left].
      * right. by right.
    + intros p Hp.
      assert (Hstep : (availability first
                       <= availability (if Qltb (availability first) (availability x)
                                        then x else first))%Q /\
                      (availability x
                       <= availability (if Qltb (availability first) (availability x)
                                        then x else first))%Q).
      { destruct (Qltb _ _) eqn:E; [apply Qltb_lt in E | apply Qltb_ge in E]; lra. }
      destruct Hstep as [H1 H2].
      pose proof (Hmax _ (list_elem_of_here _ _)) as Hhead.
      apply elem_of_cons in Hp as [-> | [-> | Hp]%elem_of_cons].
      * lra.
      * lra.
      * apply Hmax. by right.
Qed.

Lemma nodup_fmap_member {A B : Type} (f : A -> B) (l : list A) (x y : A) :
  NoDup (f <$> l) -> x ∈ l -> y ∈ l -> f x = f y -> x = y.
Proof.
  induction l as [| a l IH]; intros Hnd Hx Hy Hf; [by apply elem_of_nil in Hx |].
  rewrite fmap_cons in Hnd. apply NoDup_cons in Hnd as [Hnot Hnd].
  apply elem_of_cons in Hx as [-> | Hx]; apply elem_of_cons in Hy as [-> | Hy].
  - done.
  - destruct Hnot. rewrite Hf. by apply list_elem_of_fmap_2.
  - destruct Hnot. rewrite <- Hf. by apply list_elem_of_fmap_2.
  - by apply IH.
Qed.

(** The inbox [get_agent_by_id] reaches after a [receive_message]. *)
Lemma deliver_inbox (w : Schedule) (agent_id uid : string) (message : FIPAMessage) :
  snd <$> List.find (fun e => bool_decide (fst e = uid)) (deliver w agent_id message)
  = if bool_decide (uid = agent_id)
    then (fun inbox => inbox ++ [message])
           <$> (snd <$> List.find (fun e => bool_decide (fst e = uid)) w)
    else snd <$> List.find (fun e => bool_decide (fst e = uid)) w.
Proof.
  induction w as [| [a inbox] rest IH]; simpl.
  - by case_bool_decide.
  - destruct (bool_decide (a = agent_id)) eqn:Ea; simpl.
    + apply bool_decide_eq_true in Ea. subst a.
      destruct (bool_decide (agent_id = uid)) eqn:Eu.
      * apply bool_decide_eq_true in Eu. subst uid.
        by rewrite bool_decide_eq_true_2.
      * apply bool_decide_eq_false in Eu.
        by rewrite bool_decide_eq_false_2 by (intros ->; done).
    + destruct (bool_decide (a = uid)) eqn:Eu; [| exact IH].
      apply bool_decide_eq_true in Eu. subst a.
      apply bool_decide_eq_false in Ea.
      by rewrite bool_decide_eq_false_2.
Qed.

Lemma deliver_agents (w : Schedule) (agent_id : string) (message : FIPAMessage) :
  fst <$> deliver w agent_id message = fst <$> w.
Proof.
  induction w as [| [a inbox] rest IH]; simpl; [done |].
  case_bool_decide; rewrite !fmap_cons; [done |]. by rewrite IH.
Qed.

Lemma replies_agents (reply : Proposal -> FIPAMessage) (proposals : list Proposal) :
  forall w : Schedule,
  fst <$> foldl (fun acc p => deliver acc (p_sender p) (reply p)) w proposals = fst <$> w.
Proof.
  induction proposals as [| q rest IH]; intros w; simpl; [done |].
  by rewrite IH, deliver_agents.
Qed.

Lemma replies_pass_by (reply : Proposal -> FIPAMessage) (proposals : list Proposal)
    (uid : string) :
  (forall p, p ∈ proposals -> p_sender p <> uid) ->
  forall w : Schedule,
  snd <$> List.find (fun e => bool_decide (fst e = uid))
            (foldl (fun acc p => deliver acc (p_sender p) (reply p)) w proposals)
  = snd <$> List.find (fun e => bool_decide (fst e = uid)) w.
Proof.
  induction proposals as [| q rest IH]; intros Hno w; simpl; [done |].
  rewrite IH by (intros p Hp; apply Hno; by right).
  rewrite deliver_inbox, bool_decide_eq_false_2; [done |].
  intros ->. by apply (Hno q); [left |].
Qed.

Lemma replies_reach (reply : Proposal -> FIPAMessage) (proposals : list Proposal)
    (p : Proposal) :
  NoDup (p_sender <$> proposals) -> p ∈ proposals ->
  forall w : Schedule,
  snd <$> List.find (fun e => bool_decide (fst e = p_sender p))
            (foldl (fun acc p => deliver acc (p_sender p) (reply p)) w proposals)
  = (fun inbox => inbox ++ [reply p])
      <$> (snd <$> List.find (fun e => bool_decide (fst e = p_sender p)) w).
Proof.
  induction proposals as [| q rest IH]; intros Hnd Hin w; [by apply elem_of_nil in Hin |].
  rewrite fmap_cons in Hnd. apply NoDup_cons in Hnd as [Hnot Hnd].
  simpl. apply elem_of_cons in Hin as [-> | Hin].
  - rewrite replies_pass_by.
    + by rewrite deliver_inbox, bool_decide_eq_true_2.
    + intros p Hp E. apply Hnot. rewrite <- E. by apply list_elem_of_fmap_2.
  - rewrite IH by done.
    rewrite deliver_inbox, bool_decide_eq_false_2; [done |].
    intros E. apply Hnot. rewrite <- E. by apply list_elem_of_fmap_2.
Qed.

(** What [_evaluate_cnp_proposal] does right: once the conversation holds
    two or more bids from distinct senders, one bid of maximal
    availability is the best; every bidder found in the schedule has one
    message more at the end of its inbox, sent by the manager to it in
    this conversation, the [accept-proposal] exactly for the best bid and
    a [reject-proposal] for every other; a bidder that is not in the
    schedule gets nothing, the inboxes of the other agents are as they
    were, and the conversation is forgotten. *)
Lemma evaluate_cnp_arbitrates (t_stamp t_id : Q) (self : CrisisManagerAgent)
    (w : Schedule) (message : FIPAMessage) :
  let key := conversation_key message in
  let entry :=
    {| p_sender := sender message;
       availability := get_number (content message) "availability" 0;
       current_load := get_number (content message) "current_load" 0;
       p_message := message |} in
  let proposals := default [] (cnp_proposals self !! key) ++ [entry] in
  let inbox_of := fun (agents : Schedule) (uid : string) =>
    snd <$> List.find (fun agent => bool_decide (fst agent = uid)) agents in
  let after := evaluate_cnp_proposal t_stamp t_id self w message in
  (2 <= length proposals)%nat ->
  NoDup (p_sender <$> proposals) ->
  exists best : Proposal,
    best ∈ proposals /\
    (forall p, p ∈ proposals -> (availability p <= availability best)%Q) /\
    (forall p, p ∈ proposals ->
       exists reply : FIPAMessage,
         inbox_of (snd after) (p_sender p)
         = (fun inbox => inbox ++ [reply]) <$> inbox_of w (p_sender p) /\
         reply = cnp_reply t_stamp t_id self key best p /\
         sender reply = unique_id self /\
         receiver reply = p_sender p /\
         conversation_id reply = Some key /\
         (performative reply = "accept-proposal" <-> p = best) /\
         (performative reply = "reject-proposal" <-> p <> best)) /\
    (forall uid, (forall p, p ∈ proposals -> p_sender p <> uid) ->
       inbox_of (snd after) uid = inbox_of w uid) /\
    fst <$> snd after = fst <$> w /\
    fst after = set_cnp_proposals self (delete key (cnp_proposals self)) /\
    cnp_proposals (fst after) !! key = None.
Proof.
  intros key entry proposals inbox_of after Hlen Hnd.
  unfold after, evaluate_cnp_proposal. fold key entry proposals.
  destruct proposals as [| first [| second rest]] eqn:E; simpl in Hlen; try lia.
  destruct (best_of_spec (second :: rest) first) as [Hin Hmax].
  set (best := best_of first (second :: rest)) in *.
  exists best.
  split; [done |]. split; [done |]. cbn [fst snd]. split; [| split; [| split; [| split]]].
  - intros p Hp. exists (cnp_reply t_stamp t_id self key best p).
    split.
    { unfold inbox_of.
      apply (replies_reach (cnp_reply t_stamp t_id self key best)
               (first :: second :: rest) p Hnd Hp w). }
    split; [done |].
    unfold cnp_reply.
    destruct (bool_decide (p_sender p = p_sender best)) eqn:Hs.
    + apply bool_decide_eq_true in Hs.
      assert (p = best)
        by (by apply (nodup_fmap_member p_sender (first :: second :: rest))).
      split; [done |]. split; [done |]. split; [done |]. split; [done |].
      split; [done |]. intros Hne. by destruct Hne.
    + apply bool_decide_eq_false in Hs.
      assert (p <> best) by (intros ->; by destruct Hs).
      split; [done |]. split; [done |]. split; [done |]. split; [| done].
      split; [done |]. done.
  - intros uid Hno. unfold inbox_of.
    apply (replies_pass_by (cnp_reply t_stamp t_id self key best)
             (first :: second :: rest) uid Hno w).
  - apply (replies_agents (cnp_reply t_stamp t_id self key best)
             (first :: second :: rest) w).
  - done.
  - simpl. apply lookup_delete_eq.
Qed.

(** The second bid of the example conversation closes it: the first
    contractor finds the rejection in its inbox, the second the award. *)
Lemma arbitration_forgets_conversation :
  exists rejection award : FIPAMessage,
    snd <$> List.find (fun agent => bool_decide (fst agent = "intersection_1"))
              (snd arbitration) = Some [rejection] /\
    performative rejection = "reject-proposal" /\
    receiver rejection = "intersection_1" /\
    snd <$> List.find (fun agent => bool_decide (fst agent = "intersection_2"))
              (snd arbitration) = Some [award] /\
    performative award = "accept-proposal" /\
    receiver award = "intersection_2" /\
    snd <$> List.find (fun agent => bool_decide (fst agent = "crisis_manager"))
              (snd arbitration) = None /\
    cnp_proposals (fst arbitration) !! conversation_key (bid "intersection_2" (9 # 10))
    = None.
Proof.
  set (m1 := fst (handle_message 42 42 manager contractors (bid "intersection_1" (1 # 2)))).
  set (w1 := snd (handle_message 42 42 manager contractors (bid "intersection_1" (1 # 2)))).
  set (after := evaluate_cnp_proposal 43 43 m1 w1 (bid "intersection_2" (9 # 10))).
  change arbitration with after.
  destruct (evaluate_cnp_arbitrates 43 43 m1 w1 (bid "intersection_2" (9 # 10)))
    as (best & Hin & Hmax & Hreply & Hother & _ & _ & Hgone).
  - vm_compute. lia.
  - apply (bool_decide_unpack _). vm_compute. reflexivity.
  - fold after in Hreply, Hother, Hgone.
    set (p1 := {| p_sender := "intersection_1"; availability := 1 # 2;
                  current_load := 4; p_message := bid "intersection_1" (1 # 2) |}).
    set (p2 := {| p_sender := "intersection_2"; availability := 9 # 10;
                  current_load := 4; p_message := bid "intersection_2" (9 # 10) |}).
    match type of Hin with _ ∈ ?l =>
      assert (E : l = [p1; p2]) by (vm_compute; reflexivity);
      rewrite E in Hin, Hmax, Hreply, Hother; clear E
    end.
    assert (Hbest : best = p2).
    { apply elem_of_cons in Hin as [-> | Hin].
      - specialize (Hmax p2 (list_elem_of_further _ _ _ (list_elem_of_here _ _))).
        vm_compute in Hmax. by destruct Hmax.
      - by apply list_elem_of_singleton in Hin. }
    subst best.
    destruct (Hreply p1 (list_elem_of_here _ _))
      as (rejection & Hr & _ & _ & Hr_to & _ & _ & Hr_rej).
    destruct (Hreply p2 (list_elem_of_further _ _ _ (list_elem_of_here _ _)))
      as (award & Ha & _ & _ & Ha_to & _ & Ha_acc & _).
    exists rejection, award.
    split; [exact Hr |]. split; [by apply Hr_rej |]. split; [exact Hr_to |].
    split; [exact Ha |]. split; [by apply Ha_acc |]. split; [exact Ha_to |].
    split; [| exact Hgone].
    rewrite Hother; [reflexivity |].
    intros p Hp.
    apply elem_of_cons in Hp as [-> | Hp]; [done |].
    apply list_elem_of_singleton in Hp. by subst p.
Defined.

(** The award always names the direction ["north"]. *)
Lemma award_direction_constant (t_stamp t_id : Q) (self : CrisisManagerAgent)
    (conv : string) (best proposal : Proposal) :
  p_sender proposal = p_sender best ->
  performative (cnp_reply t_stamp t_id self conv best proposal) = "accept-proposal" /\
  content (cnp_reply t_stamp t_id self conv best proposal) !! "priority_direction"
    = Some (PStr "north").
Proof.
  intros Hs. unfold cnp_reply. rewrite bool_decide_eq_true_2; [| done].
  split; reflexivity.
Qed.

(** C5 (code defect): the call for proposals about an intersection whose
    worst queue is the eastern one names the direction ["east"]; after
    the two bids the better bidder receives the one [accept-proposal],
    the other a [reject-proposal], and the conversation is forgotten;
    but the award carries ["north"]. *)
Theorem C5_award_ignores_chosen_direction :
  content cfp !! "direction" = Some (PStr "east") /\
  map (fun entry =>
         (fst entry,
          map (fun msg => (performative msg, content msg !! "priority_direction"))
              (snd entry)))
      (snd arbitration)
  = [("intersection_1", [("reject-proposal", None)]);
     ("intersection_2", [("accept-proposal", Some (PStr "north"))])] /\
  cnp_proposals (fst arbitration) !! "default" = None.
Proof. split; [| split]; vm_compute; reflexivity. Qed.

End CnpProps.

Section LightProps.
Import Intersection.

(** Reading a dictionary after [for d in ds: m[d] = f(d)]. *)
Lemma assign_all_lookup {A : Type} (ds : list Direction) (f : Direction -> A) :
  forall (m : gmap Direction A) (k : Direction),
  assign_all ds f m !! k = if decide (k ∈ ds) then Some (f k) else m !! k.
Proof.
  unfold assign_all.
  induction ds as [| d ds IH]; intros m k; cbn [foldl].
  - destruct (decide (k ∈ [])) as [Hin | Hin]; [by apply elem_of_nil in Hin | done].
  - rewrite IH. destruct (decide (k ∈ ds)) as [Hin | Hin].
    + rewrite decide_True; [done | by right].
    + destruct (decide (k = d)) as [-> | Hne].
      * rewrite decide_True; [| by left]. by rewrite lookup_insert_eq.
      * rewrite decide_False; [by rewrite lookup_insert_ne |].
        intros [-> | H]%elem_of_cons; done.
Qed.

(** Reading the lights after one loop of [_force_green]. *)
Lemma force_group_lookup (c : TrafficLightState) (group : list Direction) :
  forall (lt : gmap Direction TrafficLightState * gmap Direction Q) (k : Direction),
  fst (force_group c group lt) !! k
  = if decide (k ∈ group /\ is_Some (fst lt !! k)) then Some c else fst lt !! k.
Proof.
  unfold force_group.
  induction group as [| d group IH]; intros lt k; cbn [foldl].
  - destruct (decide (k ∈ [] /\ is_Some (lt.1 !! k))) as [H | H]; [| done].
    destruct H as [H _]. by apply elem_of_nil in H.
  - rewrite IH. clear IH.
    destruct (decide (is_Some (fst lt !! d))) as [Hd | Hd].
    + rewrite bool_decide_eq_true_2; [| done]. cbn [fst snd].
      destruct (decide (k = d)) as [-> | Hne].
      * rewrite lookup_insert_eq.
        rewrite (decide_True (P := d ∈ d :: group /\ _)); [| split; [by left | done]].
        by destruct (decide _).
      * rewrite lookup_insert_ne; [| done].
        destruct (decide (k ∈ group ∧ is_Some (lt.1 !! k))) as [H1 | H1];
        destruct (decide (k ∈ d :: group ∧ is_Some (lt.1 !! k))) as [H2 | H2]; try done.
        -- destruct H2. destruct H1. split; [by right | done].
        -- destruct H1. destruct H2 as [[-> | Hin]%elem_of_cons Hs]; done.
    + rewrite bool_decide_eq_false_2; [| done].
      destruct (decide (k ∈ group ∧ is_Some (lt.1 !! k))) as [H1 | H1];
      destruct (decide (k ∈ d :: group ∧ is_Some (lt.1 !! k))) as [H2 | H2]; try done.
      * destruct H2. destruct H1. split; [by right | done].
      * destruct H1. destruct H2 as [[-> | Hin]%elem_of_cons Hs]; done.
Qed.

Lemma in_ns_or_ew (d : Direction) : in_ns d = negb (in_ew d).
Proof. by destruct d. Qed.

Lemma elem_of_ns_directions (s : IntersectionAgent) (d : Direction) :
  d ∈ ns_directions s <-> d ∈ directions s /\ in_ns d = true.
Proof.
  unfold ns_directions. rewrite !list_elem_of_In, filter_In. done.
Qed.

Lemma elem_of_ew_directions (s : IntersectionAgent) (d : Direction) :
  d ∈ ew_directions s <-> d ∈ directions s /\ in_ew d = true.
Proof.
  unfold ew_directions. rewrite !list_elem_of_In, filter_In. done.
Qed.

(** The colour every listed direction of a group shows. *)
Lemma all_lit_iff (s : IntersectionAgent) (group : list Direction) (c : TrafficLightState) :
  all_lit s group c = true <-> forall d, d ∈ group -> traffic_lights s !! d = Some c.
Proof.
  unfold all_lit. rewrite forallb_forall. split.
  - intros H d Hd. apply list_elem_of_In in Hd. apply H in Hd.
    by apply bool_decide_eq_true in Hd.
  - intros H d Hd. apply bool_decide_eq_true. apply H. by apply list_elem_of_In.
Qed.

Lemma init_lights_inv (uid : string) (ts : option Q) (uq : option bool) (pos : Q * Q)
    (dirs : option (list Direction)) :
  lights_inv (IntersectionAgent_init uid ts uq pos dirs)
             (IntersectionAgent_init uid ts uq pos dirs).
Proof.
  split; [done |]. exists true. intros d Hd. simpl in *.
  unfold initial_lights. rewrite assign_all_lookup. rewrite decide_True; [| done].
  by destruct d.
Qed.

Lemma change_lights_inv (s0 s : IntersectionAgent) :
  lights_inv s0 s -> lights_inv s0 (fst (change_traffic_light_phase s)).
Proof.
  intros [Hdirs Hsplit]. unfold change_traffic_light_phase.
  destruct (List.filter (is_green s) (directions s)) as [| g gs]; [by split |].
  destruct (phase_set (green_wave_phase s) && negb (green_wave_active s)) eqn:Hwave;
    cbn [fst].
  all: split; [by rewrite <- Hdirs |].
  all: match goal with
       | |- context [assign_all (if bool_decide (?n = "NS") then _ else _)] =>
           exists (bool_decide (n = "NS")); intros d Hd; simpl in Hd |- *;
           destruct (bool_decide (n = "NS"))
       end.
  all: rewrite !assign_all_lookup.
  all: destruct (in_ns d) eqn:Hns; simpl.
  all: repeat first
         [ rewrite (decide_True (P := d ∈ ns_directions s));
             [| by apply elem_of_ns_directions]
         | rewrite (decide_False (P := d ∈ ns_directions s));
             [| intros [_ H]%elem_of_ns_directions; congruence]
         | rewrite (decide_True (P := d ∈ ew_directions s));
             [| apply elem_of_ew_directions; split; [done |];
                rewrite in_ns_or_ew in Hns; by destruct (in_ew d)]
         | rewrite (decide_False (P := d ∈ ew_directions s));
             [| intros [_ H]%elem_of_ew_directions;
                rewrite in_ns_or_ew in Hns; by destruct (in_ew d)] ].
  all: done.
Qed.

Lemma in_ns_pair (d : Direction) : d ∈ ns_pair <-> in_ns d = true.
Proof. unfold in_ns. by rewrite bool_decide_eq_true. Qed.

Lemma in_ew_pair (d : Direction) : d ∈ ew_pair <-> in_ns d = false.
Proof.
  rewrite in_ns_or_ew, negb_false_iff. unfold in_ew. by rewrite bool_decide_eq_true.
Qed.

Lemma force_lights_inv (s0 s : IntersectionAgent) (target : Direction) :
  lights_inv s0 s -> lights_inv s0 (force_green s target).
Proof.
  intros [Hdirs [g Hsplit]]. unfold force_green.
  destruct (existsb _ (directions s)); [split; eauto |].
  destruct (is_green s target); [split; eauto |].
  split; [done |]. exists (in_ns target). intros d Hd. cbn in Hd |- *.
  pose proof (Hsplit d Hd) as Hl.
  rewrite !force_group_lookup. cbn [fst]. rewrite Hl.
  destruct (in_ns target) eqn:Ht; destruct (in_ns d) eqn:Hn; simpl.
  all: repeat match goal with
         | |- context [decide ?P] => destruct (decide P) as [[? ?] | ?]
         end.
  all: repeat match goal with
         | H : _ ∈ ns_pair |- _ => apply in_ns_pair in H
         | H : _ ∈ ew_pair |- _ => apply in_ew_pair in H
         end.
  all: try congruence.
  all: try done.
  all: exfalso;
       match goal with
       | H : ~ (_ /\ _) |- _ =>
           apply H; split;
           [ first [ by apply in_ns_pair | by apply in_ew_pair ] | by eexists ]
       end.
Qed.

Lemma reachable_lights_inv (s0 s : IntersectionAgent) :
  lights_inv s0 s0 -> reachable s0 s -> lights_inv s0 s.
Proof.
  intros H0 Hr. induction Hr as [| s Hr IH | s t Hr IH | s s' Hr IH Hd Hl].
  - done.
  - by apply change_lights_inv.
  - by apply force_lights_inv.
  - destruct IH as [Hdirs [g Hsplit]]. split; [congruence |].
    exists g. intros d Hin. rewrite Hl. apply Hsplit. by rewrite <- Hd.
Qed.

Lemma existsb_elem_of {A : Type} (f : A -> bool) (l : list A) :
  existsb f l = true <-> exists x, x ∈ l /\ f x = true.
Proof.
  rewrite existsb_exists. split; intros (x & Hx & Hf); exists x;
    (split; [by apply list_elem_of_In | done]).
Qed.

(** With the lights split by group, one group is all green and the other
    all red, only one group holds a green, and some light is green when
    both axes are present. *)
Lemma split_gives_exclusivity (s : IntersectionAgent) (g : bool) :
  split_by_group s g ->
  one_group_green s = true /\
  any_green s (ns_directions s) && any_green s (ew_directions s) = false /\
  (both_axes (directions s) = true ->
   any_green s (ns_directions s) || any_green s (ew_directions s) = true).
Proof.
  intros Hsplit.
  assert (Hns : forall d, d ∈ ns_directions s ->
            traffic_lights s !! d = Some (if g then GREEN else RED)).
  { intros d [Hd Hn]%elem_of_ns_directions. rewrite (Hsplit d Hd), Hn. by destruct g. }
  assert (Hew : forall d, d ∈ ew_directions s ->
            traffic_lights s !! d = Some (if g then RED else GREEN)).
  { intros d [Hd He]%elem_of_ew_directions. rewrite (Hsplit d Hd).
    rewrite in_ns_or_ew, He. by destruct g. }
  split; [| split].
  - unfold one_group_green. destruct g.
    + apply orb_true_iff. left. apply andb_true_iff. split; by apply all_lit_iff.
    + apply orb_true_iff. right. apply andb_true_iff. split; by apply all_lit_iff.
  - destruct g.
    + apply andb_false_iff. right. apply not_true_is_false.
      intros (d & Hd & Hg)%existsb_elem_of. unfold is_green in Hg.
      apply bool_decide_eq_true in Hg. rewrite (Hew d Hd) in Hg. done.
    + apply andb_false_iff. left. apply not_true_is_false.
      intros (d & Hd & Hg)%existsb_elem_of. unfold is_green in Hg.
      apply bool_decide_eq_true in Hg. rewrite (Hns d Hd) in Hg. done.
  - intros Haxes.
    apply andb_true_iff in Haxes as [Hn He].
    apply existsb_elem_of in Hn as (dn & Hdn & Hnn).
    apply existsb_elem_of in He as (de & Hde & Hee).
    assert (Hdn' : dn ∈ ns_directions s) by (by apply elem_of_ns_directions).
    assert (Hde' : de ∈ ew_directions s) by (by apply elem_of_ew_directions).
    destruct g.
    + apply orb_true_iff. left. apply existsb_elem_of. exists dn. split; [done |].
      unfold is_green. apply bool_decide_eq_true. by rewrite (Hns dn Hdn').
    + apply orb_true_iff. right. apply existsb_elem_of. exists de. split; [done |].
      unfold is_green. apply bool_decide_eq_true. by rewrite (Hew de Hde').
Qed.

(** C1 (amended): for every intersection agent that has a direction on
    each of the two axes, in every state reached from initialization by
    phase changes ([_change_traffic_light_phase], [_force_green]) and by
    updates that do not write the lights, the lights of one of the
    groups {NORTH, SOUTH} and {EAST, WEST} are all green and those of the
    other all red, and there is a green light and a red one: exactly one
    group is green, and the two never hold a green light together. *)
Theorem C1_light_exclusivity (uid : string) (ts : option Q) (uq : option bool)
    (pos : Q * Q) (dirs : option (list Direction)) (s : IntersectionAgent) :
  let s0 := IntersectionAgent_init uid ts uq pos dirs in
  (exists d, d ∈ directions s0 /\ (d = NORTH \/ d = SOUTH)) ->
  (exists d, d ∈ directions s0 /\ (d = EAST \/ d = WEST)) ->
  reachable s0 s ->
  exists green_ns : bool,
    (forall d, d ∈ directions s -> d = NORTH \/ d = SOUTH ->
       traffic_lights s !! d = Some (if green_ns then GREEN else RED)) /\
    (forall d, d ∈ directions s -> d = EAST \/ d = WEST ->
       traffic_lights s !! d = Some (if green_ns then RED else GREEN)) /\
    (exists d, d ∈ directions s /\ traffic_lights s !! d = Some GREEN) /\
    (exists d, d ∈ directions s /\ traffic_lights s !! d = Some RED).
Proof.
  intros s0 (dn & Hdn & Hn) (de & Hde & He) Hr.
  destruct (reachable_lights_inv _ _ (init_lights_inv uid ts uq pos dirs) Hr)
    as [Hdirs [g Hsplit]].
  fold s0 in Hdirs. rewrite <- Hdirs in Hdn, Hde.
  assert (Hns : forall d, d ∈ directions s -> d = NORTH \/ d = SOUTH ->
            traffic_lights s !! d = Some (if g then GREEN else RED)).
  { intros d Hd Hc. rewrite (Hsplit d Hd). by destruct Hc as [-> | ->], g. }
  assert (Hew : forall d, d ∈ directions s -> d = EAST \/ d = WEST ->
            traffic_lights s !! d = Some (if g then RED else GREEN)).
  { intros d Hd Hc. rewrite (Hsplit d Hd). by destruct Hc as [-> | ->], g. }
  exists g. split; [done |]. split; [done |].
  destruct g.
  - split; [exists dn | exists de]; split; try done; [by apply Hns | by apply Hew].
  - split; [exists de | exists dn]; split; try done; [by apply Hew | by apply Hns].
Qed.

End LightProps.

Section ReachProps.
Import Intersection.

Lemma q_learning_keeps_lights (s : IntersectionAgent) (rnd1 rnd2 : Q) :
  directions (fst (q_learning_decision s rnd1 rnd2)) = directions s /\
  traffic_lights (fst (q_learning_decision s rnd1 rnd2)) = traffic_lights s.
Proof.
  unfold q_learning_decision.
  destruct (Qltb (current_green_timer s) (min_green_time s)); [done |].
  cbn. by destruct (previous_state s), (previous_action s).
Qed.

Lemma should_change_keeps_lights (s s' : IntersectionAgent) (rnd1 rnd2 : Q) (b : bool) :
  should_change_phase s rnd1 rnd2 = Ok (s', b) ->
  directions s' = directions s /\ traffic_lights s' = traffic_lights s.
Proof.
  assert (Hpol : forall x x' b', policy_decision x rnd1 rnd2 = Ok (x', b') ->
            directions x' = directions x /\ traffic_lights x' = traffic_lights x).
  { intros x x' b'. unfold policy_decision.
    destruct (model_use_q_learning x) as [[] |].
    - pose proof (q_learning_keeps_lights x rnd1 rnd2) as H.
      intros [= E]. rewrite E in H. by simpl in H.
    - destruct (max_pressure_decision x); simpl; [| done]. by intros [= <- _].
    - destruct (max_pressure_decision x); simpl; [| done]. by intros [= <- _]. }
  unfold should_change_phase.
  destruct (green_wave_active s); [| apply Hpol].
  destruct (Qltb 0 (green_wave_timer s - time_step s)).
  - by intros [= <- _].
  - intros H. by apply Hpol in H.
Qed.

Lemma advance_keeps_lights (s : IntersectionAgent) :
  directions (advance_timers s) = directions s /\
  traffic_lights (advance_timers s) = traffic_lights s.
Proof. done. Qed.

(** The relation [reachable] is closed under the methods modelled above:
    each either changes the phase through the two writers of the lights
    or leaves the lights alone. *)
Lemma methods_stay_reachable (s0 s : IntersectionAgent) :
  reachable s0 s ->
  reachable s0 (advance_timers s) /\
  (forall rnd1 rnd2 s', phase_step s rnd1 rnd2 = Ok s' -> reachable s0 s') /\
  (forall target offset flow, reachable s0 (schedule_green_wave s target offset flow)) /\
  (forall body, reachable s0 (execute_cnp_task s body)) /\
  (forall t_stamp t_id msg s' reply,
     handle_emergency_priority t_stamp t_id s msg = Ok (s', reply) -> reachable s0 s').
Proof.
  intros Hr. split; [| split; [| split; [| split]]].
  - by apply (reach_other s0 s).
  - intros rnd1 rnd2 s'. unfold phase_step.
    destruct (should_change_phase (advance_timers s) rnd1 rnd2) as [[s1 b] | e] eqn:E;
      simpl; [| done].
    apply should_change_keeps_lights in E as [Hd Hl].
    assert (Hr1 : reachable s0 s1) by (by apply (reach_other s0 s)).
    intros [= <-]. destruct b; [by apply reach_change | done].
  - intros target offset flow. unfold schedule_green_wave.
    destruct (bool_decide (get_current_phase s = target)); [by apply (reach_other s0 s) |].
    destruct (Qleb offset (min_green_time s)); [| by apply (reach_other s0 s)].
    destruct (Qleb (min_green_time s) (current_green_timer s)); [| done].
    eapply reach_other; [apply reach_force, Hr | done | done].
  - intros body. unfold execute_cnp_task.
    destruct (_ && _); [| done].
    destruct (List.find _ (directions s)); [by apply reach_force | done].
  - intros t_stamp t_id msg s' reply. unfold handle_emergency_priority.
    destruct (truthy _); [| by intros [= <- _]].
    destruct (as_position _); simpl; [| done].
    intros [= <- _]. by apply reach_force.
Qed.

End ReachProps.

Section MinGreenProps.
Import Intersection.

(** The green timer dominates the timer of every green direction. *)
Lemma green_fold_ge (s : IntersectionAgent) (l : list Direction) :
  forall acc : Q,
  (acc <= foldl (fun a d => if is_green s d then Qmax a (timer_of s d) else a) acc l)%Q /\
  forall d, d ∈ l -> is_green s d = true ->
    (timer_of s d <= foldl (fun a d => if is_green s d then Qmax a (timer_of s d) else a) acc l)%Q.
Proof.
  induction l as [| x l IH]; intros acc; cbn [foldl].
  - split; [lra |]. intros d Hd. by apply elem_of_nil in Hd.
  - destruct (IH (if is_green s x then Qmax acc (timer_of s x) else acc)) as [Hacc Hall].
    split.
    + destruct (is_green s x); [| done].
      pose proof (Qmax_ge_l acc (timer_of s x)). lra.
    + intros d [-> | Hd]%elem_of_cons Hg; [| by apply Hall].
      rewrite Hg in Hacc |- *. pose proof (Qmax_ge_r acc (timer_of s x)). lra.
Qed.

Lemma timer_le_green_timer (s : IntersectionAgent) (d : Direction) :
  d ∈ directions s -> is_green s d = true ->
  (timer_of s d <= current_green_timer s)%Q.
Proof. intros Hd Hg. by apply (green_fold_ge s (directions s) 0). Qed.

Lemma max_pressure_below_floor (s : IntersectionAgent) :
  (current_green_timer s < min_green_time s)%Q -> max_pressure_decision s = Ok false.
Proof.
  intros H. unfold max_pressure_decision. apply Qltb_lt in H. by rewrite H.
Qed.

Lemma q_learning_below_floor (s : IntersectionAgent) (rnd1 rnd2 : Q) :
  (current_green_timer s < min_green_time s)%Q ->
  q_learning_decision s rnd1 rnd2 = (s, false).
Proof.
  intros H. unfold q_learning_decision. apply Qltb_lt in H. by rewrite H.
Qed.

Lemma policy_below_floor (s : IntersectionAgent) (rnd1 rnd2 : Q) :
  (current_green_timer s < min_green_time s)%Q ->
  policy_decision s rnd1 rnd2 = Ok (s, false).
Proof.
  intros H. unfold policy_decision.
  rewrite q_learning_below_floor, max_pressure_below_floor by done.
  by destruct (model_use_q_learning s) as [[] |].
Qed.

Lemma should_change_below_floor (s : IntersectionAgent) (rnd1 rnd2 : Q) :
  (current_green_timer s < min_green_time s)%Q ->
  exists s', should_change_phase s rnd1 rnd2 = Ok (s', false) /\
             directions s' = directions s /\
             traffic_lights s' = traffic_lights s /\
             light_timers s' = light_timers s.
Proof.
  intros H. unfold should_change_phase.
  destruct (green_wave_active s); [| exists s; by rewrite policy_below_floor].
  destruct (Qltb 0 (green_wave_timer s - time_step s)); [by eexists |].
  eexists. by rewrite policy_below_floor.
Qed.

Lemma force_green_refused (s : IntersectionAgent) (target d : Direction) :
  d ∈ directions s -> is_green s d = true ->
  (timer_of s d < min_green_time s)%Q ->
  force_green s target = s.
Proof.
  intros Hd Hg Ht. unfold force_green.
  assert (He : existsb (fun d => is_green s d && Qltb (timer_of s d) (min_green_time s))
                       (directions s) = true).
  { apply existsb_elem_of. exists d. split; [done |].
    apply Qltb_lt in Ht. by rewrite Hg, Ht. }
  by rewrite He.
Qed.

(** C2: while the green timer is below [min_green_time], the decision to
    change phase is negative under Max-Pressure and under Q-Learning,
    [_should_change_phase] returns false, the step made of [deliberate]
    and the execution of its intention leaves the lights as they are,
    a forced green (emergency priority, CNP award) is refused as long as
    a light is green, and a green wave scheduled by a neighbour does not
    touch the lights: the green group is not turned red before the floor
    is met. *)
Theorem C2_min_green_respected (s : IntersectionAgent) (rnd1 rnd2 : Q) :
  (current_green_timer s < min_green_time s)%Q ->
  max_pressure_decision s = Ok false /\
  q_learning_decision s rnd1 rnd2 = (s, false) /\
  (exists s', should_change_phase s rnd1 rnd2 = Ok (s', false) /\
              traffic_lights s' = traffic_lights s) /\
  (forall s0, advance_timers s0 = s ->
     exists s', phase_step s0 rnd1 rnd2 = Ok s' /\
                traffic_lights s' = traffic_lights s0) /\
  (forall target d, d ∈ directions s -> is_green s d = true ->
     force_green s target = s) /\
  (forall target offset flow,
     traffic_lights (schedule_green_wave s target offset flow) = traffic_lights s) /\
  (forall t_stamp t_id message d s' reply,
     d ∈ directions s -> is_green s d = true ->
     handle_emergency_priority t_stamp t_id s message = Ok (s', reply) ->
     s' = s).
Proof.
  intros Hlow.
  assert (Hforce : forall target d, d ∈ directions s -> is_green s d = true ->
            force_green s target = s).
  { intros target d Hd Hg. apply (force_green_refused s target d Hd Hg).
    pose proof (timer_le_green_timer s d Hd Hg). lra. }
  split; [by apply max_pressure_below_floor |].
  split; [by apply q_learning_below_floor |].
  split.
  { destruct (should_change_below_floor s rnd1 rnd2 Hlow) as (s' & Hs & _ & Hl & _).
    by exists s'. }
  split.
  { intros s0 <-.
    destruct (should_change_below_floor (advance_timers s0) rnd1 rnd2 Hlow)
      as (s' & Hs & _ & Hl & _).
    exists s'. unfold phase_step. rewrite Hs. by simpl. }
  split; [done |].
  split.
  { intros target offset flow. unfold schedule_green_wave.
    destruct (bool_decide (get_current_phase s = target)); [done |].
    destruct (Qleb offset (min_green_time s)); [| done].
    destruct (Qleb (min_green_time s) (current_green_timer s)) eqn:E; [| done].
    apply Qle_bool_iff in E. lra. }
  intros t_stamp t_id message d s' reply Hd Hg.
  unfold handle_emergency_priority.
  destruct (truthy _); [| by intros [= <- _]].
  destruct (as_position _) as [vehicle_pos | e]; simpl; [| done].
  rewrite (Hforce _ d Hd Hg). by intros [= <- _].
Qed.

End MinGreenProps.

Section MaxPressureProps.
Import Intersection.

Lemma in_ns_cases (d : Direction) : in_ns d = bool_decide (d = NORTH \/ d = SOUTH).
Proof. by destruct d. Qed.

Lemma in_ew_cases (d : Direction) : in_ew d = bool_decide (d = EAST \/ d = WEST).
Proof. by destruct d. Qed.


End MaxPressureProps.

Section IntersectionExamples.
Import Intersection Examples.

(** C1 (as stated, for every intersection agent) fails: the constructor
    accepts an intersection with the north-south axis only, whose first
    phase change succeeds and turns both lights red, so that no light is
    green and no group is. *)
Lemma C1_single_axis_goes_dark :
  reachable north_south_only (fst (change_traffic_light_phase north_south_only)) /\
  snd (change_traffic_light_phase north_south_only) = true /\
  forall d, traffic_lights (fst (change_traffic_light_phase north_south_only)) !! d
            <> Some GREEN.
Proof.
  split; [apply reach_change, reach_init |].
  split; [reflexivity |].
  intros d. by destruct d.
Qed.

(** The four-way intersection after 20 s, a forced green for the east
    and a phase change. *)
Lemma C1_light_witness :
  exists green_ns : bool,
    (forall d, d ∈ directions (fst (change_traffic_light_phase (force_green ripe EAST))) ->
       d = NORTH \/ d = SOUTH ->
       traffic_lights (fst (change_traffic_light_phase (force_green ripe EAST))) !! d
       = Some (if green_ns then GREEN else RED)) /\
    (exists d, d ∈ directions (fst (change_traffic_light_phase (force_green ripe EAST))) /\
       traffic_lights (fst (change_traffic_light_phase (force_green ripe EAST))) !! d
       = Some GREEN).
Proof.
  destruct (C1_light_exclusivity "intersection_0" (Some 1%Q) None (0%Q, 0%Q) None
              (fst (change_traffic_light_phase (force_green ripe EAST))))
    as (g & Hns & _ & Hgreen & _).
  - exists NORTH. split; [apply list_elem_of_here | by left].
  - exists EAST. split; [| by left].
    apply list_elem_of_further, list_elem_of_further, list_elem_of_here.
  - apply reach_change, reach_force.
    apply (reach_other _ fresh ripe (reach_init _)); reflexivity.
  - exists g. exact (conj Hns Hgreen).
Defined.

(** The methods keep the fresh intersection among its reachable states. *)
Lemma fresh_run_reachable :
  reachable fresh (advance_timers fresh) /\
  (forall body, reachable fresh (execute_cnp_task fresh body)).
Proof.
  destruct (methods_stay_reachable fresh fresh (reach_init fresh))
    as (Hadv & _ & _ & Hcnp & _).
  exact (conj Hadv Hcnp).
Defined.

Lemma C2_floor_witness :
  max_pressure_decision fresh = Ok false /\
  q_learning_decision fresh 0 0 = (fresh, false) /\
  force_green fresh EAST = fresh.
Proof.
  assert (Hlow : (current_green_timer fresh < min_green_time fresh)%Q)
    by (apply Qltb_lt; reflexivity).
  destruct (C2_min_green_respected fresh 0 0 Hlow) as (Hmp & Hql & _ & _ & Hforce & _).
  split; [exact Hmp |]. split; [exact Hql |].
  apply (Hforce EAST NORTH); [| reflexivity].
  apply list_elem_of_In. simpl. by left.
Defined.


(** On [tight] the two pressures differ by exactly 5 before rounding;
    rounded to binary64 as the code computes them they differ by more,
    and the phase changes. *)
Example tight_changes_phase :
  (5 < fl (phase_pressure tight "EW" - phase_pressure tight "NS"))%Q /\
  should_change_phase tight 0 0 = Ok (tight, true).
Proof. split; vm_compute; reflexivity. Qed.

(** With 28 vehicles for a capacity of 40 the rounded availability,
    1 - 0.7, is above the rounded 0.3, and the intersection bids; with 29
    it does not. *)
Example bid_at_seventy_percent :
  (fl (3 # 10) < cfp_availability (laden 7))%Q /\
  is_Some (snd (handle_cfp 41 41 (laden 7) Examples.cfp true)) /\
  snd (handle_cfp 41 41 (laden 8) Examples.cfp true) = None.
Proof.
  split; [vm_compute; reflexivity |].
  split; [| vm_compute; reflexivity].
  apply (bool_decide_unpack _). vm_compute. reflexivity.
Qed.

(** A time step of zero makes [deliberate] raise. *)
Example zero_time_step_raises :
  deliberate
    (IntersectionAgent_init "intersection_0" (Some 0%Q) None (0%Q, 0%Q) None)
    spacing_round_1
  = Raise ZeroDivisionError.
Proof. vm_compute. reflexivity. Qed.

(** The two rounds after a phase change of [downstream]: the first
    broadcasts the congestion and negotiates, which counts two messages;
    the second emits nothing; the lights are as the change left them. *)
Example rounds_after_change :
  match run_rounds Routing.sqrt_floor
          (fst (change_traffic_light_phase downstream), [], [])
          [spacing_round_1; spacing_round_2] with
  | Ok (s', remaining, history) =>
      traffic_lights s' = traffic_lights (fst (change_traffic_light_phase downstream)) /\
      coordination_messages_sent s' = 2%Z /\
      remaining = [] /\
      Bdi.a_intention <$> history = ["broadcast_congestion"; "negotiate_with_neighbor"] /\
      current_time s' = 2%Q
  | Raise _ => False
  end.
Proof. vm_compute. repeat split; reflexivity. Qed.

End IntersectionExamples.

(** ** Further properties of the code *)

Section MessageProps.
Import Fipa.

Lemma Performative_of_value (e : Performative) : Performative_of (lower (value e)) = Some e.
Proof. by destruct e. Qed.

Lemma Performative_of_sound (s : string) (e : Performative) :
  Performative_of s = Some e -> value e = s.
Proof.
  unfold Performative_of. intros H. apply List.find_some in H as [_ H].
  by apply bool_decide_eq_true in H.
Qed.

Lemma post_init_idempotent (p : string) :
  post_init_performative (post_init_performative p) = post_init_performative p.
Proof.
  unfold post_init_performative.
  destruct (Performative_of (lower p)) as [e |] eqn:E; cbv beta iota.
  - by rewrite Performative_of_value.
  - by rewrite E.
Qed.

(** [__post_init__] brings a performative to a normal form: applying it
    again changes nothing, and a normalised performative whose
    lower-case form names a member of the enumeration is that member's
    value, in lower case. *)
Theorem post_init_normal_form (p : string) :
  post_init_performative (post_init_performative p) = post_init_performative p /\
  (forall e, Performative_of (lower (post_init_performative p)) = Some e ->
             post_init_performative p = value e).
Proof.
  split; [apply post_init_idempotent |].
  unfold post_init_performative.
  destruct (Performative_of (lower p)) as [e |] eqn:E; cbv beta iota.
  - rewrite Performative_of_value. by intros e' [= <-].
  - rewrite E. by intros e' [=].
Qed.


Lemma to_dict_keywords (m : FIPAMessage) :
  forallb (fun k => bool_decide (k ∈ field_names)) (map_to_list (to_dict m)).*1 = true /\
  forallb (fun k => dict_has (to_dict m) k) required_names = true.
Proof. destruct m. split; vm_compute; reflexivity. Qed.

(** Writing a message as a dictionary and reading it back gives the
    message again, with its performative normalised by [__post_init__];
    a message made by the constructor, whose performative is normalised
    already, comes back as it was.  The clock is not read: the
    dictionary carries the time stamp and the identifier. *)
Theorem dict_round_trip (t1 t2 : Q) (m : FIPAMessage)
    (t_stamp t_id : Q) (sender receiver performative : string) (content : PyDict)
    (ontology protocol conversation_id reply_to : option string) :
  from_dict t1 t2 (to_dict m)
  = Ok (Some {| Fipa.sender := Fipa.sender m;
                Fipa.receiver := Fipa.receiver m;
                Fipa.performative := post_init_performative (Fipa.performative m);
                Fipa.content := Fipa.content m;
                language := language m;
                Fipa.ontology := Fipa.ontology m;
                Fipa.protocol := Fipa.protocol m;
                Fipa.conversation_id := Fipa.conversation_id m;
                Fipa.reply_to := Fipa.reply_to m;
                reply_by := reply_by m;
                timestamp := timestamp m;
                message_id := message_id m |}) /\
  let made := FIPAMessage_init t_stamp t_id sender receiver performative content
                ontology protocol conversation_id reply_to in
  from_dict t1 t2 (to_dict made) = Ok (Some made).
Proof.
  assert (H : forall m0 : FIPAMessage, from_dict t1 t2 (to_dict m0)
  = Ok (Some {| Fipa.sender := Fipa.sender m0;
                Fipa.receiver := Fipa.receiver m0;
                Fipa.performative := post_init_performative (Fipa.performative m0);
                Fipa.content := Fipa.content m0;
                language := language m0;
                Fipa.ontology := Fipa.ontology m0;
                Fipa.protocol := Fipa.protocol m0;
                Fipa.conversation_id := Fipa.conversation_id m0;
                Fipa.reply_to := Fipa.reply_to m0;
                reply_by := reply_by m0;
                timestamp := timestamp m0;
                message_id := message_id m0 |})).
  { intros m0. unfold from_dict.
    destruct (to_dict_keywords m0) as [-> ->]. cbn [negb].
    destruct m0 as [s r p c l o pr cid rt rb ts mid].
    destruct o, pr, cid, rt, rb; reflexivity. }
  split; [apply H |].
  intros made. rewrite H. subst made. unfold FIPAMessage_init.
  cbn [Fipa.sender Fipa.receiver Fipa.performative Fipa.content language Fipa.ontology
       Fipa.protocol Fipa.conversation_id Fipa.reply_to reply_by timestamp message_id].
  by rewrite post_init_idempotent.
Qed.

End MessageProps.

Section DictErrors.
Import Fipa.

Lemma forallb_false_elem {A : Type} (f : A -> bool) (l : list A) (x : A) :
  x ∈ l -> f x = false -> forallb f l = false.
Proof.
  intros Hin Hf. apply not_true_is_false. intros H.
  rewrite forallb_forall in H. apply list_elem_of_In in Hin.
  specialize (H x Hin). congruence.
Qed.

(** [from_dict] raises [TypeError] on a dictionary with a key that is no
    field of the message, and on one that lacks [sender], [receiver],
    [performative] or [content]. *)
Theorem from_dict_rejects (t1 t2 : Q) (data : PyDict) (k : string) :
  ((k ∉ field_names) /\ is_Some (data !! k)) \/ (k ∈ required_names /\ data !! k = None) ->
  from_dict t1 t2 data = Raise TypeError.
Proof.
  intros [[Hk [v Hv]] | [Hk Hv]]; unfold from_dict.
  - rewrite (forallb_false_elem _ _ k); [done | |].
    + apply (list_elem_of_fmap_2 fst _ (k, v)). by apply elem_of_map_to_list.
    + by apply bool_decide_eq_false.
  - destruct (forallb _ (map_to_list data).*1); [| done]. cbn [negb].
    rewrite (forallb_false_elem _ _ k); [done | done |].
    unfold dict_has. by rewrite Hv.
Qed.

(** A dictionary with a key that is no field. *)
Lemma from_dict_rejects_witness :
  from_dict 1 1 {[ "sender" := PStr "a"; "colour" := PStr "red" ]} = Raise TypeError.
Proof.
  apply (from_dict_rejects 1 1 _ "colour"). left. split.
  - apply (bool_decide_unpack _). vm_compute. reflexivity.
  - eexists. reflexivity.
Defined.

End DictErrors.

Section InboxProps.
Import Fipa.

Lemma pop_first_spec (p : FIPAMessage -> bool) (l : list FIPAMessage) :
  match pop_first p l with
  | Some (m, rest) =>
      exists l1 l2, l = l1 ++ m :: l2 /\ rest = l1 ++ l2 /\ p m = true /\
                    Forall (fun x => p x = false) l1 /\ List.find p l = Some m
  | None => Forall (fun x => p x = false) l /\ List.find p l = None
  end.
Proof.
  induction l as [| x l IH]; simpl; [done |].
  destruct (p x) eqn:Hx.
  - exists [], l. by repeat split.
  - destruct (pop_first p l) as [[m rest] |].
    + destruct IH as (l1 & l2 & -> & -> & Hm & Hl1 & Hf).
      exists (x :: l1), l2. repeat split; try done. by constructor.
    + destruct IH as [Hall Hf]. split; [by constructor | done].
Qed.

(** [get_from_inbox] takes out the message [peek_inbox] shows: without a
    filter the first message, with a filter the first message of that
    performative; the other messages stay, in their order; and when
    nothing is returned the queue is as before. *)
Theorem get_from_inbox_takes_peeked (q : MessageQueue) (perf : option string) :
  fst (get_from_inbox q perf) = peek_inbox q perf /\
  outbox (snd (get_from_inbox q perf)) = outbox q /\
  max_size (snd (get_from_inbox q perf)) = max_size q /\
  match peek_inbox q perf with
  | Some m =>
      exists l1 l2,
        inbox q = l1 ++ m :: l2 /\
        inbox (snd (get_from_inbox q perf)) = l1 ++ l2 /\
        match perf with
        | Some p => if bool_decide (p = "") then l1 = []
                    else performative m = p /\
                         Forall (fun x => performative x <> p) l1
        | None => l1 = []
        end
  | None => snd (get_from_inbox q perf) = q
  end.
Proof.
  assert (Hnone : fst (get_from_inbox q None) = peek_inbox q None /\
    outbox (snd (get_from_inbox q None)) = outbox q /\
    max_size (snd (get_from_inbox q None)) = max_size q /\
    match peek_inbox q None with
    | Some m => exists l1 l2, inbox q = l1 ++ m :: l2 /\
                  inbox (snd (get_from_inbox q None)) = l1 ++ l2 /\ l1 = []
    | None => snd (get_from_inbox q None) = q
    end).
  { unfold get_from_inbox, peek_inbox. destruct (inbox q) as [| m rest] eqn:E; simpl.
    - done.
    - repeat split. by exists [], rest. }
  destruct perf as [p |]; [| exact Hnone].
  destruct p as [| a p']; [exact Hnone |].
  rewrite bool_decide_eq_false_2 by done.
  unfold get_from_inbox, peek_inbox. cbv beta iota.
  generalize (String a p'). intros p.
  pose proof (pop_first_spec (fun msg => bool_decide (performative msg = p)) (inbox q)) as H.
  destruct (pop_first _ (inbox q)) as [[m rest] |].
  - destruct H as (l1 & l2 & Hl & -> & Hm & Hl1 & ->). simpl.
    repeat split. exists l1, l2. repeat split; try done.
    + by apply bool_decide_eq_true in Hm.
    + eapply Forall_impl; [exact Hl1 |]. intros x Hx. by apply bool_decide_eq_false in Hx.
  - destruct H as [_ ->]. done.
Qed.

End InboxProps.

Section InboxRuns.
Import Fipa.

Lemma pop_first_length (p : FIPAMessage -> bool) (l : list FIPAMessage) :
  match pop_first p l with
  | Some (_, rest) => S (length rest) = length l
  | None => True
  end.
Proof.
  induction l as [| x l IH]; simpl; [done |].
  destruct (p x); [done |].
  destruct (pop_first p l) as [[m rest] |]; [| done]. simpl. lia.
Qed.

Lemma get_from_inbox_shrinks (q : MessageQueue) (perf : option string) :
  max_size (snd (get_from_inbox q perf)) = max_size q /\
  (length (inbox (snd (get_from_inbox q perf))) <= length (inbox q))%nat.
Proof.
  unfold get_from_inbox.
  destruct (match perf with Some "" => None | other => other end) as [p |].
  - pose proof (pop_first_length (fun msg => bool_decide (performative msg = p)) (inbox q)) as H.
    destruct (pop_first _ (inbox q)) as [[m rest] |]; simpl; [lia | done].
  - destruct (inbox q) as [| m rest] eqn:E; simpl; [by rewrite E | lia].
Qed.

(** Whatever additions, removals, looks and clearings are run on a fresh
    queue of capacity at least 1, none raises and the inbox stays within
    the capacity. *)
Theorem inbox_ops_bounded (capacity : Z) (ops : list InboxOp) :
  (1 <= capacity)%Z ->
  exists q : MessageQueue,
    inbox_ops (MessageQueue_init capacity) ops = Ok q /\
    max_size q = capacity /\
    (Z.of_nat (length (inbox q)) <= capacity)%Z.
Proof.
  intros Hpos.
  assert (Hgen : forall q0 : MessageQueue,
            max_size q0 = capacity ->
            (Z.of_nat (length (inbox q0)) <= capacity)%Z ->
            exists q, inbox_ops q0 ops = Ok q /\ max_size q = capacity /\
                      (Z.of_nat (length (inbox q)) <= capacity)%Z).
  { induction ops as [| op ops IH]; intros q0 Hcap Hlen.
    - by exists q0.
    - simpl. destruct op as [m | perf | perf |]; simpl.
      + destruct (add_to_inbox_bounded q0 m) as (q1 & -> & Hc & Hl & _); [lia | lia |].
        simpl. apply IH; lia.
      + destruct (get_from_inbox_shrinks q0 perf) as [Hc Hl]. apply IH; lia.
      + by apply IH.
      + apply IH; simpl; [done | lia]. }
  apply Hgen; simpl; [done | lia].
Qed.

(** Three additions to a fresh queue of capacity 2, the third beyond its
    capacity, then a look, a removal and a fourth addition. *)
Lemma inbox_ops_bounded_witness :
  exists q : MessageQueue,
    inbox_ops (MessageQueue_init 2)
      [OpAdd Examples.incident_notice; OpAdd Examples.cfp;
       OpAdd (Examples.bid "intersection_1" (1 # 2)); OpPeek (Some "propose");
       OpGet (Some "cfp"); OpAdd Examples.raw_notice] = Ok q /\
    max_size q = 2%Z /\ (Z.of_nat (length (inbox q)) <= 2)%Z.
Proof.
  apply (inbox_ops_bounded 2
           [OpAdd Examples.incident_notice; OpAdd Examples.cfp;
            OpAdd (Examples.bid "intersection_1" (1 # 2)); OpPeek (Some "propose");
            OpGet (Some "cfp"); OpAdd Examples.raw_notice]).
  lia.
Defined.

(** In that run the third addition drops the oldest message, the removal
    takes the call for proposals, and the bid and the last notice are
    what the inbox holds in the end. *)
Example inbox_overflow_drops_oldest :
  (q ← inbox_ops (MessageQueue_init 2)
         [OpAdd Examples.incident_notice; OpAdd Examples.cfp;
          OpAdd (Examples.bid "intersection_1" (1 # 2))];
   Ok (inbox q))
  = Ok [Examples.cfp; Examples.bid "intersection_1" (1 # 2)] /\
  (q ← inbox_ops (MessageQueue_init 2)
         [OpAdd Examples.incident_notice; OpAdd Examples.cfp;
          OpAdd (Examples.bid "intersection_1" (1 # 2)); OpPeek (Some "propose");
          OpGet (Some "cfp"); OpAdd Examples.raw_notice];
   Ok (inbox q))
  = Ok [Examples.bid "intersection_1" (1 # 2); Examples.raw_notice].
Proof. split; vm_compute; reflexivity. Qed.

End InboxRuns.

Section RouterProps.
Import Fipa.

Variable fsqrt : Q -> Q.

Lemma route_all_snoc (r : MessageRouter) (agents : list Mailbox)
    (msgs : list FIPAMessage) (m : FIPAMessage) :
  route_all fsqrt r agents (msgs ++ [m])
  = route_message fsqrt (fst (route_all fsqrt r agents msgs))
      (snd (route_all fsqrt r agents msgs)) m.
Proof. unfold route_all. by rewrite foldl_app. Qed.

(** The router's statistics count the routed messages: the total grows
    by the number of messages, the counter of each performative by the
    number of messages carrying it, whether or not anyone received
    them. *)
Theorem router_counts_messages (r : MessageRouter) (agents : list Mailbox)
    (msgs : list FIPAMessage) (p : string) :
  total_messages_routed (fst (route_all fsqrt r agents msgs))
  = (total_messages_routed r + Z.of_nat (length msgs))%Z /\
  default 0%Z (messages_by_type (fst (route_all fsqrt r agents msgs)) !! p)
  = (default 0%Z (messages_by_type r !! p)
     + Z.of_nat (length (List.filter (fun m => bool_decide (performative m = p)) msgs)))%Z.
Proof.
  induction msgs as [| m msgs IH] using rev_ind.
  - simpl. split; lia.
  - rewrite route_all_snoc. destruct IH as [IHt IHp].
    set (st := route_all fsqrt r agents msgs) in *.
    unfold route_message. cbn [fst total_messages_routed messages_by_type].
    rewrite IHt, length_app, List.filter_app, length_app. cbn [length List.filter].
    split; [lia |].
    destruct (decide (performative m = p)) as [-> | Hne].
    + rewrite lookup_insert_eq, bool_decide_eq_true_2 by done. cbn. lia.
    + rewrite lookup_insert_ne, bool_decide_eq_false_2 by done. cbn. lia.
Qed.

Lemma deliver_to_spec (agents : list Mailbox) (uid : string) (m : FIPAMessage) :
  match get_agent_by_id agents uid with
  | Some a =>
      exists l1 l2, agents = l1 ++ a :: l2 /\
                    deliver_to agents uid m = l1 ++ receive_message a m :: l2 /\
                    Forall (fun x => agent_id x <> uid) l1 /\ agent_id a = uid
  | None => deliver_to agents uid m = agents
  end.
Proof.
  unfold get_agent_by_id.
  induction agents as [| a agents IH]; simpl; [done |].
  destruct (decide (agent_id a = uid)) as [Ha | Ha].
  - rewrite !bool_decide_eq_true_2 by done. by exists [], agents.
  - rewrite !bool_decide_eq_false_2 by done.
    destruct (List.find _ agents) as [b |].
    + destruct IH as (l1 & l2 & -> & -> & Hl1 & Hb).
      exists (a :: l1), l2. repeat split; try done. by constructor.
    + by rewrite IH.
Qed.

(** Delivery by the router.  A message to a named receiver is appended
    to the inbox of the first agent of the schedule with that name and to
    no other; to an unknown name it is dropped.  A broadcast is never put
    in the inbox of an agent named as its sender, and reaches nobody when
    the sender is unknown or has no position. *)
Theorem route_message_delivery (r : MessageRouter) (agents : list Mailbox)
    (m : FIPAMessage) :
  (is_broadcast m = false ->
   match get_agent_by_id agents (receiver m) with
   | Some a =>
       exists l1 l2, agents = l1 ++ a :: l2 /\
         snd (route_message fsqrt r agents m) = l1 ++ receive_message a m :: l2 /\
         Forall (fun x => agent_id x <> receiver m) l1
   | None => snd (route_message fsqrt r agents m) = agents
   end) /\
  (is_broadcast m = true ->
   (forall i a, agents !! i = Some a -> agent_id a = sender m ->
                snd (route_message fsqrt r agents m) !! i = Some a) /\
   (forall i a, agents !! i = Some a ->
      exists a', snd (route_message fsqrt r agents m) !! i = Some a' /\
                 agent_id a' = agent_id a /\
                 (a' = a \/ a' = receive_message a m)) /\
   (match get_agent_by_id agents (sender m) with
    | Some {| agent_position := Some _ |} => True
    | _ => snd (route_message fsqrt r agents m) = agents
    end)).
Proof.
  unfold route_message. cbn [snd]. split; intros ->.
  - unfold unicast_message.
    pose proof (deliver_to_spec agents (receiver m) m) as H.
    destruct (get_agent_by_id agents (receiver m)) as [a |]; [| done].
    destruct H as (l1 & l2 & H1 & H2 & H3 & _). by exists l1, l2.
  - unfold broadcast_message.
    assert (Hsame : (forall i a, agents !! i = Some a -> agent_id a = sender m ->
                       agents !! i = Some a) /\
                    (forall i a, agents !! i = Some a ->
                       exists a', agents !! i = Some a' /\ agent_id a' = agent_id a /\
                                  (a' = a \/ a' = receive_message a m)) /\
                    agents = agents).
    { split; [done |]. split; [| done]. intros i a Hi. exists a. auto. }
    destruct (get_agent_by_id agents (sender m)) as [[sid [spos |] sbox] |];
      [| exact Hsame | exact Hsame]. clear Hsame.
    split; [| split; [| done]].
    + intros i a Hi Ha. rewrite list_lookup_fmap, Hi. simpl.
      destruct (agent_position a); [| done].
      by rewrite (bool_decide_eq_true_2 _ Ha).
    + intros i a Hi. rewrite list_lookup_fmap, Hi. simpl.
      destruct (agent_position a) as [pos |]; [| by exists a; auto].
      destruct (_ && _); eexists; (split; [done |]); split; auto.
Qed.

End RouterProps.

Section DesireProps.
Import Bdi.

Lemma insert_desire_perm (d : Desire) (l : list Desire) :
  insert_desire d l ≡ₚ d :: l.
Proof.
  induction l as [| y l IH]; simpl; [done |].
  destruct (Qltb (d_priority d) (d_priority y)); [| done].
  rewrite IH. apply Permutation_swap.
Qed.

Lemma insert_desire_sorted (d : Desire) (l : list Desire) :
  StronglySorted by_priority l -> StronglySorted by_priority (insert_desire d l).
Proof.
  induction l as [| y l IH]; simpl; intros Hs.
  - repeat constructor.
  - apply StronglySorted_inv in Hs as [Hl Hy].
    destruct (Qltb (d_priority d) (d_priority y)) eqn:E.
    + apply Qltb_lt in E. constructor; [by apply IH |].
      rewrite insert_desire_perm. constructor; [unfold by_priority; lra | done].
    + apply Qltb_ge in E. constructor; [by constructor |].
      constructor; [done |].
      eapply Forall_impl; [exact Hy |]. unfold by_priority. intros z Hz. simpl in Hz. lra.
Qed.

Lemma insert_desire_filter (f : Desire -> bool) (d : Desire) (l : list Desire) :
  (forall y, f d = true -> f y = true -> Qltb (d_priority d) (d_priority y) = false) ->
  List.filter f (insert_desire d l) = List.filter f (d :: l).
Proof.
  intros Hf. induction l as [| y l IH]; [done |].
  cbn [insert_desire].
  destruct (Qltb (d_priority d) (d_priority y)) eqn:E; [| done].
  cbn [List.filter] in *. rewrite IH.
  destruct (f d) eqn:Hd; [| done].
  destruct (f y) eqn:Hy; [| done].
  rewrite (Hf y) in E; done.
Qed.

(** [filter_desires] keeps exactly the unsatisfied desires, lists them by
    decreasing priority, and leaves desires of equal priority in the
    order they had. *)
Theorem filter_desires_sorts (desires : list Desire) (q : Q) :
  filter_desires desires ≡ₚ List.filter (fun d => negb (satisfied d)) desires /\
  StronglySorted (fun a b => (d_priority b <= d_priority a)%Q) (filter_desires desires) /\
  List.filter (fun d => Qeq_bool (d_priority d) q) (filter_desires desires)
  = List.filter (fun d => Qeq_bool (d_priority d) q)
      (List.filter (fun d => negb (satisfied d)) desires).
Proof.
  unfold filter_desires.
  generalize (List.filter (fun d => negb (satisfied d)) desires). intros l.
  unfold sort_desires.
  induction l as [| d l (IHp & IHs & IHf)]; simpl.
  - repeat split; constructor.
  - split; [by rewrite insert_desire_perm, IHp |].
    split; [by apply insert_desire_sorted |].
    rewrite insert_desire_filter.
    + simpl. by rewrite IHf.
    + intros y Hd Hy. apply Qeq_bool_iff in Hd, Hy.
      apply Qltb_ge. lra.
Qed.

End DesireProps.

Section IntentionProps.
Import Bdi.

Variable Agent : Type.
Variable execute_intention : Agent -> Intention -> Agent * bool.
Variable agent_time : Agent -> Q.

Lemma execute_pending_spec (intentions : list Intention) :
  forall (self : Agent) (history : list ActionRecord),
  let r := execute_pending Agent execute_intention agent_time self intentions history in
  List.filter (fun i => negb (bool_decide (status i = "completed")
                              || bool_decide (status i = "failed")))
              (snd (fst r))
  = List.filter (fun i => negb (settled i)) intentions /\
  exists entries,
    snd r = history ++ entries /\
    length entries
    = length (List.filter (fun i => bool_decide (status i = "pending")) intentions).
Proof.
  induction intentions as [| i rest IH]; intros self history; simpl.
  - split; [done |]. exists []. by rewrite app_nil_r.
  - unfold settled. destruct (decide (status i = "pending")) as [Hp | Hp].
    + rewrite !bool_decide_eq_true_2 by done.
      destruct (execute_intention self (set_status i "executing")) as [self' success].
      match goal with
      | |- context [execute_pending _ _ _ ?a rest ?h] =>
          specialize (IH a h); destruct (execute_pending _ _ _ a rest h) as [[s2 r2] h2]
      end.
      simpl in *. destruct IH as [IHf (entries & -> & Hlen)].
      split.
      * destruct success; simpl; exact IHf.
      * eexists (_ :: entries). rewrite <- app_assoc. split; [done |]. simpl. by rewrite Hlen.
    + rewrite !bool_decide_eq_false_2 by done.
      specialize (IH self history).
      destruct (execute_pending _ _ _ self rest history) as [[s2 r2] h2].
      simpl in *. destruct IH as [IHf (entries & -> & Hlen)].
      split; [| by exists entries].
      destruct (bool_decide (status i = "completed") || bool_decide (status i = "failed"));
        simpl; by rewrite IHf.
Qed.

(** After [execute_intentions] no intention is left pending, completed
    or failed: what remains are the intentions that had another status,
    untouched and in their order; the history has grown by one entry for
    each intention that was pending.  A list of pending intentions is
    emptied. *)
Theorem execute_intentions_flushes (self : Agent) (intentions : list Intention)
    (history : list ActionRecord) :
  let r := execute_intentions Agent execute_intention agent_time self intentions history in
  snd (fst r) = List.filter (fun i => negb (settled i)) intentions /\
  (exists entries,
     snd r = history ++ entries /\
     length entries
     = length (List.filter (fun i => bool_decide (status i = "pending")) intentions)) /\
  (Forall (fun i => status i = "pending") intentions -> snd (fst r) = []).
Proof.
  unfold execute_intentions.
  pose proof (execute_pending_spec intentions self history) as H.
  destruct (execute_pending _ _ _ self intentions history) as [[s2 r2] h2].
  simpl in *. destruct H as [Hf He].
  split; [done |]. split; [done |].
  intros Hall. rewrite Hf. clear Hf He.
  induction Hall as [| i l Hi _ IH]; [done |].
  simpl. unfold settled at 1. by rewrite (bool_decide_eq_true_2 _ Hi).
Qed.

(** What every execution of an intention of a kind keeps is kept by
    [execute_intentions] on a list whose pending intentions are of that
    kind. *)
Lemma execute_pending_invariant (P : Agent -> Prop) (kind : IntentionType -> Prop)
    (intentions : list Intention) :
  (forall self i, P self -> kind (i_type i) -> P (fst (execute_intention self i))) ->
  forall (self : Agent) (history : list ActionRecord),
  P self ->
  Forall (fun i => status i = "pending" -> kind (i_type i)) intentions ->
  P (fst (fst (execute_pending Agent execute_intention agent_time self intentions history))).
Proof.
  intros Hstep. induction intentions as [| i rest IH]; intros self history HP Hall; simpl.
  - done.
  - apply Forall_cons in Hall as [Hi Hall].
    case_bool_decide as Hp.
    + pose proof (Hstep self (set_status i "executing") HP (Hi Hp)) as H1.
      destruct (execute_intention self (set_status i "executing")) as [self1 ok].
      simpl in H1.
      match goal with
      | |- context [execute_pending _ _ _ self1 rest ?h] =>
          specialize (IH self1 h H1 Hall);
          destruct (execute_pending _ _ _ self1 rest h) as [[self2 r2] h2]
      end.
      exact IH.
    + specialize (IH self history HP Hall).
      destruct (execute_pending _ _ _ self rest history) as [[self2 r2] h2].
      exact IH.
Qed.

Lemma execute_intentions_leaves_none_pending (self : Agent) (intentions : list Intention)
    (history : list ActionRecord) :
  Forall (fun i => status i <> "pending")
    (snd (fst (execute_intentions Agent execute_intention agent_time self intentions history))).
Proof.
  unfold execute_intentions.
  pose proof (execute_pending_spec intentions self history)
    as H.
  destruct (execute_pending _ _ _ self intentions history) as [[s2 r2] h2].
  simpl in *. destruct H as [Hf _]. rewrite Hf.
  apply Forall_forall. intros i Hi. apply list_elem_of_In, filter_In in Hi as [_ Hi].
  unfold settled in Hi. intros Hp. by rewrite (bool_decide_eq_true_2 _ Hp) in Hi.
Qed.

End IntentionProps.

Section BeliefProps.
Import Bdi.


End BeliefProps.

Section NearestProps.
Import Routing.

Variable fsqrt : Q -> Q.

Lemma nearest_fold (position : Pos) (values : list Node) :
  match foldl (nearest_step fsqrt position) None values with
  | None => values = []
  | Some (d, n) =>
      d = euclidean_distance fsqrt position (Routing.position n) /\
      exists l1 l2,
        values = l1 ++ n :: l2 /\
        Forall (fun m => (d < euclidean_distance fsqrt position (Routing.position m))%Q) l1 /\
        Forall (fun m => (d <= euclidean_distance fsqrt position (Routing.position m))%Q) l2
  end.
Proof.
  induction values as [| x values IH] using rev_ind; [done |].
  rewrite foldl_app. simpl.
  destruct (foldl (nearest_step fsqrt position) None values) as [[d n] |].
  - destruct IH as (-> & l1 & l2 & -> & H1 & H2). unfold nearest_step.
    destruct (Qltb _ _) eqn:E.
    + apply Qltb_lt in E. split; [done |].
      exists (l1 ++ n :: l2), []. split; [done |]. split; [| done].
      apply Forall_app. split.
      * eapply Forall_impl; [exact H1 |]. simpl. intros m Hm. lra.
      * constructor; [lra |]. eapply Forall_impl; [exact H2 |]. simpl. intros m Hm. lra.
    + apply Qltb_ge in E. split; [done |].
      exists l1, (l2 ++ [x]). rewrite <- app_assoc. split; [done |]. split; [done |].
      apply Forall_app. split; [done |]. by constructor.
  - subst values. simpl. split; [done |]. exists [], []. by repeat split.
Qed.

(** [get_nearest_node] returns nothing exactly on an empty network;
    otherwise it returns a node of the network that no node is closer
    than, the first such in the order of the dictionary. *)
Theorem nearest_node_is_nearest (values : list Node) (position : Pos) :
  match get_nearest_node fsqrt values position with
  | None => values = []
  | Some n =>
      exists l1 l2,
        values = l1 ++ n :: l2 /\
        Forall (fun m => (euclidean_distance fsqrt position (Routing.position n)
                          < euclidean_distance fsqrt position (Routing.position m))%Q) l1 /\
        Forall (fun m => (euclidean_distance fsqrt position (Routing.position n)
                          <= euclidean_distance fsqrt position (Routing.position m))%Q) l2
  end.
Proof.
  unfold get_nearest_node. pose proof (nearest_fold position values) as H.
  destruct (foldl _ None values) as [[d n] |]; simpl; [| done].
  destruct H as (-> & l1 & l2 & H). by exists l1, l2.
Qed.

End NearestProps.

Section CacheProps.
Import Routing.

Lemma alist_set_length {K V : Type} `{EqDecision K} (k : K) (v : V) (l : list (K * V)) :
  (length (alist_set k v l) <= S (length l))%nat.
Proof.
  induction l as [| [k' v'] l IH]; simpl; [lia |].
  destruct (decide (k' = k)); simpl; lia.
Qed.

Lemma alist_get_set {K V : Type} `{EqDecision K} (k : K) (v : V) (l : list (K * V)) :
  alist_get (alist_set k v l) k = Some v.
Proof.
  unfold alist_get. induction l as [| [k' v'] l IH]; simpl.
  - by rewrite bool_decide_eq_true_2.
  - destruct (decide (k' = k)) as [-> | Hne]; simpl.
    + by rewrite bool_decide_eq_true_2.
    + by rewrite bool_decide_eq_false_2.
Qed.

(** [_add_to_cache] with a capacity of at least 1 stores the route and
    leaves a cache that held no more routes than the capacity that way;
    when the cache is full it first drops the entry inserted first,
    whichever key is stored.  With a capacity of 0 or less the empty
    cache counts as full and the eviction raises [StopIteration]. *)
Theorem add_to_cache_bounded (cache_size : Z)
    (cache : list ((string * string) * list string))
    (cache_key : string * string) (path : list string) :
  ((1 <= cache_size)%Z ->
   (Z.of_nat (length cache) <= cache_size)%Z ->
   exists cache',
     add_to_cache cache_size cache cache_key path = Return cache' /\
     (Z.of_nat (length cache') <= cache_size)%Z /\
     alist_get cache' cache_key = Some path /\
     (Z.of_nat (length cache) = cache_size ->
      cache' = alist_set cache_key path (tail cache))) /\
  ((cache_size <= 0)%Z ->
   add_to_cache cache_size [] cache_key path = Throw StopIteration).
Proof.
  split.
  - intros Hpos Hle. unfold add_to_cache.
    destruct (Z.leb_spec cache_size (Z.of_nat (length cache))) as [Hfull | Hroom].
    + destruct cache as [| entry rest]; simpl in *; [lia |].
      eexists. split; [done |].
      pose proof (alist_set_length cache_key path rest).
      split; [lia |]. split; [apply alist_get_set | done].
    + eexists. split; [done |].
      pose proof (alist_set_length cache_key path cache).
      split; [lia |]. split; [apply alist_get_set | lia].
  - intros Hle. unfold add_to_cache.
    destruct (Z.leb_spec cache_size (Z.of_nat (@length ((string * string) * list string) [])));
      [done | simpl in *; lia].
Qed.

End CacheProps.

Section TrafficWeightProps.
Import Routing.

(** [update_traffic_weight] does not depend on the order in which the
    two ends of the road are given. *)
Theorem traffic_weight_symmetric (traffic_weights : list ((string * string) * Q))
    (node1_id node2_id : string) (congestion_factor : Q) :
  update_traffic_weight traffic_weights node1_id node2_id congestion_factor
  = update_traffic_weight traffic_weights node2_id node1_id congestion_factor.
Proof.
  unfold update_traffic_weight. f_equal. unfold edge_key, String.ltb.
  rewrite (String.compare_antisym node1_id node2_id).
  destruct (String.compare node2_id node1_id) eqn:E; simpl; [| done | done].
  apply String.compare_eq_iff in E. by subst.
Qed.

Lemma adjust_weight_single (ns : gmap string Node) (a b : string) (c : Q)
    (na nb : Node) :
  ns !! a = Some na -> ns !! b = Some nb ->
  let w := (default 1%Q (neighbors na !! b) * c)%Q in
  let ns' := adjust_weight ns ((a, b), c) in
  (exists na', ns' !! a = Some na' /\ neighbors na' !! b = Some w) /\
  (exists nb', ns' !! b = Some nb' /\ neighbors nb' !! a = Some w).
Proof.
  intros Ha Hb w ns'. subst ns'. unfold adjust_weight. rewrite Ha, Hb. fold w.
  split.
  - rewrite lookup_alter. case_decide as Hba.
    + subst b. rewrite lookup_alter_eq, Ha. simpl. eexists. split; [done |].
      simpl. by rewrite lookup_insert_eq.
    + rewrite lookup_alter_eq, Ha. simpl. eexists. split; [done |].
      simpl. by rewrite lookup_insert_eq.
  - rewrite lookup_alter_eq. destruct (decide (a = b)) as [<- | Hab].
    + rewrite lookup_alter_eq, Ha. simpl. eexists. split; [done |].
      simpl. by rewrite lookup_insert_eq.
    + rewrite lookup_alter_ne, Hb by done. simpl. eexists. split; [done |].
      simpl. by rewrite lookup_insert_eq.
Qed.

(** Building the weighted network changes the router's own network: the
    temporary network shares its nodes, so each call multiplies the
    stored weight of a road that has a traffic weight by the congestion
    factor once more (from 1.0 when the two nodes are not linked). *)
Theorem weighted_network_compounds (network : RoadNetwork) (a b : string) (c : Q)
    (na nb : Node) (k : nat) :
  nodes network !! a = Some na ->
  nodes network !! b = Some nb ->
  let round := fun net => fst (create_weighted_network net [((a, b), c)]) in
  let w0 := default 1%Q (neighbors na !! b) in
  weight_of (Nat.iter (S k) round network) a b
  = Some (Nat.iter (S k) (fun w => (w * c)%Q) w0) /\
  nodes (snd (create_weighted_network network [((a, b), c)])) = nodes (round network).
Proof.
  intros Ha Hb round w0. split; [| done].
  revert network na nb Ha Hb w0. induction k as [| k IH]; intros network na nb Ha Hb w0.
  - simpl. unfold weight_of, round, create_weighted_network. cbn [fst nodes foldl].
    destruct (adjust_weight_single (nodes network) a b c na nb Ha Hb) as [(na' & -> & Hw) _].
    simpl. exact Hw.
  - rewrite Nat.iter_succ_r.
    destruct (adjust_weight_single (nodes network) a b c na nb Ha Hb)
      as [(na' & Ha' & Hw) (nb' & Hb' & _)].
    specialize (IH (round network) na' nb' Ha' Hb'). cbv zeta in IH.
    rewrite IH, Hw. simpl. f_equal. fold w0.
    clear. induction k as [| k IHk]; [done |].
    simpl in *. by rewrite IHk.
Qed.

End TrafficWeightProps.

Section AStarProps.
Import Routing.

Variable fsqrt : Q -> Q.
Variable network : RoadNetwork.
Variables start_id end_id : string.

Lemma traces_mono (cf : gmap string string) (closed closed' : gset string)
    (n : string) (p : list string) :
  traces network cf closed start_id n p -> closed ⊆ closed' ->
  traces network cf closed' start_id n p.
Proof.
  intros H Hsub. induction H as [H0 | m prev p Hm Hc Hl _ IH].
  - by constructor.
  - apply trace_step with (previous := prev); [done | by apply Hsub | done | done].
Qed.

Lemma traces_insert (cf : gmap string string) (closed : gset string)
    (n x c : string) (p : list string) :
  traces network cf closed start_id c p ->
  c ∈ closed -> start_id ∈ closed -> n ∉ closed ->
  traces network (<[n := x]> cf) closed start_id c p.
Proof.
  intros H Hc Hs Hn. induction H as [H0 | m prev p Hm Hprev Hl _ IH].
  - constructor. rewrite lookup_insert_ne; [done | by intros ->].
  - apply trace_step with (previous := prev); [| done | done | by apply IH].
    rewrite lookup_insert_ne; [done | by intros ->].
Qed.

Lemma traces_nonempty (cf : gmap string string) (closed : gset string)
    (n : string) (p : list string) :
  traces network cf closed start_id n p -> last p = Some n /\ head p = Some start_id.
Proof.
  induction 1 as [H0 | m prev p Hm Hprev Hl _ [IHl IHh]]; [done |].
  rewrite last_snoc. split; [done |].
  destruct p; [done | done].
Qed.

Lemma traces_route (cf : gmap string string) (closed : gset string)
    (n : string) (p : list string) :
  traces network cf closed start_id n p -> is_route network start_id n p.
Proof.
  intros H. pose proof (traces_nonempty _ _ _ _ H) as [Hlast Hhead].
  split; [done |]. split; [done |].
  clear Hlast Hhead.
  induction H as [H0 | m prev p Hm Hprev Hl Hp IH].
  - intros i a b Ha Hb. by destruct i.
  - intros i a b Ha Hb.
    destruct (traces_nonempty _ _ _ _ Hp) as [Hlast _].
    rewrite last_lookup in Hlast.
    destruct (decide (S i < length p)%nat) as [Hlt | Hge].
    + rewrite lookup_app_l in Ha by lia. rewrite lookup_app_l in Hb by lia.
      by apply (IH i).
    + destruct (decide (S i = length p)) as [Heq | Hne].
      * rewrite lookup_app_l in Ha by lia.
        rewrite lookup_app_r in Hb by lia.
        rewrite <- Heq in Hlast. simpl in Hlast.
        rewrite Heq, Nat.sub_diag in Hb. simpl in Hb.
        congruence.
      * apply lookup_lt_Some in Hb. rewrite length_app in Hb. simpl in Hb. lia.
Qed.

Lemma reconstruct_traces (cf : gmap string string) (closed : gset string)
    (n : string) (p : list string) :
  traces network cf closed start_id n p ->
  forall (fuel : nat) (acc : list string),
    (length p <= fuel)%nat ->
    reconstruct_loop fuel cf n (acc ++ [n]) = Some (p ++ reverse acc).
Proof.
  induction 1 as [H0 | m prev p Hm Hprev Hl _ IH]; intros fuel acc Hfuel.
  - destruct fuel as [| fuel]; simpl in *; [lia |].
    rewrite H0. by rewrite reverse_app.
  - rewrite length_app in Hfuel. simpl in Hfuel.
    destruct fuel as [| fuel]; [lia |]. simpl. rewrite Hm.
    rewrite (IH fuel (acc ++ [m])) by lia.
    by rewrite reverse_app, <- app_assoc.
Qed.

Lemma least_item_in (rest : list (Q * string)) : forall first : Q * string,
  least_item first rest ∈ first :: rest.
Proof.
  unfold least_item. induction rest as [| x rest IH]; intros first; simpl.
  - apply list_elem_of_here.
  - specialize (IH (if item_lt x first then x else first)).
    destruct (item_lt x first);
      apply elem_of_cons in IH as [-> | IH];
      repeat (first [apply list_elem_of_here | apply list_elem_of_further]); done.
Qed.

Lemma remove_item_ids (x : Q * string) (l : list (Q * string)) :
  x ∈ l -> NoDup l.*2 ->
  NoDup (remove_item x l).*2 /\ (x.2 ∉ (remove_item x l).*2) /\
  (forall m, m ∈ (remove_item x l).*2 -> m ∈ l.*2) /\
  (forall m, m ∈ l.*2 -> m = x.2 \/ m ∈ (remove_item x l).*2).
Proof.
  induction l as [| y l IH]; intros Hin Hnd; [by apply elem_of_nil in Hin |].
  simpl in *. apply NoDup_cons in Hnd as [Hy Hnd].
  destruct (decide (y = x)) as [-> | Hne].
  - split; [done |]. split; [done |]. split; [intros m Hm; by right |].
    intros m Hm. apply elem_of_cons in Hm as [-> | Hm]; [by left | by right].
  - apply elem_of_cons in Hin as [-> | Hin]; [done |].
    destruct (IH Hin Hnd) as (IH1 & IH2 & IH3 & IH4).
    simpl. split; [| split; [| split]].
    + apply NoDup_cons. split; [| done]. intros Hc. apply Hy. by apply IH3.
    + intros Hc. apply elem_of_cons in Hc as [Hc | Hc]; [| done].
      apply Hy. rewrite <- Hc. by apply (list_elem_of_fmap_2 snd).
    + intros m Hm. apply elem_of_cons in Hm as [-> | Hm]; [by left |].
      right. by apply IH3.
    + intros m Hm. apply elem_of_cons in Hm as [-> | Hm]; [right; by left |].
      destruct (IH4 m Hm) as [-> | Hm']; [by left | right; by right].
Qed.

Lemma heappop_ids (heap rest : list (Q * string)) (f : Q) (current : string) :
  heappop heap = Some ((f, current), rest) ->
  NoDup heap.*2 ->
  current ∈ heap.*2 /\ NoDup rest.*2 /\ (current ∉ rest.*2) /\
  (forall m, m ∈ rest.*2 -> m ∈ heap.*2) /\
  (forall m, m ∈ heap.*2 -> m = current \/ m ∈ rest.*2).
Proof.
  unfold heappop. destruct heap as [| first more]; [done |].
  intros [= Hleast <-] Hnd. rewrite Hleast.
  pose proof (least_item_in more first) as Hin. rewrite Hleast in Hin.
  destruct (remove_item_ids (f, current) (first :: more) Hin Hnd) as (H1 & H2 & H3 & H4).
  split; [| done]. by apply (list_elem_of_fmap_2 snd _ (f, current)).
Qed.

Lemma heuristic_known (n : string) (h : Q) :
  heuristic fsqrt network end_id n = Ok h -> is_Some (nodes network !! n).
Proof.
  unfold heuristic. destruct (nodes network !! n); [done |]. by destruct (nodes network !! end_id).
Qed.

Lemma relax_neighbor_inv (st st' : AStarState) (current n : string) (w : Q) :
  search_inv network start_id st ->
  start_id ∈ closed_set st ->
  current ∈ closed_set st ->
  linked network current n ->
  relax_neighbor fsqrt network end_id current st (n, w) = Ok st' ->
  search_inv network start_id st' /\ closed_set st' = closed_set st.
Proof.
  intros Hinv Hstart Hcur Hlink. unfold relax_neighbor.
  case_bool_decide as Hclosed; [by intros [= <-] |].
  destruct (g_score st !! current) as [g_current |]; [| done].
  destruct (match g_score st !! n with Some g => Qltb _ g | None => true end);
    [| by intros [= <-]].
  destruct (heuristic fsqrt network end_id n) as [h |] eqn:Hh; simpl; [| done].
  intros [= <-]. split; [| done].
  destruct Hinv as (Hnd & Hopen & Hcl & _).
  destruct (Hcl current Hcur) as [_ (pc & Hpc & Hlen)].
  assert (Hnew : exists p,
            traces network (<[n := current]> (came_from st)) (closed_set st) start_id n p /\
            (length p <= S (size (closed_set st)))%nat).
  { exists (pc ++ [n]). split.
    - apply trace_step with (previous := current);
        [by rewrite lookup_insert_eq | done | done |].
      by apply traces_insert.
    - rewrite length_app. simpl. lia. }
  unfold search_inv. cbn [open_set came_from closed_set].
  split; [| split; [| split]].
  - destruct (existsb _ (open_set st)) eqn:E; [done |].
    unfold heappush. rewrite fmap_app. apply NoDup_app. split; [done |]. split.
    + intros m Hm Hm'. apply list_elem_of_singleton in Hm'. subst m.
      apply list_elem_of_fmap in Hm as ([f' n'] & Hn' & Hin). simpl in Hn'. subst n'.
      assert (existsb (fun item => bool_decide (item.2 = n)) (open_set st) = true); [| congruence].
      apply existsb_exists. exists (f', n). split; [by apply list_elem_of_In |].
      by apply bool_decide_eq_true.
    + apply NoDup_singleton.
  - intros m Hm.
    destruct (decide (m = n)) as [-> | Hmn].
    { split; [done |]. split; [by eapply heuristic_known | done]. }
    assert (Hm' : m ∈ (open_set st).*2).
    { destruct (existsb _ (open_set st)); [done |].
      unfold heappush in Hm. rewrite fmap_app in Hm. apply elem_of_app in Hm as [Hm | Hm]; [done |].
      apply list_elem_of_singleton in Hm. done. }
    destruct (Hopen m Hm') as (Hmc & Hmn' & p & Hp & Hplen).
    split; [done |]. split; [done |].
    exists p. split; [| done].
    inversion Hp as [H0 | m0 prev p0 Hm0 Hprev Hl Hp0]; subst.
    + done.
    + apply trace_step with (previous := prev);
        [by rewrite lookup_insert_ne | done | done |].
      by apply traces_insert.
  - intros c Hc. destruct (Hcl c Hc) as [Hcn (p & Hp & Hplen)].
    split; [done |]. exists p. split; [| done]. by apply traces_insert.
  - by left.
Qed.

Lemma relax_all_inv (neighbors : list (string * Q)) (current : string) :
  forall st st' : AStarState,
  search_inv network start_id st ->
  start_id ∈ closed_set st ->
  current ∈ closed_set st ->
  Forall (fun nb => linked network current nb.1) neighbors ->
  relax_all fsqrt network end_id current st neighbors = Ok st' ->
  search_inv network start_id st' /\ closed_set st' = closed_set st.
Proof.
  induction neighbors as [| [n w] rest IH]; intros st st' Hinv Hs Hc Hall;
    cbn [relax_all].
  - by intros [= <-].
  - apply Forall_cons in Hall as [Hn Hall].
    destruct (relax_neighbor fsqrt network end_id current st (n, w)) as [st1 |] eqn:E;
      cbn; [| done].
    destruct (relax_neighbor_inv _ _ _ _ _ Hinv Hs Hc Hn E) as [Hinv1 Hcl1].
    intros Hrest. destruct (IH st1 st') as [Hinv2 Hcl2]; try done; try congruence.
    split; [done | congruence].
Qed.

Lemma push_unless_present (heap : list (Q * string)) (f : Q) (n : string) :
  let heap' := if existsb (fun item => bool_decide (item.2 = n)) heap
               then heap else heappush heap (f, n) in
  n ∈ heap'.*2 /\ (forall m, m ∈ heap.*2 -> m ∈ heap'.*2).
Proof.
  destruct (existsb _ heap) eqn:E; simpl.
  - split; [| done]. apply existsb_exists in E as ([f' n'] & Hin & Hn).
    apply bool_decide_eq_true in Hn. simpl in Hn. subst n'.
    apply (list_elem_of_fmap_2 snd _ (f', n)). by apply list_elem_of_In.
  - unfold heappush. rewrite fmap_app. split.
    + apply elem_of_app. right. by apply list_elem_of_singleton.
    + intros m Hm. apply elem_of_app. by left.
Qed.

Lemma relax_neighbor_frontier (st st' : AStarState) (current n : string) (w : Q)
    (evaluated : gset string) :
  frontier_inv network start_id end_id st evaluated ->
  relax_neighbor fsqrt network end_id current st (n, w) = Ok st' ->
  frontier_inv network start_id end_id st' evaluated /\
  (n ∈ closed_set st' \/ n ∈ (open_set st').*2) /\
  (forall m, m ∈ (open_set st).*2 -> m ∈ (open_set st').*2) /\
  closed_set st' = closed_set st.
Proof.
  intros (H0 & Hend & Hg & Hc). unfold relax_neighbor.
  case_bool_decide as Hclosed.
  { intros [= <-]. repeat split; try done. by left. }
  destruct (g_score st !! current) as [g_current |]; [| done].
  assert (Hupd : forall h : Q,
    let st1 := {| open_set :=
                    if existsb (fun item => bool_decide (item.2 = n)) (open_set st)
                    then open_set st
                    else heappush (open_set st) ((g_current + w + h)%Q, n);
                  came_from := <[n := current]> (came_from st);
                  g_score := <[n := (g_current + w)%Q]> (g_score st);
                  f_score := <[n := (g_current + w + h)%Q]> (f_score st);
                  closed_set := closed_set st |} in
    frontier_inv network start_id end_id st1 evaluated /\
    (n ∈ closed_set st1 \/ n ∈ (open_set st1).*2) /\
    (forall m, m ∈ (open_set st).*2 -> m ∈ (open_set st1).*2) /\
    closed_set st1 = closed_set st).
  { intros h st1.
    destruct (push_unless_present (open_set st) (g_current + w + h)%Q n) as [Hn Hmono].
    subst st1. unfold frontier_inv. cbn [open_set closed_set g_score].
    split; [| split; [by right | split; done]].
    split; [| split; [done | split]].
    - destruct H0 as [? | ?]; [by left | right; by apply Hmono].
    - intros m Hm. destruct (decide (m = n)) as [-> | Hmn]; [by right |].
      rewrite lookup_insert_ne in Hm by done.
      destruct (Hg m Hm) as [? | ?]; [by left | right; by apply Hmono].
    - intros c m Hcc Hl. destruct (Hc c m Hcc Hl) as [? | ?]; [by left | right; by apply Hmono]. }
  destruct (g_score st !! n) as [g |] eqn:Hgn.
  - destruct (Qltb (g_current + w) g).
    + destruct (heuristic fsqrt network end_id n) as [h |]; simpl; [| done].
      intros [= <-]. apply Hupd.
    + intros [= <-]. split; [done |]. split; [| done]. apply Hg. by rewrite Hgn.
  - destruct (heuristic fsqrt network end_id n) as [h |]; simpl; [| done].
    intros [= <-]. apply Hupd.
Qed.

Lemma relax_all_frontier (neighbors : list (string * Q)) (current : string)
    (evaluated : gset string) :
  forall st st' : AStarState,
  frontier_inv network start_id end_id st evaluated ->
  relax_all fsqrt network end_id current st neighbors = Ok st' ->
  frontier_inv network start_id end_id st' evaluated /\
  Forall (fun nb => nb.1 ∈ closed_set st' \/ nb.1 ∈ (open_set st').*2) neighbors /\
  (forall m, m ∈ (open_set st).*2 -> m ∈ (open_set st').*2) /\
  closed_set st' = closed_set st.
Proof.
  induction neighbors as [| [n w] rest IH]; intros st st' Hinv; cbn [relax_all].
  - intros [= <-]. split; [done |]. split; [constructor |]. by split.
  - destruct (relax_neighbor fsqrt network end_id current st (n, w)) as [st1 |] eqn:E;
      cbn; [| done].
    destruct (relax_neighbor_frontier _ _ _ _ _ _ Hinv E) as (Hinv1 & Hn & Hmono1 & Hcl1).
    intros Hrest. destruct (IH st1 st' Hinv1 Hrest) as (Hinv2 & Hall & Hmono2 & Hcl2).
    split; [done |]. split; [| split; [| congruence]].
    + constructor; [| done]. simpl.
      destruct Hn as [Hn | Hn]; [left; congruence | right; by apply Hmono2].
    + intros m Hm. by apply Hmono2, Hmono1.
Qed.

Lemma route_stays_inside (closed : gset string) (goal : string) (path : list string) :
  start_id ∈ closed ->
  (forall c n, c ∈ closed -> linked network c n -> n ∈ closed) ->
  is_route network start_id goal path ->
  goal ∈ closed.
Proof.
  intros Hs Hstep (Hhead & Hlast & Hlinks).
  assert (Hall : forall i a, path !! i = Some a -> a ∈ closed).
  { induction i as [| i IHi]; intros a Ha.
    - rewrite <- head_lookup, Hhead in Ha. by injection Ha as <-.
    - destruct (path !! i) as [b |] eqn:Hb.
      + apply (Hstep b a); [by apply IHi | by apply (Hlinks i)].
      + apply lookup_ge_None in Hb. apply lookup_lt_Some in Ha. lia. }
  rewrite last_lookup in Hlast. by apply (Hall _ _ Hlast).
Qed.

Lemma closed_known (st : AStarState) :
  search_inv network start_id st ->
  (size (closed_set st) <= size (nodes network))%nat.
Proof.
  intros (_ & _ & Hcl & _).
  rewrite <- (size_dom (D := gset string) (nodes network)).
  apply subseteq_size. intros c Hc. apply elem_of_dom. by apply Hcl.
Qed.

Lemma a_star_loop_total (fuel : nat) : forall st : AStarState,
  search_inv network start_id st ->
  frontier_inv network start_id end_id st (closed_set st) ->
  (size (nodes network) < fuel + size (closed_set st))%nat ->
  exists r, a_star_loop fsqrt fuel network end_id st = Some r /\
            (forall path, r = Ok (Some path) -> is_route network start_id end_id path) /\
            (r = Ok None -> forall path, ~ is_route network start_id end_id path).
Proof.
  induction fuel as [| fuel IH]; intros st Hinv Hfront Hfuel.
  { pose proof (closed_known st Hinv). lia. }
  simpl.
  destruct Hfront as (F0 & Fend & Fg & Fc).
  destruct (heappop (open_set st)) as [[[f current] rest] |] eqn:Hpop.
  2: { eexists. split; [done |]. split; [by intros path [=] |].
       intros _ path Hroute.
       assert (Hempty : open_set st = []).
       { unfold heappop in Hpop. by destruct (open_set st). }
       rewrite Hempty in F0, Fc. simpl in F0, Fc.
       apply Fend. apply (route_stays_inside (closed_set st) end_id path); [| | done].
       - destruct F0 as [? | F0]; [done | by apply elem_of_nil in F0].
       - intros c n Hc Hl. destruct (Fc c n Hc Hl) as [? | Hn]; [done |].
         by apply elem_of_nil in Hn. }
  pose proof Hinv as (Hnd & Hopen & Hcl & Hfirst).
  destruct (heappop_ids _ _ _ _ Hpop Hnd) as (Hcur & Hndrest & Hcurrest & Hsub & Hsup).
  destruct (Hopen current Hcur) as (Hcurc & [node Hnode] & p & Hp & Hplen).
  case_bool_decide as Hend.
  - subst current. unfold reconstruct_path.
    rewrite (reconstruct_traces _ _ _ _ Hp _ []) by done.
    rewrite app_nil_r. eexists. split; [done |]. split; [| done].
    intros path [= <-]. by eapply traces_route.
  - rewrite Hnode.
    set (st1 := {| open_set := rest; came_from := came_from st; g_score := g_score st;
                   f_score := f_score st; closed_set := {[ current ]} ∪ closed_set st |}).
    assert (Hsize : size (closed_set st1) = S (size (closed_set st))).
    { simpl. rewrite size_union by (by apply disjoint_singleton_l).
      by rewrite size_singleton. }
    assert (Hstart1 : start_id ∈ closed_set st1).
    { simpl. destruct Hfirst as [Hs | [Hemp Hcf]]; [by apply elem_of_union_r |].
      inversion Hp as [H0 | m prev p0 Hm Hprev Hl Hp0]; subst;
        [by apply elem_of_union_l, elem_of_singleton |].
      rewrite Hcf in Hm. by rewrite lookup_empty in Hm. }
    assert (Hinv1 : search_inv network start_id st1).
    { unfold search_inv. rewrite Hsize. cbn [open_set came_from closed_set st1].
      split; [done |]. split; [| split].
      - intros m Hm. destruct (Hopen m (Hsub m Hm)) as (Hmc & Hmn & pm & Hpm & Hpmlen).
        split; [| split; [done |]].
        + assert (m <> current) by (intros ->; done).
          intros [?%elem_of_singleton | ?]%elem_of_union; done.
        + exists pm. split; [| lia]. eapply traces_mono; [done | apply union_subseteq_r].
      - intros c Hc. apply elem_of_union in Hc as [Hc | Hc].
        + apply elem_of_singleton in Hc. subst c. split; [done |].
          exists p. split; [| done]. eapply traces_mono; [done | apply union_subseteq_r].
        + destruct (Hcl c Hc) as [Hcn (pc & Hpc & Hpclen)]. split; [done |].
          exists pc. split; [| lia]. eapply traces_mono; [done | apply union_subseteq_r].
      - by left. }
    assert (Hfront1 : frontier_inv network start_id end_id st1 (closed_set st)).
    { assert (Hmove : forall m, m ∈ closed_set st \/ m ∈ (open_set st).*2 ->
                m ∈ {[ current ]} ∪ closed_set st \/ m ∈ rest.*2).
      { intros m [Hm | Hm]; [left; by apply elem_of_union_r |].
        destruct (Hsup m Hm) as [-> | Hm'];
          [left; by apply elem_of_union_l, elem_of_singleton | by right]. }
      unfold frontier_inv. cbn [open_set closed_set g_score st1].
      split; [by apply Hmove |]. split; [| split].
      - intros [?%elem_of_singleton | ?]%elem_of_union; [by subst | done].
      - intros m Hm. by apply Hmove, Fg.
      - intros c m Hc Hl. by apply Hmove, (Fc c). }
    destruct (relax_all fsqrt network end_id current st1 (map_to_list (neighbors node)))
      as [st2 |] eqn:Hrelax.
    2: { eexists. split; [done |]. split; [by intros path [=] | done]. }
    destruct (relax_all_inv (map_to_list (neighbors node)) current st1 st2 Hinv1 Hstart1)
      as [Hinv2 Hcl2]; try done.
    + simpl. by apply elem_of_union_l, elem_of_singleton.
    + apply Forall_forall. intros [n w] Hin. apply elem_of_map_to_list in Hin.
      unfold linked, weight_of. rewrite Hnode. simpl. by rewrite Hin.
    + destruct (relax_all_frontier _ _ _ _ _ Hfront1 Hrelax)
        as ((G0 & Gend & Gg & Gc) & Hdone & _ & _).
      apply IH; [done | | rewrite Hcl2, Hsize; lia].
      split; [done |]. split; [done |]. split; [done |].
      intros c n Hc Hl. rewrite Hcl2 in Hc. simpl in Hc.
      apply elem_of_union in Hc as [Hc | Hc]; [| by apply (Gc c)].
      apply elem_of_singleton in Hc. subst c.
      destruct Hl as [w Hw]. unfold weight_of in Hw. rewrite Hnode in Hw. simpl in Hw.
      rewrite Forall_forall in Hdone.
      apply (Hdone (n, w)). by apply elem_of_map_to_list.
Qed.

(** [_a_star] returns: its loop needs no more rounds than the network
    has nodes, plus one.  A path it
    returns is a route of the network: it starts at the start node, ends
    at the end node, and each node on it lists the next one among its
    neighbours.  And it returns no path only when the network has no
    route from the start node to the end node. *)
Theorem a_star_returns_route (fuel : nat) :
  (size (nodes network) < fuel)%nat ->
  exists r, a_star fsqrt fuel network start_id end_id = Some r /\
            (forall path, r = Ok (Some path) -> is_route network start_id end_id path) /\
            (r = Ok None -> forall path, ~ is_route network start_id end_id path).
Proof.
  intros Hfuel. unfold a_star.
  destruct (heuristic fsqrt network end_id start_id) as [h |] eqn:Hh.
  2: { eexists. split; [done |]. split; [by intros path [=] | done]. }
  apply a_star_loop_total; [| | cbn [closed_set]; rewrite size_empty; lia].
  - unfold search_inv. cbn [open_set came_from closed_set heappush]. simpl.
    split; [apply NoDup_singleton |]. split; [| split].
    + intros m Hm. apply list_elem_of_singleton in Hm. subst m.
      split; [by apply not_elem_of_empty |]. split; [by eapply heuristic_known |].
      exists [start_id]. split; [by constructor | simpl; lia].
    + intros c Hc. by apply elem_of_empty in Hc.
    + by right.
  - unfold frontier_inv. cbn [open_set closed_set g_score heappush]. simpl.
    split; [right; by apply list_elem_of_singleton |].
    split; [by apply not_elem_of_empty |]. split.
    + intros n [g Hn]. apply lookup_singleton_Some in Hn as [<- _].
      right. by apply list_elem_of_singleton.
    + intros c n Hc. by apply elem_of_empty in Hc.
Qed.

End AStarProps.

Section FindPathProps.
Import Routing.

Variable fsqrt : Q -> Q.

Lemma positions_of_same (net net' : RoadNetwork) (ids : list string) :
  (forall k, position <$> (nodes net !! k) = position <$> (nodes net' !! k)) ->
  positions_of net ids = positions_of net' ids.
Proof.
  intros Hpos. induction ids as [| k ids IH]; [done |]. simpl.
  specialize (Hpos k).
  destruct (nodes net !! k) as [n |], (nodes net' !! k) as [n' |]; simpl in *; try done.
  injection Hpos as ->. by rewrite IH.
Qed.

(** A route held in the cache is returned as it is: the search is not
    run (no fuel is needed), and the answer is the same on any network
    whose nodes have the same positions, whatever roads have been added
    or removed since the route was stored. *)
Theorem cached_route_ignores_roads (fuel fuel' : nat) (values : list Node)
    (net net' : RoadNetwork) (self : AStarRouter) (start_pos end_pos : Pos)
    (start_node end_node : Node) (path : list string) :
  get_nearest_node fsqrt values start_pos = Some start_node ->
  get_nearest_node fsqrt values end_pos = Some end_node ->
  alist_get (route_cache self) (id start_node, id end_node) = Some path ->
  (forall k, position <$> (nodes net !! k) = position <$> (nodes net' !! k)) ->
  find_path fsqrt fuel values net self start_pos end_pos
  = find_path fsqrt fuel' values net' self start_pos end_pos /\
  is_Some (find_path fsqrt 0 values net self start_pos end_pos).
Proof.
  intros Hs He Hc Hpos. unfold find_path. rewrite Hs, He.
  case_bool_decide; [done |]. rewrite Hc.
  rewrite (positions_of_same net net' _ Hpos).
  split; [done |].
  destruct path as [| x path]; [done |].
  by destruct (positions_of net' (inner (x :: path))).
Qed.

End FindPathProps.

Section FindPathExamples.
Import Routing Examples.

(** The cached route of the example town, before and after its only
    road is removed. *)
Lemma cached_route_witness :
  find_path sqrt_floor 3 town detour_net warm_router (0%Q, 0%Q) (3%Q, 4%Q)
  = find_path sqrt_floor 3 town (remove_edge detour_net "a" "b") warm_router (0%Q, 0%Q) (3%Q, 4%Q).
Proof.
  apply (cached_route_ignores_roads sqrt_floor 3 3 town detour_net
           (remove_edge detour_net "a" "b") warm_router (0%Q, 0%Q) (3%Q, 4%Q)
           (Node_init (0%Q, 0%Q) "a") (Node_init (3%Q, 4%Q) "b") ["a"; "b"]).
  - reflexivity.
  - reflexivity.
  - reflexivity.
  - intros k. symmetry. apply remove_edge_keeps_positions.
Defined.

(** With the road removed a search finds no path, and the router with
    the route in its cache still sends the vehicle along it. *)
Example blocked_road_still_routed :
  a_star sqrt_floor 3 (remove_edge detour_net "a" "b") "a" "b" = Some (Ok None) /\
  (snd <$> (find_path sqrt_floor 3 town (remove_edge detour_net "a" "b") warm_router
              (0%Q, 0%Q) (3%Q, 4%Q)
            ≫= fun o => match o with Return r => Some r | Throw _ => None end))
  = Some (Some [(0%Q, 0%Q); (3%Q, 4%Q)]).
Proof. split; vm_compute; reflexivity. Qed.

End FindPathExamples.

Section VehicleInvariants.
Import Bdi Vehicle.

Variable fsqrt : Q -> Q.

Lemma Qmin_spec (a b : Q) : (Qmin a b <= a)%Q /\ (Qmin a b <= b)%Q /\
  (forall c, (c <= a)%Q -> (c <= b)%Q -> (c <= Qmin a b)%Q).
Proof.
  unfold Qmin. destruct (Qltb b a) eqn:E.
  - apply Qltb_lt in E. repeat split; try lra. intros; lra.
  - apply Qltb_ge in E. repeat split; try lra. intros; lra.
Qed.

Lemma Qmax_spec (a b : Q) : (a <= Qmax a b)%Q /\ (b <= Qmax a b)%Q /\
  (forall c, (a <= c)%Q -> (b <= c)%Q -> (Qmax a b <= c)%Q).
Proof.
  unfold Qmax. destruct (Qltb a b) eqn:E.
  - apply Qltb_lt in E. repeat split; try lra. intros; lra.
  - apply Qltb_ge in E. repeat split; try lra. intros; lra.
Qed.

Lemma execute_intention_keeps (m : Model) (v : VehicleAgent) (i : Intention) :
  (0 <= time_step m)%Q ->
  speed_bounded v -> route_consistent v -> target_within (max_speed v) i ->
  let v' := fst (execute_intention fsqrt m v i) in
  speed_bounded v' /\ route_consistent v' /\ max_speed v' = max_speed v.
Proof.
  intros Hdt (Ha & Hd & Hs0 & Hs1) (Hidx & Hrc) Ht v'. subst v'.
  assert (Hsame : speed_bounded v /\ route_consistent v /\ max_speed v = max_speed v).
  { unfold speed_bounded, route_consistent. repeat split; try done; lia. }
  unfold execute_intention. destruct (i_type i).
  - (* MOVE_FORWARD *)
    unfold move_forward.
    destruct (current_route v !! Z.to_nat (current_waypoint_index v)) as [target |] eqn:E;
      [| exact Hsame].
    apply lookup_lt_Some in E.
    destruct v as [uid vt bel act ct pos org dst spd mx acc dec route idx rt ri stopped waiting stuck dist tt rc sc lmt hist]. unfold speed_bounded, route_consistent in *. simpl in *.
    split; [| split; [| done]].
    + split; [done |]. split; [done |].
      destruct (Qltb spd mx) eqn:Hlt; [| by split].
      destruct (Qmin_spec (spd + acc * time_step m) mx) as (_ & H2 & H3).
      split; [| done]. apply H3; [nra | lra].
    + split; [| done]. destruct (Qltb _ 5); lia.
  - (* CHANGE_ROUTE *)
    unfold recalculate_route.
    destruct (match get_belief (beliefs v) TRAFFIC_STATE with
              | PDict d => as_number (dict_get d "congestion_level" (PNum 0))
              | _ => Ok 0%Q
              end) as [level |]; simpl; [| exact Hsame].
    destruct (calculate_route m) as [router |]; [| exact Hsame].
    destruct (router (position v) (destination v)) as [[| wp rest] |]; try exact Hsame.
    destruct v as [uid vt bel act ct pos org dst spd mx acc dec route idx rt ri stopped waiting stuck dist tt rc sc lmt hist]. unfold speed_bounded, route_consistent in *. simpl in *.
    split; [done |]. split; [| done]. split; [lia |].
    rewrite length_app, Nat2Z.inj_add. cbn [length].
    destruct hist; simpl in *; lia.
  - (* STOP *)
    destruct v as [uid vt bel act ct pos org dst spd mx acc dec route idx rt ri stopped waiting stuck dist tt rc sc lmt hist]. unfold speed_bounded, route_consistent in *. simpl in *.
    repeat split; try done; try lra; lia.
  - exact Hsame.
  - exact Hsame.
  - exact Hsame.
  - (* ACCELERATE *)
    destruct (parameters i !! "target_speed") as [t |] eqn:Hp.
    + unfold dict_get. rewrite Hp.
      destruct (as_number t) as [q |] eqn:Hq; [| exact Hsame].
      destruct (Ht t q Hp Hq) as [Hq0 Hq1].
      destruct v as [uid vt bel act ct pos org dst spd mx acc dec route idx rt ri stopped waiting stuck dist tt rc sc lmt hist]. unfold speed_bounded, route_consistent in *. simpl in *.
      split; [| done]. split; [done |]. split; [done |].
      destruct (Qmin_spec q mx) as (Hm1 & Hm2 & Hm3).
      destruct (Qmin_spec (spd + acc * time_step m) (Qmin q mx))
        as (_ & H2 & H3).
      split; [| lra]. apply H3; [nra |]. apply Hm3; lra.
    + unfold dict_get. rewrite Hp. simpl.
      destruct v as [uid vt bel act ct pos org dst spd mx acc dec route idx rt ri stopped waiting stuck dist tt rc sc lmt hist]. unfold speed_bounded, route_consistent in *. simpl in *.
      split; [| done]. split; [done |]. split; [done |].
      destruct (Qmin_spec mx mx) as (Hm1 & Hm2 & Hm3).
      destruct (Qmin_spec (spd + acc * time_step m) (Qmin mx mx))
        as (_ & H2 & H3).
      split; [| lra]. apply H3; [nra |]. apply Hm3; lra.
  - (* DECELERATE *)
    assert (Hdec : forall q, (0 <= q)%Q -> (q <= max_speed v)%Q ->
              let v' := fst (decelerate m v q) in
              speed_bounded v' /\ route_consistent v' /\ max_speed v' = max_speed v).
    { intros q Hq0 Hq1. destruct v as [uid vt bel act ct pos org dst spd mx acc dec route idx rt ri stopped waiting stuck dist tt rc sc lmt hist]. unfold speed_bounded, route_consistent in *. simpl in *.
      split; [| done]. split; [done |]. split; [done |].
      destruct (Qmax_spec q 0) as (Hm1 & Hm2 & Hm3).
      destruct (Qmax_spec (spd - dec * time_step m) (Qmax q 0))
        as (_ & H2 & H3).
      split; [lra |]. apply H3; [nra |]. apply Hm3; lra. }
    destruct (parameters i !! "target_speed") as [t |] eqn:Hp.
    + unfold dict_get. rewrite Hp.
      destruct (as_number t) as [q |] eqn:Hq; [| exact Hsame].
      destruct (Ht t q Hp Hq) as [Hq0 Hq1]. by apply Hdec.
    + unfold dict_get. rewrite Hp. simpl. apply Hdec; lra.
Qed.

Lemma deliberate_keeps (v : VehicleAgent) (nearby : option (list (Pos * Q))) :
  speed_bounded v -> route_consistent v ->
  speed_bounded (fst (deliberate fsqrt v nearby)) /\
  route_consistent (fst (deliberate fsqrt v nearby)) /\
  max_speed (fst (deliberate fsqrt v nearby)) = max_speed v /\
  Forall (target_within (max_speed v)) (snd (deliberate fsqrt v nearby)).
Proof.
  intros Hs Hr.
  assert (Hnone : forall t p d, target_within (max_speed v) (new_intention t ∅ p d)).
  { intros t p d x q Hx. simpl in Hx. by rewrite lookup_empty in Hx. }
  assert (Hhalf : forall p d,
            target_within (max_speed v)
              (new_intention DECELERATE
                 {[ "target_speed" := PNum (speed v * (1 # 2))%Q ]} p d)).
  { intros p d x q Hx Hq. simpl in Hx. apply lookup_singleton_Some in Hx as [_ <-].
    injection Hq as <-. destruct Hs as (_ & _ & H0 & H1). split; lra. }
  unfold deliberate.
  destruct (current_route v) as [| wp rest] eqn:Hroute.
  { repeat split; try done; try apply Hs; try apply Hr.
    constructor; [apply Hnone | constructor]. }
  destruct (is_at_destination fsqrt v).
  { split; [| split; [| split]]; [| | | constructor; [apply Hnone | constructor]];
      destruct v; unfold speed_bounded, route_consistent in *; by simpl in *. }
  set (reroute := py_eq_str _ _ && Qleb _ _).
  set (v1 := if reroute then set_recalculation_timer v 0 else v).
  assert (Hv1 : speed_bounded v1 /\ route_consistent v1 /\ max_speed v1 = max_speed v /\
                speed v1 = speed v).
  { subst v1. destruct reroute; [| done].
    destruct v. unfold speed_bounded, route_consistent in *. by simpl in *. }
  destruct Hv1 as (Hs1 & Hr1 & Hm1 & Hsp1).
  assert (Hfirst : Forall (target_within (max_speed v))
            (if reroute
             then [new_intention CHANGE_ROUTE ∅ (7 # 10) (Some AVOID_CONGESTION)]
             else [])).
  { destruct reroute; [constructor; [apply Hnone | constructor] | constructor]. }
  destruct (waiting_at_intersection v1); [done |].
  destruct (match nearby with
            | Some (vehicle :: rest0) => vehicle_ahead fsqrt v1 (vehicle :: rest0)
            | _ => false
            end); simpl.
  - repeat split; try done; try apply Hs1; try apply Hr1.
    apply Forall_app. split; [done |]. rewrite Hsp1.
    constructor; [apply Hhalf | constructor].
  - repeat split; try done; try apply Hs1; try apply Hr1.
    apply Forall_app. split; [done |]. constructor; [apply Hnone | constructor].
Qed.

Lemma execute_pending_keeps (m : Model) (bound : Q) (intentions : list Intention) :
  forall (v : VehicleAgent) (history : list ActionRecord),
  (0 <= time_step m)%Q ->
  speed_bounded v -> route_consistent v -> max_speed v = bound ->
  Forall (fun i => status i = "pending" -> target_within bound i) intentions ->
  let r := execute_pending VehicleAgent (execute_intention fsqrt m) current_time
             v intentions history in
  speed_bounded r.1.1 /\ route_consistent r.1.1 /\ max_speed r.1.1 = bound.
Proof.
  induction intentions as [| i rest IH]; intros v history Hdt Hs Hr Hm Hall; simpl.
  - done.
  - apply Forall_cons in Hall as [Hi Hall].
    case_bool_decide as Hp.
    + pose proof (execute_intention_keeps m v (set_status i "executing") Hdt Hs Hr) as Hk.
      destruct (execute_intention fsqrt m v (set_status i "executing")) as [v1 ok].
      simpl in Hk. destruct Hk as (Hs1 & Hr1 & Hm1).
      { rewrite Hm. by apply Hi. }
      match goal with
      | |- context [execute_pending _ _ _ v1 rest ?h] =>
          specialize (IH v1 h Hdt Hs1 Hr1 ltac:(congruence) Hall);
          destruct (execute_pending _ _ _ v1 rest h) as [[v2 r2] h2]
      end.
      exact IH.
    + specialize (IH v history Hdt Hs Hr Hm Hall).
      destruct (execute_pending _ _ _ v rest history) as [[v2 r2] h2].
      exact IH.
Qed.

(** One round of deliberation and execution keeps a vehicle in order:
    its speed stays between 0 and [max_speed], its waypoint index within
    the route, and [route_changes] equal to the number of recorded
    reroutes, and [max_speed] is not changed.  This is for a time step
    and rates of acceleration and deceleration that are not negative,
    and with no intention left pending by the round before. *)
Theorem vehicle_round_keeps_bounds (m : Model) (v : VehicleAgent)
    (nearby : option (list (Pos * Q))) (intentions : list Intention)
    (history : list ActionRecord) :
  (0 <= time_step m)%Q ->
  speed_bounded v -> route_consistent v ->
  Forall (fun i => status i <> "pending") intentions ->
  let v' := (deliberate_and_execute fsqrt m v nearby intentions history).1.1 in
  speed_bounded v' /\ route_consistent v' /\ max_speed v' = max_speed v.
Proof.
  intros Hdt Hs Hr Hold v'. subst v'. unfold deliberate_and_execute, execute_intentions.
  destruct (deliberate_keeps v nearby Hs Hr) as (Hs1 & Hr1 & Hm1 & Hnew).
  destruct (deliberate fsqrt v nearby) as [v1 new_intentions]. simpl in *.
  pose proof (execute_pending_keeps m (max_speed v) (intentions ++ new_intentions)
                v1 history Hdt Hs1 Hr1 Hm1) as H.
  destruct (execute_pending _ _ _ v1 (intentions ++ new_intentions) history)
    as [[v2 r2] h2].
  simpl in *. apply H. apply Forall_app. split.
  - eapply Forall_impl; [exact Hold |]. by intros i Hi Hp.
  - eapply Forall_impl; [exact Hnew |]. by intros i Hi _.
Qed.

End VehicleInvariants.

Section VehicleInvariantExamples.
Import Bdi Vehicle Examples.

(** A round of the example car. *)
Lemma vehicle_round_witness :
  speed_bounded (deliberate_and_execute Routing.sqrt_floor no_path_model car None [] []).1.1.
Proof.
  apply (vehicle_round_keeps_bounds Routing.sqrt_floor no_path_model car None [] []).
  - vm_compute. discriminate.
  - unfold speed_bounded. simpl. repeat split; vm_compute; discriminate.
  - unfold route_consistent. simpl. split; [lia | reflexivity].
  - constructor.
Defined.

End VehicleInvariantExamples.

Section SpacingProps.
Import Intersection.

Variable fsqrt : Q -> Q.

Lemma add_fold_lookup (c : Q) (ds : list Direction) :
  NoDup ds ->
  forall (m : gmap Direction Q) (k : Direction),
  foldl (fun acc d => <[d := (default 0%Q (acc !! d) + c)%Q]> acc) m ds !! k
  = if decide (k ∈ ds) then Some (default 0%Q (m !! k) + c)%Q else m !! k.
Proof.
  induction 1 as [| d ds Hd Hnd IH]; intros m k; cbn [foldl].
  - by rewrite decide_False by apply not_elem_of_nil.
  - rewrite IH. destruct (decide (k = d)) as [-> | Hne].
    + rewrite (decide_False (P := d ∈ ds)) by done.
      rewrite (decide_True (P := d ∈ d :: ds)) by apply list_elem_of_here.
      by rewrite lookup_insert_eq.
    + rewrite lookup_insert_ne by done.
      destruct (decide (k ∈ ds)) as [Hin | Hnin].
      * by rewrite decide_True by (by apply list_elem_of_further).
      * rewrite decide_False; [done |]. by intros [? | ?]%elem_of_cons.
Qed.

Lemma advance_timer_of (s : IntersectionAgent) (d : Direction) :
  NoDup (directions s) -> d ∈ directions s ->
  timer_of (advance_timers s) d = (timer_of s d + time_step s)%Q.
Proof.
  intros Hnd Hd. unfold timer_of, advance_timers. cbn [light_timers set_light_timers rewrite_state].
  rewrite add_fold_lookup by done. by rewrite decide_True.
Qed.

Lemma green_fold_le (s : IntersectionAgent) (bound : Q) (l : list Direction) :
  (forall d, d ∈ l -> (timer_of s d <= bound)%Q) ->
  forall acc : Q, (acc <= bound)%Q ->
  (foldl (fun a d => if is_green s d then Qmax a (timer_of s d) else a) acc l <= bound)%Q.
Proof.
  induction l as [| x l IH]; intros Hall acc Hacc; cbn [foldl]; [done |].
  apply IH.
  - intros d Hd. apply Hall. by apply list_elem_of_further.
  - destruct (is_green s x); [| done].
    unfold Qmax. destruct (Qltb acc (timer_of s x)); [| done].
    apply Hall. apply list_elem_of_here.
Qed.

Lemma green_timer_le (s : IntersectionAgent) (bound : Q) :
  (0 <= bound)%Q ->
  (forall d, d ∈ directions s -> (timer_of s d <= bound)%Q) ->
  (current_green_timer s <= bound)%Q.
Proof. intros H0 Hall. by apply green_fold_le. Qed.

Lemma should_change_frame (s : IntersectionAgent) (rnd1 rnd2 : Q) :
  (current_green_timer s < min_green_time s)%Q ->
  exists s', should_change_phase s rnd1 rnd2 = Ok (s', false) /\
             directions s' = directions s /\
             traffic_lights s' = traffic_lights s /\
             light_timers s' = light_timers s /\
             min_green_time s' = min_green_time s /\
             model_time_step s' = model_time_step s.
Proof.
  intros H. unfold should_change_phase.
  destruct (green_wave_active s); [| exists s; by rewrite policy_below_floor].
  destruct (Qltb 0 (green_wave_timer s - time_step s)); [by eexists |].
  eexists. by rewrite policy_below_floor.
Qed.

Lemma change_frame (s : IntersectionAgent) :
  directions (fst (change_traffic_light_phase s)) = directions s /\
  min_green_time (fst (change_traffic_light_phase s)) = min_green_time s /\
  model_time_step (fst (change_traffic_light_phase s)) = model_time_step s.
Proof.
  unfold change_traffic_light_phase.
  destruct (List.filter (is_green s) (directions s)); [done |].
  by destruct (phase_set _ && _).
Qed.

Lemma change_zeroes_timers (s : IntersectionAgent) (d : Direction) :
  snd (change_traffic_light_phase s) = true ->
  d ∈ directions s ->
  timer_of (fst (change_traffic_light_phase s)) d = 0%Q /\
  directions (fst (change_traffic_light_phase s)) = directions s /\
  min_green_time (fst (change_traffic_light_phase s)) = min_green_time s /\
  model_time_step (fst (change_traffic_light_phase s)) = model_time_step s.
Proof.
  unfold change_traffic_light_phase.
  destruct (List.filter (is_green s) (directions s)) as [| g gs]; [done |].
  intros _ Hd.
  set (use_wave := phase_set (green_wave_phase s) && negb (green_wave_active s)).
  set (flipped := if bool_decide (get_current_phase s = "NS") then "EW" else "NS").
  set (next_phase := if use_wave then default flipped (green_wave_phase s) else flipped).
  cbn [fst]. split; [| by destruct use_wave].
  unfold timer_of.
  cbn [light_timers set_phase_changes set_green_durations set_light_timers
       set_traffic_lights rewrite_state].
  rewrite !assign_all_lookup.
  assert (Hsplit : d ∈ ns_directions s \/ d ∈ ew_directions s).
  { destruct (in_ns d) eqn:E.
    - left. by apply elem_of_ns_directions.
    - right. apply elem_of_ew_directions. split; [done |].
      rewrite in_ns_or_ew in E. by destruct (in_ew d). }
  destruct (bool_decide (next_phase = "NS")), Hsplit as [Hs | Hs];
    repeat case_decide; done.
Qed.

Lemma settled_below_floor (s sc s1 : IntersectionAgent) (bound : Q) :
  (0 <= bound)%Q -> (bound < min_green_time s)%Q ->
  settled_since s sc bound s1 ->
  (current_green_timer s1 < min_green_time s1)%Q.
Proof.
  intros H0 Hb (Hd & _ & Hm & _ & Ht). rewrite Hm.
  apply Qle_lt_trans with bound; [| done].
  apply green_timer_le; [done |]. intros d Hin. apply Ht. by rewrite <- Hd.
Qed.

Lemma schedule_green_wave_quiet (s1 : IntersectionAgent) (phase : string) (offset flow : Q) :
  (current_green_timer s1 < min_green_time s1)%Q ->
  directions (schedule_green_wave s1 phase offset flow) = directions s1 /\
  traffic_lights (schedule_green_wave s1 phase offset flow) = traffic_lights s1 /\
  light_timers (schedule_green_wave s1 phase offset flow) = light_timers s1 /\
  min_green_time (schedule_green_wave s1 phase offset flow) = min_green_time s1 /\
  model_time_step (schedule_green_wave s1 phase offset flow) = model_time_step s1.
Proof.
  intros Hlow. unfold schedule_green_wave.
  destruct (bool_decide (get_current_phase s1 = phase)); [done |].
  destruct (Qleb offset (min_green_time s1)); [| done].
  assert (E : Qleb (min_green_time s1) (current_green_timer s1) = false).
  { apply not_true_is_false. intros H. apply Qle_bool_iff in H. lra. }
  by rewrite E.
Qed.

Lemma execute_intention_quiet (s sc s1 : IntersectionAgent) (bound : Q) (n : nat)
    (i : Bdi.Intention) :
  (0 <= bound)%Q -> (bound < min_green_time s)%Q ->
  settled_since s sc bound s1 ->
  Bdi.i_type i <> Bdi.CHANGE_LIGHT_TIMING ->
  settled_since s sc bound (fst (execute_intention fsqrt n s1 i)).
Proof.
  intros H0 Hb Hq Hkind. unfold execute_intention.
  destruct (Bdi.i_type i); try done.
  unfold broadcast_state_to_neighbors. cbn [fst].
  set (s2 := set_coordination_messages_sent s1 _).
  assert (Hq2 : settled_since s sc bound s2) by exact Hq.
  pose proof (settled_below_floor s sc s2 bound H0 Hb Hq2) as Hlow.
  unfold apply_neighbor_coordination.
  destruct (foldl _ _ _) as [[flow phase] offset].
  destruct phase as [phase |]; [| done].
  destruct (negb _ && _); [| done].
  destruct (schedule_green_wave_quiet s2 phase offset flow Hlow) as (E1 & E2 & E3 & E4 & E5).
  destruct Hq2 as (Hd & Hl & Hm & Hts & Ht).
  split; [by rewrite E1 |]. split; [by rewrite E2 |]. split; [by rewrite E4 |].
  split; [by rewrite E5 |].
  intros d Hin. unfold timer_of. rewrite E3. by apply Ht.
Qed.

Lemma strong_congestion_readable (v : PyVal) :
  readable_congestion v = true -> exists b, strong_congestion v = Ok b.
Proof.
  unfold readable_congestion, strong_congestion, dict_has.
  destruct (truthy v); [| by eexists].
  destruct v as [| | | | | info]; try done. simpl.
  destruct (info !! "level"); [by eexists | done].
Qed.


End SpacingProps.

Section PhaseProps.
Import Intersection.

Ltac decide_strings :=
  repeat match goal with
         | |- context [bool_decide (?a = ?b)] =>
             first [ rewrite (bool_decide_eq_true_2 (a = b)) by done
                   | rewrite (bool_decide_eq_false_2 (a = b)) by done ]
         end.

Ltac decide_members :=
  repeat match goal with
         | |- context [decide (?d ∈ ?l)] =>
             first [ rewrite (decide_True (P := d ∈ l))
                       by (repeat first [apply list_elem_of_here | apply list_elem_of_further])
                   | rewrite (decide_False (P := d ∈ l))
                       by (intros Hmem; repeat (apply elem_of_cons in Hmem as [Hmem | Hmem];
                                                [discriminate Hmem |]);
                           by apply elem_of_nil in Hmem) ]
         end.

(** For an intersection built with its four default directions, in any
    state it reaches, a phase change with no remembered green-wave phase
    succeeds, swaps the colours of all four lights (so the current phase
    flips), and sets every light timer to zero. *)
Theorem phase_change_alternates (uid : string) (ts : option Q) (uq : option bool)
    (pos : Q * Q) (s : IntersectionAgent) :
  reachable (IntersectionAgent_init uid ts uq pos None) s ->
  phase_set (green_wave_phase s) && negb (green_wave_active s) = false ->
  snd (change_traffic_light_phase s) = true /\
  get_current_phase (fst (change_traffic_light_phase s)) = other_phase (get_current_phase s) /\
  (forall d, is_green (fst (change_traffic_light_phase s)) d = negb (is_green s d)) /\
  (forall d, timer_of (fst (change_traffic_light_phase s)) d = 0%Q) /\
  phase_changes (fst (change_traffic_light_phase s)) = (phase_changes s + 1)%Z.
Proof.
  intros Hr Hwave.
  destruct (reachable_lights_inv _ _ (init_lights_inv uid ts uq pos None) Hr)
    as [Hdirs [g Hsplit]].
  cbn [IntersectionAgent_init directions default] in Hdirs.
  assert (Hl : forall d, traffic_lights s !! d
                         = Some (if bool_decide (in_ns d = g) then GREEN else RED)).
  { intros d. apply Hsplit. rewrite Hdirs. destruct d; unfold default_directions;
      repeat first [apply list_elem_of_here | apply list_elem_of_further]. }
  assert (Hg : forall d, is_green s d = bool_decide (in_ns d = g)).
  { intros d. unfold is_green. rewrite Hl. by destruct (bool_decide (in_ns d = g)). }
  assert (Hns : ns_directions s = [NORTH; SOUTH]).
  { unfold ns_directions. by rewrite Hdirs. }
  assert (Hew : ew_directions s = [EAST; WEST]).
  { unfold ew_directions. by rewrite Hdirs. }
  assert (Hres : exists lights timers durations s1,
            change_traffic_light_phase s
            = (set_phase_changes
                 (set_green_durations
                    (set_light_timers (set_traffic_lights s1 lights) timers) durations)
                 (phase_changes s + 1)%Z, true) /\
            (forall d, lights !! d = Some (if bool_decide (in_ns d = g) then RED else GREEN)) /\
            (forall d, timers !! d = Some 0%Q)).
  { unfold change_traffic_light_phase, get_current_phase. rewrite Hwave, Hns, Hew, Hdirs.
    unfold default_directions. cbn [List.filter]. rewrite !Hg.
    destruct g.
    - do 4 eexists. split; [reflexivity |]. decide_strings.
      split; intros d; rewrite !assign_all_lookup; destruct d; decide_members; done.
    - do 4 eexists. split; [reflexivity |]. decide_strings.
      split; intros d; rewrite !assign_all_lookup; destruct d; decide_members; done. }
  destruct Hres as (lights & timers & durations & s1 & -> & Hlights & Htimers).
  cbn [fst snd]. split; [done |].
  unfold get_current_phase, other_phase, is_green, timer_of.
  cbn [traffic_lights light_timers phase_changes set_phase_changes set_green_durations
       set_light_timers set_traffic_lights rewrite_state].
  split; [| split; [| split; [| done]]].
  - rewrite Hlights, Hl. by destruct g.
  - intros d. rewrite Hlights, Hl. by destruct d, g.
  - intros d. by rewrite Htimers.
Qed.

End PhaseProps.

Section ForceProps.
Import Intersection.

Lemma force_group_timers (c : TrafficLightState) (group : list Direction) :
  forall (lt : gmap Direction TrafficLightState * gmap Direction Q) (k : Direction),
  snd (force_group c group lt) !! k
  = if decide (k ∈ group /\ is_Some (fst lt !! k)) then Some 0%Q else snd lt !! k.
Proof.
  unfold force_group. induction group as [| d group IH]; intros lt k; cbn [foldl].
  - rewrite decide_False; [done |]. intros [H _]. by apply elem_of_nil in H.
  - rewrite IH. case_bool_decide as Hd; cbn [fst snd].
    + destruct (decide (k = d)) as [-> | Hne].
      * rewrite lookup_insert_eq.
        rewrite (decide_True (P := d ∈ d :: group /\ _)) by (split; [apply list_elem_of_here | done]).
        case_decide; [done |]. by rewrite lookup_insert_eq.
      * rewrite !lookup_insert_ne by done.
        destruct (decide (k ∈ group /\ is_Some (lt.1 !! k))) as [[H1 H2] | Hn].
        -- rewrite decide_True; [done |]. split; [by apply list_elem_of_further | done].
        -- rewrite decide_False; [done |].
           intros [[? | ?]%elem_of_cons ?]; [done | by apply Hn].
    + destruct (decide (k ∈ group /\ is_Some (lt.1 !! k))) as [[H1 H2] | Hn].
      * rewrite decide_True; [done |]. split; [by apply list_elem_of_further | done].
      * destruct (decide (k = d)) as [-> | Hne].
        -- rewrite decide_False; [done |]. by intros [_ ?].
        -- rewrite decide_False; [done |].
           intros [[? | ?]%elem_of_cons ?]; [done | by apply Hn].
Qed.

(** Once every green light has lasted [min_green_time], a forced green
    is granted: the target direction is green afterwards; and when it
    was not green before, the lights of its axis are green, those of the
    other axis red, their timers are at zero and the change is
    counted. *)
Theorem forced_green_granted (s : IntersectionAgent) (target : Direction) :
  (forall d, d ∈ directions s -> is_green s d = true ->
             (min_green_time s <= timer_of s d)%Q) ->
  is_Some (traffic_lights s !! target) ->
  is_green (force_green s target) target = true /\
  (is_green s target = false ->
   (forall d, is_Some (traffic_lights s !! d) ->
      traffic_lights (force_green s target) !! d
      = Some (if bool_decide (in_ns d = in_ns target) then GREEN else RED) /\
      light_timers (force_green s target) !! d = Some 0%Q) /\
   phase_changes (force_green s target) = (phase_changes s + 1)%Z).
Proof.
  intros Hold Htarget. unfold force_green.
  assert (He : existsb (fun d => is_green s d && Qltb (timer_of s d) (min_green_time s))
                       (directions s) = false).
  { apply not_true_is_false. intros (d & Hd & Hb)%existsb_elem_of.
    apply andb_true_iff in Hb as [Hg Hlt]. apply Qltb_lt in Hlt.
    specialize (Hold d Hd Hg). lra. }
  rewrite He.
  destruct (is_green s target) eqn:Hgt; [done |].
  set (green_group := if in_ns target then ns_pair else ew_pair).
  set (red_group := if in_ns target then ew_pair else ns_pair).
  assert (Hgroups : forall d, (d ∈ green_group <-> in_ns d = in_ns target) /\
                              (d ∈ red_group <-> in_ns d <> in_ns target)).
  { intros d. subst green_group red_group.
    destruct (in_ns target); rewrite in_ns_pair, in_ew_pair; destruct (in_ns d);
      (split; split; intros H; try done; try discriminate H). }
  assert (Hlook : forall d, is_Some (traffic_lights s !! d) ->
            fst (force_group RED red_group
                   (force_group GREEN green_group (traffic_lights s, light_timers s))) !! d
            = Some (if bool_decide (in_ns d = in_ns target) then GREEN else RED) /\
            snd (force_group RED red_group
                   (force_group GREEN green_group (traffic_lights s, light_timers s))) !! d
            = Some 0%Q).
  { intros d Hd. destruct (Hgroups d) as [Hgr Hrd].
    set (inner := force_group GREEN green_group (traffic_lights s, light_timers s)).
    assert (Hin1 : fst inner !! d
                   = if bool_decide (in_ns d = in_ns target) then Some GREEN
                     else traffic_lights s !! d).
    { subst inner. rewrite force_group_lookup. cbn [fst].
      case_bool_decide as Hsame.
      - rewrite decide_True; [done |]. split; [by apply Hgr | done].
      - rewrite decide_False; [done |]. intros [H _]. by apply Hgr in H. }
    assert (Hin2 : snd inner !! d
                   = if bool_decide (in_ns d = in_ns target) then Some 0%Q
                     else light_timers s !! d).
    { subst inner. rewrite force_group_timers. cbn [fst snd].
      case_bool_decide as Hsame.
      - rewrite decide_True; [done |]. split; [by apply Hgr | done].
      - rewrite decide_False; [done |]. intros [H _]. by apply Hgr in H. }
    rewrite force_group_lookup, force_group_timers, Hin1, Hin2.
    case_bool_decide as Hsame.
    - rewrite !decide_False; [done | |]; intros [H _]; by apply Hrd in H.
    - rewrite !decide_True; [done | |]; (split; [by apply Hrd | done]). }
  cbn [traffic_lights light_timers phase_changes set_phase_changes set_light_timers
       set_traffic_lights rewrite_state].
  split.
  - unfold is_green.
    cbn [traffic_lights set_phase_changes set_light_timers set_traffic_lights rewrite_state].
    destruct (Hlook target Htarget) as [-> _].
    by rewrite (bool_decide_eq_true_2 (in_ns target = in_ns target)).
  - intros _. split; [exact Hlook | done].
Qed.

(** For an emergency request that gives the vehicle's position the
    intersection always builds an [inform] acknowledgement, addressed to
    the requester, that names the approach direction as the green one;
    the lights are those [_force_green] leaves, and it leaves them as
    they are while a green light is younger than [min_green_time]. *)
Theorem emergency_acknowledged_regardless (t_stamp t_id : Q) (s : IntersectionAgent)
    (message : Fipa.FIPAMessage) (x y : Q) (rest : list PyVal) :
  Fipa.content message !! "vehicle_position" = Some (PTuple (PNum x :: PNum y :: rest)) ->
  exists response : Fipa.FIPAMessage,
    handle_emergency_priority t_stamp t_id s message
    = Ok (force_green s (get_approach_direction s (x, y)), Some response) /\
    Fipa.performative response = "inform" /\
    Fipa.receiver response = Fipa.sender message /\
    Fipa.reply_to response = Some (Fipa.message_id message) /\
    Fipa.content response !! "green_direction"
    = Some (PStr (dir_value (get_approach_direction s (x, y)))) /\
    (forall d, d ∈ directions s -> is_green s d = true ->
               (timer_of s d < min_green_time s)%Q ->
               force_green s (get_approach_direction s (x, y)) = s).
Proof.
  intros Hpos. unfold handle_emergency_priority, dict_get. rewrite Hpos.
  cbn [truthy as_position length]. rewrite bool_decide_eq_false_2 by done. cbn.
  eexists. split; [reflexivity |].
  repeat split; try reflexivity.
  intros d Hd Hg Ht. by apply (force_green_refused s _ d).
Qed.

End ForceProps.

Section LearningProps.
Import Intersection.

(** The exploration rate of Q-learning only goes down, and never below
    [epsilon_min]. *)
Theorem exploration_rate_decays (s : IntersectionAgent) (rnd1 rnd2 : Q) :
  (0 <= epsilon_decay s)%Q -> (epsilon_decay s <= 1)%Q ->
  (0 <= epsilon s)%Q -> (epsilon_min s <= epsilon s)%Q ->
  let s' := fst (q_learning_decision s rnd1 rnd2) in
  epsilon_min s' = epsilon_min s /\ epsilon_decay s' = epsilon_decay s /\
  (epsilon_min s <= epsilon s')%Q /\ (epsilon s' <= epsilon s)%Q.
Proof.
  intros Hd0 Hd1 He0 Hmin s'. subst s'. unfold q_learning_decision.
  destruct (Qltb (current_green_timer s) (min_green_time s)).
  { cbn [fst]. repeat split; try done; lra. }
  cbn [fst].
  set (s1 := set_q_table s (ensure_row (q_table s) (get_state_representation s))).
  set (s2 := match previous_state s1, previous_action s1 with
             | Some ps, Some pa => update_q_table s1 ps pa (compute_reward s1)
                                     (get_state_representation s)
             | _, _ => s1
             end).
  assert (H2 : epsilon s2 = epsilon s /\ epsilon_min s2 = epsilon_min s /\
               epsilon_decay s2 = epsilon_decay s).
  { subst s2 s1. cbn [previous_state previous_action set_q_table rewrite_state].
    by destruct (previous_state s), (previous_action s). }
  destruct H2 as (E1 & E2 & E3).
  cbn [epsilon epsilon_min epsilon_decay set_learning rewrite_state].
  rewrite E1, E2, E3. split; [done |]. split; [done |].
  unfold Qmax. destruct (Qltb (epsilon s * epsilon_decay s) (epsilon_min s)) eqn:E.
  - split; lra.
  - apply Qltb_ge in E. split; [lra | nra].
Qed.

End LearningProps.

Section DurationProps.
Import Intersection.

Lemma extension_fold (s : IntersectionAgent) (extra : Q) (l : list Direction) :
  forall (m : gmap Direction Q) (d : Direction),
  (d ∈ l -> is_green s d = true ->
   exists v, foldl (fun acc d =>
                      if is_green s d
                      then <[d := Qmin (default 0%Q (acc !! d) + extra)%Q (max_green_time s)]> acc
                      else acc) m l !! d = Some v /\ (v <= max_green_time s)%Q) /\
  (is_green s d = false ->
   foldl (fun acc d =>
            if is_green s d
            then <[d := Qmin (default 0%Q (acc !! d) + extra)%Q (max_green_time s)]> acc
            else acc) m l !! d = m !! d).
Proof.
  induction l as [| x l IH] using rev_ind; intros m d.
  - split; [by intros H%elem_of_nil | done].
  - rewrite foldl_app. cbn [foldl]. destruct (IH m d) as [IH1 IH2]. split.
    + intros Hin Hg. destruct (decide (d = x)) as [<- | Hne].
      * rewrite Hg, lookup_insert_eq. eexists. split; [done |].
        unfold Qmin. destruct (Qltb _ _) eqn:E; [lra |]. by apply Qltb_ge in E.
      * apply elem_of_app in Hin as [Hin | Hin%list_elem_of_singleton]; [| done].
        destruct (is_green s x); [rewrite lookup_insert_ne by done |]; by apply IH1.
    + intros Hg. destruct (decide (d = x)) as [<- | Hne].
      * rewrite Hg. by apply IH2.
      * destruct (is_green s x); [rewrite lookup_insert_ne by done |]; by apply IH2.
Qed.

(** No green is planned for longer than [max_green_time]: neither by a
    phase change, for the lights it turns green, nor by a green wave
    that extends the current phase, for the lights that are green; and
    such an extension leaves the lights as they are. *)
Theorem planned_green_capped (s : IntersectionAgent) (d : Direction) :
  (is_green (fst (change_traffic_light_phase s)) d = true ->
   snd (change_traffic_light_phase s) = true ->
   d ∈ directions s ->
   (duration_of (fst (change_traffic_light_phase s)) d <= max_green_time s)%Q) /\
  (forall offset expected_flow,
     d ∈ directions s -> is_green s d = true ->
     let s' := schedule_green_wave s (get_current_phase s) offset expected_flow in
     traffic_lights s' = traffic_lights s /\
     (duration_of s' d <= max_green_time s)%Q).
Proof.
  split.
  - unfold change_traffic_light_phase.
    destruct (List.filter (is_green s) (directions s)) as [| g gs]; [done |].
    intros Hg _ Hd. revert Hg.
    set (use_wave := phase_set (green_wave_phase s) && negb (green_wave_active s)).
    set (flipped := if bool_decide (get_current_phase s = "NS") then "EW" else "NS").
    set (next_phase := if use_wave then default flipped (green_wave_phase s) else flipped).
    unfold is_green, duration_of.
    cbn [fst traffic_lights green_durations set_phase_changes set_green_durations
         set_light_timers set_traffic_lights rewrite_state].
    rewrite !assign_all_lookup.
    destruct (decide (d ∈ if bool_decide (next_phase = "NS")
                          then ns_directions s else ew_directions s)) as [Hin | Hnin].
    + intros _. simpl. unfold Qmin. destruct (Qltb _ _) eqn:E; [lra |]. by apply Qltb_ge in E.
    + destruct (decide (d ∈ if bool_decide (next_phase = "NS")
                            then ew_directions s else ns_directions s)) as [Hin' | Hnin'].
      * intros Hc. by apply bool_decide_eq_true in Hc.
      * exfalso. destruct (in_ns d) eqn:E.
        -- assert (d ∈ ns_directions s) by (by apply elem_of_ns_directions).
           by destruct (bool_decide (next_phase = "NS")).
        -- assert (d ∈ ew_directions s).
           { apply elem_of_ew_directions. split; [done |].
             rewrite in_ns_or_ew in E. by destruct (in_ew d). }
           by destruct (bool_decide (next_phase = "NS")).
  - intros offset flow Hd Hg s'. subst s'. unfold schedule_green_wave.
    rewrite bool_decide_eq_true_2 by done.
    split; [done |]. unfold duration_of.
    cbn [green_durations set_green_durations rewrite_state].
    destruct (extension_fold s (Qmin (flow * 2) (max_green_time s)) (directions s)
                (green_durations s) d) as [H _].
    destruct (H Hd Hg) as (v & -> & Hv). done.
Qed.

End DurationProps.

Section CfpProps.
Import Fipa Intersection Crisis.

Lemma worst_fold (agent : IntersectionAgent) (rest : list Direction) :
  forall first : Direction,
  let w := foldl (fun best x => if (queue_in agent best <? queue_in agent x)%Z then x else best)
                 first rest in
  w ∈ first :: rest /\
  forall d, d ∈ first :: rest -> (queue_in agent d <= queue_in agent w)%Z.
Proof.
  induction rest as [| x rest IH]; intros first; cbn [foldl].
  - split; [apply list_elem_of_here |].
    intros d Hd. apply list_elem_of_singleton in Hd. subst. lia.
  - destruct (IH (if (queue_in agent first <? queue_in agent x)%Z then x else first))
      as [Hin Hmax].
    cbv zeta in *. split.
    + apply elem_of_cons in Hin as [Hin | Hin].
      * rewrite Hin. destruct (_ <? _)%Z;
          repeat first [apply list_elem_of_here | apply list_elem_of_further].
      * by do 2 apply list_elem_of_further.
    + intros d Hd.
      assert (Hfirst : (queue_in agent (if (queue_in agent first <? queue_in agent x)%Z
                                        then x else first)
                        <= queue_in agent
                             (foldl (fun best x0 =>
                                       if (queue_in agent best <? queue_in agent x0)%Z
                                       then x0 else best)
                                    (if (queue_in agent first <? queue_in agent x)%Z
                                     then x else first) rest))%Z).
      { apply Hmax. apply list_elem_of_here. }
      apply elem_of_cons in Hd as [-> | Hd].
      * destruct (Z.ltb_spec (queue_in agent first) (queue_in agent x)); lia.
      * apply elem_of_cons in Hd as [-> | Hd].
        -- destruct (Z.ltb_spec (queue_in agent first) (queue_in agent x)); lia.
        -- apply Hmax. by apply list_elem_of_further.
Qed.

(** The call for proposals about a congested intersection names the
    direction with the longest queue among the directions that have
    one, and ["unknown"] when the intersection is not found or has no
    queue. *)
Theorem cfp_names_worst_direction (t_stamp t_id : Q) (self : CrisisManagerAgent)
    (congested_id : string) (queue_total : Z) (congested_agent : option IntersectionAgent) :
  exists name : string,
    content (call_for_proposals t_stamp t_id self congested_id queue_total congested_agent)
      !! "direction" = Some (PStr name) /\
    match congested_agent with
    | None => name = "unknown"
    | Some agent =>
        (name = "unknown" /\
         forall d, d ∈ directions agent -> queue_lengths agent !! d = None) \/
        (exists w, name = dir_value w /\ w ∈ directions agent /\
                   is_Some (queue_lengths agent !! w) /\
                   forall d, d ∈ directions agent -> is_Some (queue_lengths agent !! d) ->
                             (queue_in agent d <= queue_in agent w)%Z)
    end.
Proof.
  exists (match congested_agent with
          | Some agent =>
              match worst_direction agent with
              | Some d => dir_value d
              | None => "unknown"
              end
          | None => "unknown"
          end).
  split; [reflexivity |].
  destruct congested_agent as [agent |]; [| done].
  unfold worst_direction.
  destruct (List.filter _ (directions agent)) as [| first rest] eqn:E.
  - left. split; [done |]. intros d Hd.
    destruct (queue_lengths agent !! d) eqn:Hq; [| done].
    assert (Hin : d ∈ List.filter (fun d => bool_decide (is_Some (queue_lengths agent !! d)))
                     (directions agent)).
    { apply list_elem_of_In, filter_In. split; [by apply list_elem_of_In |].
      apply bool_decide_eq_true. by rewrite Hq. }
    rewrite E in Hin. by apply elem_of_nil in Hin.
  - right. destruct (worst_fold agent rest first) as [Hin Hmax]. cbv zeta in *.
    eexists. split; [done |].
    assert (Hmem : forall d, d ∈ first :: rest <->
                     d ∈ directions agent /\ is_Some (queue_lengths agent !! d)).
    { intros d. rewrite <- E, !list_elem_of_In, filter_In, <- list_elem_of_In.
      by rewrite bool_decide_eq_true. }
    apply Hmem in Hin as [Hin1 Hin2]. split; [done |]. split; [done |].
    intros d Hd Hq. apply Hmax. by apply Hmem.
Qed.

(** The two sides of the threshold in binary64: [1.0 - 0.7] is above
    [0.3], and one part in [10^15] more than 70 % is enough to fall to
    [0.3] or below. *)
Lemma availability_at_threshold : (fl (3 # 10) < fl (1 - fl (7 # 10)))%Q.
Proof. vm_compute. reflexivity. Qed.

Lemma availability_past_threshold :
  (fl (1 - fl ((7 # 10) + (1 # 1000000000000000))) <= fl (3 # 10))%Q.
Proof. vm_compute. discriminate. Qed.

(** An intersection answers a call for proposals when its total queue is
    at most 70 % of its capacity (the congestion threshold times the
    number of directions, at least 1) and the caller is found, and does
    not answer when the queue is above 70 % (for capacities up to
    [10^14]; beyond, the quotient of a queue just above 70 % rounds to
    that of 70 %).  A queue of exactly 70 % is answered: the binary64
    value of [1.0 - 0.7] is above that of [0.3].  The proposal goes to
    the caller, answers the call, stays in the call's conversation and
    states the availability computed, which is above [0.3]. *)
Theorem cfp_bid_threshold (t_stamp t_id : Q) (s : IntersectionAgent) (message : FIPAMessage) :
  let capacity := Z.max (congestion_threshold s * Z.of_nat (length (directions s))) 1 in
  let availability := fl (1 - fl (inject_Z (total_queue s) / inject_Z capacity)) in
  ((10 * total_queue s <= 7 * capacity)%Z ->
   is_Some (snd (handle_cfp t_stamp t_id s message true))) /\
  ((7 * capacity < 10 * total_queue s)%Z -> (capacity <= 10 ^ 14)%Z ->
   snd (handle_cfp t_stamp t_id s message true) = None) /\
  (snd (handle_cfp t_stamp t_id s message false) = None) /\
  forall bid, snd (handle_cfp t_stamp t_id s message true) = Some bid ->
    performative bid = "propose" /\
    sender bid = Intersection.unique_id s /\
    receiver bid = sender message /\
    reply_to bid = Some (message_id message) /\
    conversation_id bid = conversation_id message /\
    get_number (content bid) "availability" 0 = availability /\
    (fl (3 # 10) < availability)%Q.
Proof.
  intros capacity availability.
  assert (Hav : cfp_availability s = availability) by reflexivity.
  assert (Hcap : (0 < inject_Z capacity)%Q).
  { change 0%Q with (inject_Z 0). rewrite <- Zlt_Qlt. unfold capacity. lia. }
  set (x := (inject_Z (total_queue s) / inject_Z capacity)%Q) in *.
  assert (Hx : (x * inject_Z capacity == inject_Z (total_queue s))%Q)
    by (unfold x; field; lra).
  unfold handle_cfp. rewrite Hav. split; [| split; [| split]].
  - intros Hle.
    assert (Hx7 : (x <= 7 # 10)%Q).
    { apply Qle_shift_div_r; [done |].
      rewrite Zle_Qle, !inject_Z_mult in Hle.
      change (inject_Z 10) with 10%Q in Hle. change (inject_Z 7) with 7%Q in Hle. lra. }
    assert (Hgt : Qltb (fl (3 # 10)) availability = true).
    { apply Qltb_lt. eapply Qlt_le_trans; [apply availability_at_threshold |].
      apply fl_mono. pose proof (fl_mono _ _ Hx7). lra. }
    by rewrite Hgt.
  - intros Hgt Hbig.
    assert (Hx7 : ((7 # 10) + (1 # 1000000000000000) <= x)%Q).
    { apply Qle_shift_div_l; [done |].
      assert (H1 : (7 * capacity + 1 <= 10 * total_queue s)%Z) by lia.
      rewrite Zle_Qle in H1, Hbig.
      rewrite inject_Z_plus, !inject_Z_mult in H1.
      change (inject_Z 10) with 10%Q in H1. change (inject_Z 7) with 7%Q in H1.
      change (inject_Z 1) with 1%Q in H1.
      change (inject_Z (10 ^ 14)) with 100000000000000%Q in Hbig. lra. }
    assert (Hle : Qltb (fl (3 # 10)) availability = false).
    { apply Qltb_ge. eapply Qle_trans; [| apply availability_past_threshold].
      apply fl_mono. pose proof (fl_mono _ _ Hx7). lra. }
    by rewrite Hle.
  - by destruct (Qltb (fl (3 # 10)) availability).
  - intros bid. destruct (Qltb (fl (3 # 10)) availability) eqn:E; cbn [snd]; [| done].
    intros [= <-]. apply Qltb_lt in E.
    repeat split; try done.
Qed.

Lemma evaluate_first_bid (t_stamp t_id : Q) (self : CrisisManagerAgent)
    (w : Schedule) (message : FIPAMessage) :
  cnp_proposals self !! conversation_key message = None ->
  evaluate_cnp_proposal t_stamp t_id self w message
  = (set_cnp_proposals self
       (<[conversation_key message :=
            [{| p_sender := sender message;
                availability := get_number (content message) "availability" 0;
                current_load := get_number (content message) "current_load" 0;
                p_message := message |}]]> (cnp_proposals self)), w).
Proof. intros H. unfold evaluate_cnp_proposal. by rewrite H. Qed.

Lemma evaluate_second_bid (t_stamp t_id : Q) (self : CrisisManagerAgent)
    (w : Schedule) (message : FIPAMessage) (held : Proposal) :
  cnp_proposals self !! conversation_key message = Some [held] ->
  cnp_proposals (fst (evaluate_cnp_proposal t_stamp t_id self w message))
    !! conversation_key message = None.
Proof.
  intros H. unfold evaluate_cnp_proposal. rewrite H. cbn. apply lookup_delete_eq.
Qed.

(** Every proposal an intersection sends in answer to a call for
    proposals of the crisis manager falls into the manager's one
    conversation ["default"], whichever congested intersection the call
    was about: the call carries no conversation identifier.  So the first
    such proposal is stored without any reply, and the next one, even if
    it answers another call, closes the conversation. *)
Theorem cnp_bids_share_conversation (t1 t2 t3 t4 t5 t6 t7 t8 : Q)
    (manager : CrisisManagerAgent) (w : Schedule)
    (congested_id congested_id' neighbor_id neighbor_id' : string)
    (queue_total queue_total' : Z)
    (congested_agent congested_agent' : option IntersectionAgent)
    (s s' : IntersectionAgent) (bid bid' : FIPAMessage) :
  snd (handle_cfp t5 t6 s
         (FIPAMessageCopy t3 t4
            (call_for_proposals t1 t2 manager congested_id queue_total congested_agent)
            neighbor_id) true) = Some bid ->
  snd (handle_cfp t5 t6 s'
         (FIPAMessageCopy t3 t4
            (call_for_proposals t1 t2 manager congested_id' queue_total' congested_agent')
            neighbor_id') true) = Some bid' ->
  cnp_proposals manager !! "default" = None ->
  conversation_key bid = "default" /\
  conversation_key bid' = "default" /\
  snd (Crisis.handle_message t7 t8 manager w bid) = w /\
  length <$> (cnp_proposals (fst (Crisis.handle_message t7 t8 manager w bid)) !! "default")
  = Some 1%nat /\
  cnp_proposals
    (fst (Crisis.handle_message t7 t8
            (fst (Crisis.handle_message t7 t8 manager w bid)) w bid')) !! "default" = None.
Proof.
  unfold handle_cfp.
  destruct (Qltb (fl (3 # 10)) (cfp_availability s)); cbn [snd]; [| done].
  destruct (Qltb (fl (3 # 10)) (cfp_availability s')); cbn [snd]; [| done].
  intros [= <-] [= <-] Hnone.
  split; [done |]. split; [done |].
  unfold Crisis.handle_message.
  rewrite !bool_decide_eq_true_2 by done.
  rewrite evaluate_first_bid by done.
  cbn [fst snd].
  split; [done |]. split.
  - change (conversation_key (propose_in_cnp _ _ _ _ _ _)) with "default".
    cbn [cnp_proposals set_cnp_proposals]. by rewrite lookup_insert_eq.
  - match goal with
    | |- cnp_proposals (fst (evaluate_cnp_proposal ?a ?b ?c ?d ?m)) !! _ = None =>
        refine (evaluate_second_bid a b c d m _ _)
    end.
    change (conversation_key (propose_in_cnp _ _ _ _ _ _)) with "default".
    cbn [cnp_proposals set_cnp_proposals]. by rewrite lookup_insert_eq.
Qed.

End CfpProps.

Section CoordinationProps.
Import Intersection.

Variable fsqrt : Q -> Q.

Lemma coordination_step_skips (s : IntersectionAgent) (best : Q * option string * Q)
    (x : string * NeighborState) :
  counted s x = false -> coordination_step fsqrt s best x = best.
Proof.
  unfold counted, coordination_step. intros H.
  destruct (Qltb 30 (current_time s - n_timestamp (snd x))); [done |].
  destruct (n_position (snd x)) as [pos |]; [| done].
  rewrite bool_decide_eq_true_2 in H by done. cbn [negb andb] in H.
  unfold Qleb. unfold Qltb in H. by destruct (Qle_bool (outflow_estimate (snd x)) 0).
Qed.

Lemma coordination_step_counts (s : IntersectionAgent) (best : Q * option string * Q)
    (x : string * NeighborState) :
  counted s x = true ->
  (0 < outflow_estimate (snd x))%Q /\
  exists pos,
    n_position (snd x) = Some pos /\
    coordination_step fsqrt s best x
    = if Qltb (fst (fst best)) (outflow_estimate (snd x))
      then (outflow_estimate (snd x), n_phase (snd x),
            (phase_timer_remaining (snd x)
             + calculate_distance fsqrt (position s) pos / (833 # 100))%Q)
      else best.
Proof.
  unfold counted, coordination_step. intros H.
  destruct (Qltb 30 (current_time s - n_timestamp (snd x))); [done |].
  destruct (n_position (snd x)) as [pos |].
  2: { rewrite bool_decide_eq_false_2 in H by (by intros [? ?]). done. }
  rewrite bool_decide_eq_true_2 in H by done. cbn [negb andb] in H.
  split; [by apply Qltb_lt |].
  exists pos. split; [done |].
  unfold Qleb. unfold Qltb in H. by destruct (Qle_bool (outflow_estimate (snd x)) 0).
Qed.

Lemma coordination_fold (s : IntersectionAgent) (states : list (string * NeighborState)) :
  (List.filter (counted s) states = [] /\
   foldl (coordination_step fsqrt s) (0%Q, None, 0%Q) states = (0%Q, None, 0%Q)) \/
  exists l1 e l2 pos,
    List.filter (counted s) states = l1 ++ e :: l2 /\
    n_position (snd e) = Some pos /\
    Forall (fun x => (outflow_estimate (snd x) < outflow_estimate (snd e))%Q) l1 /\
    Forall (fun x => (outflow_estimate (snd x) <= outflow_estimate (snd e))%Q) l2 /\
    (0 < outflow_estimate (snd e))%Q /\
    foldl (coordination_step fsqrt s) (0%Q, None, 0%Q) states
    = (outflow_estimate (snd e), n_phase (snd e),
       (phase_timer_remaining (snd e)
        + calculate_distance fsqrt (position s) pos / (833 # 100))%Q).
Proof.
  induction states as [| x states IH] using rev_ind; [by left |].
  rewrite List.filter_app, foldl_app. cbn [List.filter foldl].
  destruct (counted s x) eqn:Ec.
  - right.
    destruct IH as [[Hf ->] | (l1 & e & l2 & pos' & Hl & Hp & H1 & H2 & He & ->)].
    + destruct (coordination_step_counts s (0%Q, None, 0%Q) x Ec) as (Hpos & pos & Hp & ->).
      cbn [fst]. rewrite (proj2 (Qltb_lt 0 (outflow_estimate (snd x))) Hpos).
      exists [], x, [], pos. rewrite Hf. by repeat split.
    + destruct (coordination_step_counts s
                  (outflow_estimate (snd e), n_phase (snd e),
                   (phase_timer_remaining (snd e)
                    + calculate_distance fsqrt (position s) pos' / (833 # 100))%Q) x Ec)
        as (Hpos & pos & Hpx & ->).
      cbn [fst]. rewrite Hl.
      destruct (Qltb (outflow_estimate (snd e)) (outflow_estimate (snd x))) eqn:E.
      * apply Qltb_lt in E.
        exists (l1 ++ e :: l2), x, [], pos.
        split; [done |]. split; [done |]. split; [| done].
        apply Forall_app. split.
        -- eapply Forall_impl; [exact H1 |]. intros z' Hz. simpl in Hz. lra.
        -- constructor; [done |].
           eapply Forall_impl; [exact H2 |]. intros z' Hz. simpl in Hz. lra.
      * apply Qltb_ge in E.
        exists l1, e, (l2 ++ [x]), pos'.
        split; [by rewrite <- app_assoc |]. split; [done |]. split; [done |].
        split; [| done].
        apply Forall_app. split; [done |]. by constructor.
  - rewrite app_nil_r, coordination_step_skips by done. exact IH.
Qed.


End CoordinationProps.

(** ** Concrete instances *)

Section RoutingWitnesses.
Import Routing Examples.

(** Two searches with a congestion factor of 2 on the road of the
    example network leave it four times as long. *)
Lemma weighted_network_witness :
  weight_of
    (Nat.iter 2 (fun net => fst (create_weighted_network net [(("a", "b"), 2%Q)])) detour_net)
    "a" "b"
  = Some (Nat.iter 2 (fun w => (w * 2)%Q) 7%Q).
Proof.
  destruct (weighted_network_compounds detour_net "a" "b" 2
              (add_neighbor (Node_init (0%Q, 0%Q) "a") "b" 7)
              (add_neighbor (Node_init (3%Q, 4%Q) "b") "a" 7) 1
              eq_refl eq_refl) as [H _].
  exact H.
Defined.

(** The search on the example network. *)
Lemma a_star_route_witness :
  exists r, a_star sqrt_floor 3 detour_net "a" "b" = Some r /\
            (forall path, r = Ok (Some path) -> is_route detour_net "a" "b" path) /\
            (r = Ok None -> forall path, ~ is_route detour_net "a" "b" path).
Proof.
  apply (a_star_returns_route sqrt_floor detour_net "a" "b" 3).
  vm_compute. lia.
Defined.

End RoutingWitnesses.

Section IntersectionWitnesses.
Import Intersection Examples.


(** The first phase change of the fresh intersection. *)
Lemma phase_change_alternates_witness :
  snd (change_traffic_light_phase fresh) = true /\
  get_current_phase (fst (change_traffic_light_phase fresh))
  = other_phase (get_current_phase fresh).
Proof.
  destruct (phase_change_alternates "intersection_0" (Some 1%Q) None (0%Q, 0%Q) fresh
              (reach_init _) eq_refl) as (H1 & H2 & _).
  exact (conj H1 H2).
Defined.

(** After 20 s of north-south green the east may be forced green. *)
Lemma forced_green_witness : is_green (force_green ripe EAST) EAST = true.
Proof.
  apply (forced_green_granted ripe EAST).
  - intros d _ _. destruct d; vm_compute; discriminate.
  - eexists. reflexivity.
Defined.

(** An ambulance north of the fresh intersection. *)
Lemma emergency_acknowledged_witness :
  exists response : Fipa.FIPAMessage,
    handle_emergency_priority 5 5 fresh
      (Fipa.FIPAMessage_init 4 4 "ambulance_0" "intersection_0" "request"
         {[ "vehicle_position" := PTuple [PNum 0; PNum 50] ]} None None None None)
    = Ok (force_green fresh (get_approach_direction fresh (0%Q, 50%Q)), Some response) /\
    Fipa.performative response = "inform".
Proof.
  destruct (emergency_acknowledged_regardless 5 5 fresh
              (Fipa.FIPAMessage_init 4 4 "ambulance_0" "intersection_0" "request"
                 {[ "vehicle_position" := PTuple [PNum 0; PNum 50] ]} None None None None)
              0 50 []) as (response & H1 & H2 & _).
  - vm_compute. reflexivity.
  - exists response. exact (conj H1 H2).
Defined.

(** The exploration rate after one decision of the intersection that has
    been green for 20 s, past its minimum green time: the decision
    explores, asks for a change and decays the rate from 0.1 to 0.0995. *)
Lemma exploration_rate_witness :
  Qltb (current_green_timer ripe) (min_green_time ripe) = false /\
  snd (q_learning_decision ripe 0 0) = true /\
  (epsilon ripe == 1 # 10)%Q /\
  (epsilon (fst (q_learning_decision ripe 0 0)) == 995 # 10000)%Q /\
  (epsilon_min ripe <= epsilon (fst (q_learning_decision ripe 0 0)))%Q /\
  (epsilon (fst (q_learning_decision ripe 0 0)) <= epsilon ripe)%Q.
Proof.
  destruct (exploration_rate_decays ripe 0 0) as (_ & _ & H1 & H2);
    try (vm_compute; discriminate).
  split; [vm_compute; reflexivity |]. split; [vm_compute; reflexivity |].
  split; [vm_compute; reflexivity |]. split; [vm_compute; reflexivity |].
  exact (conj H1 H2).
Defined.

End IntersectionWitnesses.

Section CnpWitnesses.
Import Fipa Intersection Crisis Examples.

(** The bid of the fresh intersection on the call about [jammed]. *)
Lemma cnp_conversation_witness :
  exists bid : FIPAMessage,
    snd (handle_cfp 41 41 fresh (FIPAMessageCopy 40 40 cfp "intersection_1") true) = Some bid /\
    conversation_key bid = "default" /\
    snd (Crisis.handle_message 42 42 manager contractors bid) = contractors.
Proof.
  eexists. split; [reflexivity |].
  destruct (cnp_bids_share_conversation 40 40 40 40 41 41 42 42 manager contractors
              "intersection_0" "intersection_0" "intersection_1" "intersection_1"
              44 44 (Some jammed) (Some jammed) fresh fresh _ _ eq_refl eq_refl eq_refl)
    as (H1 & _ & H3 & _).
  exact (conj H1 H3).
Defined.

End CnpWitnesses.
